(** * db4sphinx: the DocBook converter and the assembly bookkeeping

    A shallow embedding of [db4sphinx/dbparser.py] (class
    [DocbookConverter]) and of [DocbookAssemblyInfo] in [db4sphinx/ext.py].

    - Source elements are the lxml elements the converter walks: tag,
      attributes, text, tail, source line and ordered children.
    - Output nodes are docutils nodes.  They are objects with identity, and
      [parent += node] appends a reference, so they live in a store and a
      child list holds locations.
    - The converter's instance fields are a record that is threaded through
      a state-and-exception monad; a Python exception is [Raise]. *)

From Stdlib Require Import ZArith String Ascii.
From stdpp Require Import gmap strings list fin_maps.

Set Warnings "-register-all".

(** ** Python string operations used by the converter *)

Module PyStr.

(** A Python [str] is kept as its UTF-8 bytes.  A character is a code
    point: a byte that is not a continuation byte ([10xxxxxx]) together
    with the continuation bytes that follow it.  Subscripts, slices,
    [len], [strip] and the white-space tests of Python go by characters,
    and so do the operations below. *)
Definition is_continuation (c : ascii) : bool :=
  let n := N_of_ascii c in ((128 <=? n) && (n <? 192))%N.

(** The characters of a string, in order; this is also what [list += str]
    appends. *)
Fixpoint chars (s : string) : list string :=
  match s with
  | EmptyString => []
  | String c s' =>
      match chars s' with
      | x :: l =>
          if match s' with String c' _ => is_continuation c' | EmptyString => false end
          then String c x :: l
          else String c EmptyString :: x :: l
      | [] => [String c EmptyString]
      end
  end.

(** The string made of a list of characters. *)
Definition of_chars (l : list string) : string := foldr String.append EmptyString l.

(** [ord(ch)]: the code point of a character, from the payload bits of
    its lead byte and of its continuation bytes. *)
Definition lead_bits (n : N) : N :=
  (if n <? 128 then n
   else if n <? 224 then n - 192
   else if n <? 240 then n - 224
   else n - 240)%N.

Fixpoint continuation_bits (acc : N) (s : string) : N :=
  match s with
  | EmptyString => acc
  | String c s' => continuation_bits (acc * 64 + (N_of_ascii c - 128))%N s'
  end.

Definition ord (ch : string) : N :=
  match ch with
  | EmptyString => 0%N
  | String c s => continuation_bits (lead_bits (N_of_ascii c)) s
  end.

(** The code points for which [ch.isspace()] holds, which are also those
    that [strip], [lstrip] and [rstrip] remove: the ASCII white space and
    the separators U+001C to U+001F, U+0085, U+00A0, U+1680, U+2000 to
    U+200A, U+2028, U+2029, U+202F, U+205F and U+3000. *)
Definition whitespace : list N :=
  [ 9; 10; 11; 12; 13; 28; 29; 30; 31; 32; 133; 160; 5760;
    8192; 8193; 8194; 8195; 8196; 8197; 8198; 8199; 8200; 8201; 8202;
    8232; 8233; 8239; 8287; 12288 ]%N.

Definition is_space (ch : string) : bool := existsb (N.eqb (ord ch)) whitespace.

Fixpoint lstrip_chars (l : list string) : list string :=
  match l with
  | [] => []
  | c :: l' => if is_space c then lstrip_chars l' else l
  end.

Definition rstrip_chars (l : list string) : list string :=
  rev (lstrip_chars (rev l)).

Definition lstrip (s : string) : string := of_chars (lstrip_chars (chars s)).

Definition rstrip (s : string) : string := of_chars (rstrip_chars (chars s)).

Definition strip (s : string) : string :=
  of_chars (rstrip_chars (lstrip_chars (chars s))).

(** [s.isspace()]: false on the empty string. *)
Definition isspace (s : string) : bool :=
  match chars s with
  | [] => false
  | l => forallb is_space l
  end.

(** [len(s)] *)
Definition len (s : string) : nat := length (chars s).

(** [s[n:]] for a non-negative [n]. *)
Definition drop (n : nat) (s : string) : string := of_chars (list.drop n (chars s)).

(** [s[n]] for a non-negative [n]; [None] stands for IndexError. *)
Definition index (s : string) (n : nat) : option string := chars s !! n.

(** [s[-1]]; [None] stands for IndexError. *)
Definition last (s : string) : option string := list.last (chars s).

(** [s.startswith(p)], which is also [s.find(p) == 0]. *)
Definition startswith (s p : string) : bool := String.prefix p s.

(** [p in s] for strings: substring test. *)
Fixpoint contains (s p : string) : bool :=
  String.prefix p s ||
  match s with
  | EmptyString => false
  | String _ s' => contains s' p
  end.

(** [s.split(sep)] for a separator of one ASCII character. *)
Fixpoint split_go (sep : ascii) (cur : string) (s : string) : list string :=
  match s with
  | EmptyString => [String.rev cur]
  | String c s' =>
      if Ascii.eqb c sep then String.rev cur :: split_go sep EmptyString s'
      else split_go sep (String c cur) s'
  end.
Definition split (s : string) (sep : ascii) : list string :=
  split_go sep EmptyString s.

(** [s.lower()], as far as the comparison with an ASCII constant without
    the letter k needs it: the ASCII capitals are the only characters
    whose lowercase is an ASCII letter, the Kelvin sign apart. *)
Definition lower_char (c : ascii) : ascii :=
  let n := nat_of_ascii c in
  if (Nat.leb 65 n && Nat.leb n 90)%bool then ascii_of_nat (n + 32) else c.

Fixpoint lower (s : string) : string :=
  match s with
  | EmptyString => EmptyString
  | String c s' => String (lower_char c) (lower s')
  end.

(** [re.sub(' +', ' ', s)]: every run of spaces becomes one space. *)
Fixpoint collapse_spaces (s : string) : string :=
  match s with
  | EmptyString => EmptyString
  | String c s' =>
      if Ascii.eqb c " "
      then match s' with
           | String c' _ =>
               if Ascii.eqb c' " " then collapse_spaces s'
               else String c (collapse_spaces s')
           | EmptyString => String c EmptyString
           end
      else String c (collapse_spaces s')
  end.

Fixpoint join (sep : string) (l : list string) : string :=
  match l with
  | [] => ""
  | [x] => x
  | x :: l' => x +:+ sep +:+ join sep l'
  end.

(** A string that does not begin in the middle of a character. *)
Definition starts_character (s : string) : Prop :=
  match s with
  | String c _ => is_continuation c = false
  | EmptyString => True
  end.


End PyStr.

(** ** Source elements (the lxml tree) *)

Module etree.

(** [el.tag] is a string for an element; for a comment and a processing
    instruction it is the factory function of lxml. *)
Inductive tagval :=
| TagName (s : string)
| TagComment
| TagPI.

Global Instance tagval_eq_dec : EqDecision tagval.
Proof. solve_decision. Defined.

Global Instance tagval_countable : Countable tagval.
Proof.
  refine (inj_countable'
            (fun t => match t with
                      | TagName s => inl s
                      | TagComment => inr true
                      | TagPI => inr false
                      end)
            (fun x => match x with
                      | inl s => TagName s
                      | inr true => TagComment
                      | inr false => TagPI
                      end) _).
  intros []; reflexivity.
Defined.

(** [str(el.tag)] *)
Definition str_tag (t : tagval) : string :=
  match t with
  | TagName s => s
  | TagComment => "<built-in function Comment>"
  | TagPI => "<built-in function ProcessingInstruction>"
  end.

(** An element of the source tree.  [ancestors] is what
    [el.iterancestors()] yields: the tags of the ancestors, nearest
    first. *)
Inductive SourceElement := Element {
  tag : tagval;
  attrib : gmap string string;
  text : option string;
  tail : option string;
  sourceline : Z;
  ancestors : list tagval;
  getchildren : list SourceElement
}.

Definition is_Comment (el : SourceElement) : bool :=
  match tag el with TagComment => true | _ => false end.
Definition is_ProcessingInstruction (el : SourceElement) : bool :=
  match tag el with TagPI => true | _ => false end.

(** [el.get(key)] *)
Definition get (el : SourceElement) (key : string) : option string :=
  attrib el !! key.

Fixpoint height (el : SourceElement) : nat :=
  match el with
  | Element _ _ _ _ _ _ cs => S (foldr (fun c n => Nat.max (height c) n) O cs)
  end.

End etree.

(** ** Output nodes (docutils) *)

Abbreviation loc := nat.

Module nodes.

(** The node classes of [docutils.nodes] the converter instantiates. *)
Inductive klass :=
| Text | document | inline | compound | comment | section | title | rubric
| block_quote | epigraph | sidebar | paragraph | note | caution | important
| tip | warning | literal_block | definition_list | definition_list_item
| term | definition | bullet_list | enumerated_list | list_item | strong
| emphasis | literal | subscript | superscript | footnote_reference
| footnote | reference | math_block.

Global Instance klass_eq_dec : EqDecision klass.
Proof. solve_decision. Defined.

(** Python values stored in node attributes. *)
Inductive pyval :=
| PNone
| PStr (s : string)
| PList (l : list pyval).

Definition truthy (v : pyval) : bool :=
  match v with
  | PNone => false
  | PStr s => negb (String.eqb s "")
  | PList l => match l with [] => false | _ => true end
  end.

Definition of_opt (o : option string) : pyval :=
  match o with Some s => PStr s | None => PNone end.

(** A node object: its class, the string of a [Text] node (and the
    rawsource of a comment), the attribute dictionary, the child list and
    the [parent] field that [append] sets. *)
Record onode := {
  n_klass : klass;
  n_text : string;
  n_attributes : gmap string pyval;
  n_children : list loc;
  n_parent : option loc
}.

(** The classes derived from docutils' [FixedTextElement], whose
    constructor sets [xml:space] to "preserve". *)
Definition fixed_text (k : klass) : bool :=
  match k with
  | comment | literal_block | math_block => true
  | _ => false
  end.

Definition new_node (k : klass) (s : string) : onode :=
  {| n_klass := k; n_text := s;
     n_attributes :=
       if fixed_text k then {["xml:space" := PStr "preserve"]} else ∅;
     n_children := []; n_parent := None |}.

(** [node[key]] with the defaults of docutils' [Element]: the list-valued
    attributes start as empty lists. *)
Definition getitem (n : onode) (key : string) : pyval :=
  default (PList []) (n_attributes n !! key).

Definition setitem (key : string) (v : pyval) (n : onode) : onode :=
  {| n_klass := n_klass n; n_text := n_text n;
     n_attributes := <[key := v]> (n_attributes n);
     n_children := n_children n; n_parent := n_parent n |}.

Definition append (c : loc) (n : onode) : onode :=
  {| n_klass := n_klass n; n_text := n_text n;
     n_attributes := n_attributes n;
     n_children := n_children n ++ [c]; n_parent := n_parent n |}.

Definition set_parent (p : loc) (n : onode) : onode :=
  {| n_klass := n_klass n; n_text := n_text n;
     n_attributes := n_attributes n;
     n_children := n_children n; n_parent := Some p |}.

End nodes.

(** ** Exceptions and results *)

(** [AssertionError] is raised by no code of the converter: it marks the
    failure of an assertion that a property adds to a conversion. *)
Inductive exn :=
  TypeError | IndexError | ValueError | AttributeError | KeyError | AssertionError.

Inductive result (A : Type) :=
| Ok (a : A)
| Raise (e : exn).
Arguments Ok {A} a.
Arguments Raise {A} e.

Global Instance result_ret : MRet result := fun A a => Ok a.
Global Instance result_bind : MBind result :=
  fun A B f r => match r with Ok a => f a | Raise e => Raise e end.

(** ** The document and the converter's fields *)

Inductive level := INFO | WARNING.

(** [self.document]: the node store (the document node itself is at
    location 0), the reporter's messages in emission order, and what
    docutils is asked to note.  The ids docutils synthesizes in [set_id]
    are the library's business; the request is recorded. *)
Record Document := {
  heap : list nodes.onode;
  reporter : list (level * string * Z);
  autofootnote_refs : list loc;
  autofootnotes : list loc;
  id_requests : list loc
}.

Definition document_loc : loc := 0%nat.

(** The two title handlers the converter installs: the closure of
    [_section] and the static method [rubric]. *)
Inductive title_handler := section_title_handler | rubric_handler.

(** The three anonymous functions assigned to the text-mangling fields:
    [lambda s: s[1:].lstrip()] and [lambda x: re.sub(' +', ' ', x)]. *)
Inductive mangle_fn := strip_bullet | collapse_spaces.

Definition apply_mangle (f : mangle_fn) (s : string) : string :=
  match f with
  | strip_bullet => PyStr.lstrip (PyStr.drop 1 s)
  | collapse_spaces => PyStr.collapse_spaces s
  end.

Record Converter := {
  the_document : Document;
  _not_handled_ns : gset string;
  _not_handled_tags : gset etree.tagval;
  _save : list loc;
  _stack : list string;
  _anchors : list nodes.pyval;
  _title_handler : option title_handler;
  _listitem_mangle_fn : option mangle_fn;
  _text_mangle_fn : option mangle_fn;
  _ordered_list_depth : Z;
  current_level : Z;
  _ns : string;
  _id_attrib : string
}.

(** Field assignments. *)

Definition set_heap (v : list nodes.onode) (d : Document) : Document :=
  {| heap := v; reporter := reporter d; autofootnote_refs := autofootnote_refs d; autofootnotes := autofootnotes d; id_requests := id_requests d |}.

Definition set_reporter (v : list (level * string * Z)) (d : Document) : Document :=
  {| heap := heap d; reporter := v; autofootnote_refs := autofootnote_refs d; autofootnotes := autofootnotes d; id_requests := id_requests d |}.

Definition set_autofootnote_refs (v : list loc) (d : Document) : Document :=
  {| heap := heap d; reporter := reporter d; autofootnote_refs := v; autofootnotes := autofootnotes d; id_requests := id_requests d |}.

Definition set_autofootnotes (v : list loc) (d : Document) : Document :=
  {| heap := heap d; reporter := reporter d; autofootnote_refs := autofootnote_refs d; autofootnotes := v; id_requests := id_requests d |}.

Definition set_id_requests (v : list loc) (d : Document) : Document :=
  {| heap := heap d; reporter := reporter d; autofootnote_refs := autofootnote_refs d; autofootnotes := autofootnotes d; id_requests := v |}.

Definition set_the_document (v : Document) (c : Converter) : Converter :=
  {| the_document := v;
     _not_handled_ns := _not_handled_ns c;
     _not_handled_tags := _not_handled_tags c;
     _save := _save c;
     _stack := _stack c;
     _anchors := _anchors c;
     _title_handler := _title_handler c;
     _listitem_mangle_fn := _listitem_mangle_fn c;
     _text_mangle_fn := _text_mangle_fn c;
     _ordered_list_depth := _ordered_list_depth c;
     current_level := current_level c;
     _ns := _ns c;
     _id_attrib := _id_attrib c |}.

Definition set_not_handled_tags (v : gset etree.tagval) (c : Converter) : Converter :=
  {| the_document := the_document c;
     _not_handled_ns := _not_handled_ns c;
     _not_handled_tags := v;
     _save := _save c;
     _stack := _stack c;
     _anchors := _anchors c;
     _title_handler := _title_handler c;
     _listitem_mangle_fn := _listitem_mangle_fn c;
     _text_mangle_fn := _text_mangle_fn c;
     _ordered_list_depth := _ordered_list_depth c;
     current_level := current_level c;
     _ns := _ns c;
     _id_attrib := _id_attrib c |}.

Definition set_save (v : list loc) (c : Converter) : Converter :=
  {| the_document := the_document c;
     _not_handled_ns := _not_handled_ns c;
     _not_handled_tags := _not_handled_tags c;
     _save := v;
     _stack := _stack c;
     _anchors := _anchors c;
     _title_handler := _title_handler c;
     _listitem_mangle_fn := _listitem_mangle_fn c;
     _text_mangle_fn := _text_mangle_fn c;
     _ordered_list_depth := _ordered_list_depth c;
     current_level := current_level c;
     _ns := _ns c;
     _id_attrib := _id_attrib c |}.

Definition set_stack (v : list string) (c : Converter) : Converter :=
  {| the_document := the_document c;
     _not_handled_ns := _not_handled_ns c;
     _not_handled_tags := _not_handled_tags c;
     _save := _save c;
     _stack := v;
     _anchors := _anchors c;
     _title_handler := _title_handler c;
     _listitem_mangle_fn := _listitem_mangle_fn c;
     _text_mangle_fn := _text_mangle_fn c;
     _ordered_list_depth := _ordered_list_depth c;
     current_level := current_level c;
     _ns := _ns c;
     _id_attrib := _id_attrib c |}.

Definition set_anchors (v : list nodes.pyval) (c : Converter) : Converter :=
  {| the_document := the_document c;
     _not_handled_ns := _not_handled_ns c;
     _not_handled_tags := _not_handled_tags c;
     _save := _save c;
     _stack := _stack c;
     _anchors := v;
     _title_handler := _title_handler c;
     _listitem_mangle_fn := _listitem_mangle_fn c;
     _text_mangle_fn := _text_mangle_fn c;
     _ordered_list_depth := _ordered_list_depth c;
     current_level := current_level c;
     _ns := _ns c;
     _id_attrib := _id_attrib c |}.

Definition set_title_handler (v : option title_handler) (c : Converter) : Converter :=
  {| the_document := the_document c;
     _not_handled_ns := _not_handled_ns c;
     _not_handled_tags := _not_handled_tags c;
     _save := _save c;
     _stack := _stack c;
     _anchors := _anchors c;
     _title_handler := v;
     _listitem_mangle_fn := _listitem_mangle_fn c;
     _text_mangle_fn := _text_mangle_fn c;
     _ordered_list_depth := _ordered_list_depth c;
     current_level := current_level c;
     _ns := _ns c;
     _id_attrib := _id_attrib c |}.

Definition set_listitem_mangle_fn (v : option mangle_fn) (c : Converter) : Converter :=
  {| the_document := the_document c;
     _not_handled_ns := _not_handled_ns c;
     _not_handled_tags := _not_handled_tags c;
     _save := _save c;
     _stack := _stack c;
     _anchors := _anchors c;
     _title_handler := _title_handler c;
     _listitem_mangle_fn := v;
     _text_mangle_fn := _text_mangle_fn c;
     _ordered_list_depth := _ordered_list_depth c;
     current_level := current_level c;
     _ns := _ns c;
     _id_attrib := _id_attrib c |}.

Definition set_text_mangle_fn (v : option mangle_fn) (c : Converter) : Converter :=
  {| the_document := the_document c;
     _not_handled_ns := _not_handled_ns c;
     _not_handled_tags := _not_handled_tags c;
     _save := _save c;
     _stack := _stack c;
     _anchors := _anchors c;
     _title_handler := _title_handler c;
     _listitem_mangle_fn := _listitem_mangle_fn c;
     _text_mangle_fn := v;
     _ordered_list_depth := _ordered_list_depth c;
     current_level := current_level c;
     _ns := _ns c;
     _id_attrib := _id_attrib c |}.

Definition set_ordered_list_depth (v : Z) (c : Converter) : Converter :=
  {| the_document := the_document c;
     _not_handled_ns := _not_handled_ns c;
     _not_handled_tags := _not_handled_tags c;
     _save := _save c;
     _stack := _stack c;
     _anchors := _anchors c;
     _title_handler := _title_handler c;
     _listitem_mangle_fn := _listitem_mangle_fn c;
     _text_mangle_fn := _text_mangle_fn c;
     _ordered_list_depth := v;
     current_level := current_level c;
     _ns := _ns c;
     _id_attrib := _id_attrib c |}.

Definition set_current_level (v : Z) (c : Converter) : Converter :=
  {| the_document := the_document c;
     _not_handled_ns := _not_handled_ns c;
     _not_handled_tags := _not_handled_tags c;
     _save := _save c;
     _stack := _stack c;
     _anchors := _anchors c;
     _title_handler := _title_handler c;
     _listitem_mangle_fn := _listitem_mangle_fn c;
     _text_mangle_fn := _text_mangle_fn c;
     _ordered_list_depth := _ordered_list_depth c;
     current_level := v;
     _ns := _ns c;
     _id_attrib := _id_attrib c |}.

(** ** The conversion monad: converter state plus Python exceptions *)

Definition M (A : Type) : Type := Converter → result (A * Converter).

Definition ret {A} (a : A) : M A := fun st => Ok (a, st).

Global Instance M_bind : MBind M := fun A B f m st =>
  match m st with
  | Ok (a, st') => f a st'
  | Raise e => Raise e
  end.

Definition raise {A} (e : exn) : M A := fun _ => Raise e.
Definition gets {A} (f : Converter → A) : M A := fun st => Ok (f st, st).
Definition modify (f : Converter → Converter) : M unit := fun st => Ok (tt, f st).
Definition lift {A} (r : result A) : M A := fun st =>
  match r with
  | Ok a => Ok (a, st)
  | Raise e => Raise e
  end.

Definition modify_doc (f : Document → Document) : M unit :=
  modify (fun c => set_the_document (f (the_document c)) c).

(** Instantiating a node class: the new object gets the next location. *)
Definition alloc (n : nodes.onode) : M loc := fun st =>
  let h := heap (the_document st) in
  Ok (length h, set_the_document (set_heap (h ++ [n]) (the_document st)) st).

(** In-place change of the object at a location. *)
Definition update (l : loc) (f : nodes.onode → nodes.onode) : M unit :=
  modify_doc (fun d => set_heap (alter f l (heap d)) d).

(** [node[key] = v] *)
Definition setitem (l : loc) (key : string) (v : nodes.pyval) : M unit :=
  update l (nodes.setitem key v).

(** [parent += node]: docutils' [append] sets the child's [parent] and
    appends the reference to the child list; an earlier parent keeps its
    reference. *)
Definition iadd (parent child : loc) : M unit :=
  update child (nodes.set_parent parent);;
  update parent (nodes.append child).

(** [node['ids'].append(v)] *)
Definition ids_append (v : nodes.pyval) (n : nodes.onode) : nodes.onode :=
  match nodes.getitem n "ids" with
  | nodes.PList l => nodes.setitem "ids" (nodes.PList (l ++ [v])) n
  | _ => n
  end.

(** [for x in l: body(x)] *)
Section for_each.
Context {A : Type} (body : A → M unit).
Fixpoint for_each (l : list A) : M unit :=
  match l with
  | [] => ret tt
  | x :: l' => body x;; for_each l'
  end.
End for_each.

(** [el.find(tag)] and [el.findall(tag)] on the children. *)
Definition has_tag (t : string) (el : etree.SourceElement) : bool :=
  bool_decide (etree.tag el = etree.TagName t).

Definition find (el : etree.SourceElement) (t : string) : option etree.SourceElement :=
  List.find (has_tag t) (etree.getchildren el).

Definition findall (el : etree.SourceElement) (t : string) : list etree.SourceElement :=
  List.filter (has_tag t) (etree.getchildren el).

(** [x = el.find(tag)] followed by a use of [x]: [k] on the first child
    with that tag, [d] when there is none. *)
Section with_find.
Context {A : Type} (t : string) (k : etree.SourceElement → A) (d : A).
Fixpoint with_find_in (cs : list etree.SourceElement) : A :=
  match cs with
  | [] => d
  | c :: cs' => if has_tag t c then k c else with_find_in cs'
  end.
Definition with_find (el : etree.SourceElement) : A :=
  with_find_in (etree.getchildren el).
End with_find.

(** [no_markup_text]: the text of an element without its markup.  The
    [ids] list is extended in place: [ids += xml_id] with a string on the
    right adds its characters one by one. *)
Fixpoint no_markup_text (id_attrib : string) (el : etree.SourceElement)
    (ids : list nodes.pyval) (need_space : bool) {struct el}
    : result (string * bool * list nodes.pyval) :=
  let ids :=
    match etree.get el id_attrib with
    | Some xml_id => ids ++ (nodes.PStr <$> PyStr.chars xml_id)
    | None => ids
    end in
  let loop :=
    fix loop (cs : list etree.SourceElement) (text : string) (need_space : bool)
        (ids : list nodes.pyval) : result (string * bool * list nodes.pyval) :=
      match cs with
      | [] => Ok (text, need_space, ids)
      | i :: cs' =>
          match no_markup_text id_attrib i ids need_space with
          | Raise e => Raise e
          | Ok (child_text, need_space, ids) =>
              let text := text +:+ child_text in
              match etree.tail i with
              | Some tl =>
                  let tl := if need_space then tl else PyStr.lstrip tl in
                  match PyStr.last tl with
                  | Some c => loop cs' (text +:+ tl) (negb (PyStr.is_space c)) ids
                  | None => loop cs' text need_space ids
                  end
              | None => loop cs' text need_space ids
              end
          end
      end in
  match etree.text el with
  | Some t =>
      match PyStr.last t with
      | Some c => loop (etree.getchildren el) t (negb (PyStr.is_space c)) ids
      | None => Raise IndexError
      end
  | None => loop (etree.getchildren el) "" need_space ids
  end.

(** ** [class DocbookConverter] *)

Module DocbookConverter.

(** The class attribute [_NSMAP = {}]. *)
Definition _NSMAP : gmap string string := ∅.

(** [__init__(self, parser, document, ns)] on a fresh document. *)
Definition init (ns : bool) : Converter :=
  {| the_document :=
       {| heap := [nodes.new_node nodes.document ""]; reporter := [];
          autofootnote_refs := []; autofootnotes := []; id_requests := [] |};
     _not_handled_ns := ∅;
     _not_handled_tags := ∅;
     _save := [];
     _stack := [];
     _anchors := [];
     _title_handler := None;
     _listitem_mangle_fn := None;
     _text_mangle_fn := None;
     _ordered_list_depth := 0;
     current_level := 0;
     _ns := if ns then "{http://docbook.org/ns/docbook}" else "";
     _id_attrib :=
       if ns then "{http://www.w3.org/XML/1998/namespace}id" else "id" |}.

Definition report (lv : level) (el : etree.SourceElement) (s : string) : M unit :=
  modify_doc (fun d => set_reporter (reporter d ++ [(lv, s, etree.sourceline el)]) d).

Definition info := report INFO.
Definition warning := report WARNING.

(** [document.set_id], [note_autofootnote_ref], [note_autofootnote] *)
Definition set_id (n : loc) : M unit :=
  modify_doc (fun d => set_id_requests (id_requests d ++ [n]) d).
Definition note_autofootnote_ref (n : loc) : M unit :=
  set_id n;;
  modify_doc (fun d => set_autofootnote_refs (autofootnote_refs d ++ [n]) d).
Definition note_autofootnote (n : loc) : M unit :=
  set_id n;;
  modify_doc (fun d => set_autofootnotes (autofootnotes d ++ [n]) d).

(** The second argument of [supports_only]: most callers pass a
    parenthesized string, where [in] is a substring test and a
    non-string left operand is a TypeError; some pass a tuple. *)
Inductive tags_arg :=
| TagsStr (s : string)
| TagsTuple (l : list string).

Definition skipped_message (el i : etree.SourceElement) : string :=
  etree.str_tag (etree.tag el) +:+ "/" +:+ etree.str_tag (etree.tag i) +:+ " skipped.".

Definition supports_only (el : etree.SourceElement) (tags : tags_arg) : M unit :=
  for_each
    (fun i =>
       match tags with
       | TagsTuple l =>
           if bool_decide (etree.tag i ∈ etree.TagName <$> l) then ret tt
           else warning el (skipped_message el i)
       | TagsStr s =>
           match etree.tag i with
           | etree.TagName t =>
               if PyStr.contains s t then ret tt
               else warning el (skipped_message el i)
           | _ => raise TypeError
           end
       end)
    (etree.getchildren el).

(** [what]: for a processing instruction [str(el)] is the instruction
    as written, whose content the [text] field holds. *)
Definition what (el : etree.SourceElement) : string :=
  match etree.tag el with
  | etree.TagName t => "<" +:+ t +:+ ">"
  | etree.TagComment => "Comment"
  | etree.TagPI => "<?" +:+ default "" (etree.text el) +:+ "?>"
  end.

Definition get_path (el : etree.SourceElement) : string :=
  PyStr.join "/" (etree.str_tag <$> reverse (etree.tag el :: etree.ancestors el)).

Definition has_only_text (el : etree.SourceElement) (parent : loc) : M unit :=
  match etree.getchildren el with
  | [] => ret tt
  | cs =>
      warning el ("children of " +:+ get_path el +:+ " are skipped: "
                  +:+ PyStr.join ", " (what <$> cs))
  end.

Definition create_node (parent : loc) (k : nodes.klass)
    (xml_id : nodes.pyval) (ids : option (list nodes.pyval)) : M loc :=
  node ← alloc (nodes.new_node k "");
  (if nodes.truthy xml_id then setitem node "ids" (nodes.PList [xml_id]) else ret tt);;
  match ids with
  | Some (x :: l) => setitem node "ids" (nodes.PList (x :: l))
  | _ => ret tt
  end;;
  anchors ← gets _anchors;
  match anchors with
  | [] => ret tt
  | _ => update node (ids_append (nodes.PList anchors));; modify (set_anchors [])
  end;;
  ret node.

Definition node (parent : loc) (k : option nodes.klass) (default_klass : nodes.klass)
    (xml_id : nodes.pyval) (ids : option (list nodes.pyval)) : M loc :=
  match xml_id, k with
  | nodes.PNone, None => ret parent
  | _, _ =>
      n ← create_node parent (default default_klass k) xml_id ids;
      iadd parent n;;
      ret n
  end.

(** [el.get(self._id_attrib) or None] *)
Definition id_or_None (o : option string) : nodes.pyval :=
  match o with
  | Some s => if String.eqb s "" then nodes.PNone else nodes.PStr s
  | None => nodes.PNone
  end.

Definition create (el : etree.SourceElement) (parent : loc)
    (k : option nodes.klass) (default_klass : nodes.klass) : M loc :=
  id_attrib ← gets _id_attrib;
  node parent k default_klass (id_or_None (etree.get el id_attrib)) None.

(** [text]: the one-shot text transform is applied and cleared. *)
Definition text (s : string) : M loc :=
  fn ← gets _text_mangle_fn;
  match fn with
  | Some f => modify (set_text_mangle_fn None);; alloc (nodes.new_node nodes.Text (apply_mangle f s))
  | None => alloc (nodes.new_node nodes.Text s)
  end.

(** [nodes.Text(s)] written directly, without [self.text]. *)
Definition Text (s : string) : M loc := alloc (nodes.new_node nodes.Text s).

(** [parent += self.text(s)] *)
Definition add_text (parent : loc) (s : string) : M unit :=
  t ← text s; iadd parent t.

(** [nodes.comment(s, s)]: a comment element with its text child. *)
Definition new_comment (s : string) : M loc :=
  c ← alloc (nodes.new_node nodes.comment s);
  (if String.eqb s "" then ret tt else t ← Text s; iadd c t);;
  ret c.

Definition comment (el : etree.SourceElement) (parent : loc) : M loc :=
  n ← new_comment (default "" (etree.text el));
  iadd parent n;;
  ret n.

Definition inline_text (s : string) (parent : loc) (inline_class : option string)
    (xml_id : nodes.pyval) (ids : option (list nodes.pyval)) : M loc :=
  n ← node parent (Some nodes.inline) nodes.inline xml_id ids;
  match inline_class with
  | Some c => setitem n "classes" (nodes.PList [nodes.PStr c])
  | None => ret tt
  end;;
  add_text n s;;
  ret n.

Definition no_markup (el : etree.SourceElement) (parent : loc) (k : nodes.klass) : M loc :=
  id_attrib ← gets _id_attrib;
  r ← lift (no_markup_text id_attrib el [] false);
  n ← node parent (Some k) nodes.inline nodes.PNone (Some r.2);
  add_text n r.1.1;;
  ret n.

(** [self._stack[-2]] *)
Definition stack_second_last : M string :=
  st ← gets _stack;
  match reverse st with
  | _ :: x :: _ => ret x
  | _ => raise IndexError
  end.

Definition _GENERIC_DOCROLES (c : string) : option nodes.klass :=
  if String.eqb c "dfn" then Some nodes.emphasis
  else if String.eqb c "kbd" then Some nodes.literal
  else None.

Definition emit (parent : loc) (pending : option string) : M unit :=
  match pending with
  | Some s => if (0 <? PyStr.len s)%nat then add_text parent s else ret tt
  | None => ret tt
  end.

Section handlers.

(** The recursive call [self._conv(i, parent)]. *)
Variable conv : etree.SourceElement → option loc → M unit.

(** The loop of [concat_into]; the result is the text still pending
    when the children are exhausted. *)
Fixpoint concat_children (parent : loc) (cs : list etree.SourceElement)
    (pending : option string) : M (option string) :=
  match cs with
  | [] => ret pending
  | i :: cs' =>
      emit parent pending;;
      conv i (Some parent);;
      concat_children parent cs' (etree.tail i)
  end.

Definition concat_into (el : etree.SourceElement) (parent : loc)
    (need_space : bool) : M unit :=
  let pending :=
    match etree.text el with
    | Some t => Some (if need_space then t else PyStr.lstrip t)
    | None => None
    end in
  pending ← concat_children parent (etree.getchildren el) pending;
  match pending with
  | Some s => emit parent (Some (if need_space then s else PyStr.rstrip s))
  | None => ret tt
  end.

Definition concat (el : etree.SourceElement) (parent : loc)
    (k : option nodes.klass) (default_klass : nodes.klass)
    (need_space : bool) : M loc :=
  n ← create el parent k default_klass;
  concat_into el n need_space;;
  ret n.

Definition block (el : etree.SourceElement) (parent : loc)
    (k : option nodes.klass) : M loc :=
  n ← concat el parent k nodes.compound false;
  save ← gets _save;
  match save with
  | [] => ret n
  | _ =>
      for_each (fun i => iadd parent i) save;;
      modify (set_save []);;
      ret n
  end.

Definition inline (el : etree.SourceElement) (parent : loc)
    (inline_class : string) (need_space : bool) : M loc :=
  match _GENERIC_DOCROLES inline_class with
  | Some k => concat el parent (Some k) nodes.inline need_space
  | None =>
      n ← concat el parent (Some nodes.inline) nodes.inline need_space;
      setitem n "classes" (nodes.PList [nodes.PStr inline_class]);;
      ret n
  end.

Definition nop (el : etree.SourceElement) (parent : loc) : M unit := ret tt.

Definition rubric (el : etree.SourceElement) (parent : loc) : M unit :=
  block el parent (Some nodes.rubric);; ret tt.

(** *** Section elements *)

Definition _section (el : etree.SourceElement) (parent : loc) (lvl : Z) : M unit :=
  save_title_handler ← gets _title_handler;
  modify (set_title_handler (Some section_title_handler));;
  n ← block el parent (Some nodes.section);
  modify (set_title_handler save_title_handler);;
  set_id n;;
  modify (set_current_level lvl).

Definition e_chapter (el : etree.SourceElement) (parent : loc) : M unit :=
  _section el parent 0.
Definition e_sect1 (el : etree.SourceElement) (parent : loc) : M unit :=
  _section el parent 1.
Definition e_sect2 (el : etree.SourceElement) (parent : loc) : M unit :=
  _section el parent 2.
Definition e_sect3 (el : etree.SourceElement) (parent : loc) : M unit :=
  _section el parent 3.
Definition e_section (el : etree.SourceElement) (parent : loc) : M unit :=
  lvl ← gets current_level;
  _section el parent (lvl + 1).

(** The [def e_topic] among the section elements; the class body
    rebinds the name further down, see [e_topic]. *)
Definition e_topic_def (el : etree.SourceElement) (parent : loc) : M unit :=
  lvl ← gets current_level;
  _section el parent lvl.

Definition e_preface := e_chapter.
Definition e_appendix := e_chapter.

Definition e_title (el : etree.SourceElement) (parent : loc) : M unit :=
  h ← gets _title_handler;
  match h with
  | Some section_title_handler => block el parent (Some nodes.title);; ret tt
  | Some rubric_handler => rubric el parent
  | None => ret tt
  end.

(** "top level elements also produce a nodes.section": the later
    assignment [e_topic = e_chapter] is the binding in force. *)
Definition e_book := e_chapter.
Definition e_article := e_chapter.
Definition e_topic := e_chapter.

(** *** Other block elements *)

Definition e_blockquote (el : etree.SourceElement) (parent : loc) : M unit :=
  block el parent (Some nodes.block_quote);; ret tt.
Definition e_epigraph (el : etree.SourceElement) (parent : loc) : M unit :=
  block el parent (Some nodes.epigraph);; ret tt.
Definition e_sidebar (el : etree.SourceElement) (parent : loc) : M unit :=
  save_title_handler ← gets _title_handler;
  modify (set_title_handler (Some rubric_handler));;
  block el parent (Some nodes.sidebar);;
  modify (set_title_handler save_title_handler).

Definition e_para (el : etree.SourceElement) (parent : loc) : M unit :=
  block el parent (Some nodes.paragraph);; ret tt.
Definition e_formalpara (el : etree.SourceElement) (parent : loc) : M unit :=
  save_title_handler ← gets _title_handler;
  modify (set_title_handler (Some rubric_handler));;
  e_para el parent;;
  modify (set_title_handler save_title_handler).
Definition e_simpara := e_para.

Definition e_note (el : etree.SourceElement) (parent : loc) : M unit :=
  block el parent (Some nodes.note);; ret tt.
Definition e_caution (el : etree.SourceElement) (parent : loc) : M unit :=
  block el parent (Some nodes.caution);; ret tt.
Definition e_important (el : etree.SourceElement) (parent : loc) : M unit :=
  block el parent (Some nodes.important);; ret tt.
Definition e_tip (el : etree.SourceElement) (parent : loc) : M unit :=
  block el parent (Some nodes.tip);; ret tt.
Definition e_warning (el : etree.SourceElement) (parent : loc) : M unit :=
  block el parent (Some nodes.warning);; ret tt.

(** A handler bound to [concat] or [block] itself is called with the
    defaults of the remaining parameters. *)
Definition concat_method (el : etree.SourceElement) (parent : loc) : M unit :=
  concat el parent None nodes.inline true;; ret tt.
Definition block_method (el : etree.SourceElement) (parent : loc) : M unit :=
  block el parent None;; ret tt.

Definition e_informalexample := concat_method.

Definition e_literallayout (el : etree.SourceElement) (parent : loc) : M unit :=
  concat el parent (Some nodes.literal_block) nodes.inline true;; ret tt.
Definition e_screen := e_literallayout.
Definition e_programlisting := e_literallayout.

(** *** Lists *)

Definition e_glosslist (el : etree.SourceElement) (parent : loc) : M unit :=
  ns ← gets _ns;
  supports_only el (TagsStr (ns +:+ "glossentry"));;
  block el parent (Some nodes.definition_list);; ret tt.

Definition e_glossentry (el : etree.SourceElement) (parent : loc) : M unit :=
  ns ← gets _ns;
  supports_only el (TagsTuple [ns +:+ "glossterm"; ns +:+ "glossdef"]);;
  block el parent (Some nodes.definition_list_item);; ret tt.

Definition e_glossterm (el : etree.SourceElement) (parent : loc) : M unit :=
  block el parent (Some nodes.term);; ret tt.

Definition e_glossdef (el : etree.SourceElement) (parent : loc) : M unit :=
  block el parent (Some nodes.definition);; ret tt.

(** [el.find(ns + "listitem[1]/" + ns + "para[1]")]: the first [para]
    child of the first [listitem] child. *)
Definition first_item_para (el : etree.SourceElement) (ns : string)
    : option etree.SourceElement :=
  match find el (ns +:+ "listitem") with
  | Some li => find li (ns +:+ "para")
  | None => None
  end.

(** The test [item is not None and item.text[1] == ' '] and the
    bullet it selects.  Subscripting [None] is a TypeError, a text
    shorter than two characters an IndexError. *)
Inductive bullet_choice :=
| Recovered (c : string)
| Generic.

Definition inspect_bullet (item : option etree.SourceElement) : result bullet_choice :=
  match item with
  | None => Ok Generic
  | Some item =>
      match etree.text item with
      | None => Raise TypeError
      | Some t =>
          match PyStr.index t 1 with
          | None => Raise IndexError
          | Some c =>
              if String.eqb c " " then
                match PyStr.index t 0 with
                | Some b => Ok (Recovered b)
                | None => Raise IndexError
                end
              else Ok Generic
          end
      end
  end.

Definition e_itemizedlist (el : etree.SourceElement) (parent : loc) : M unit :=
  ns ← gets _ns;
  supports_only el (TagsStr (ns +:+ "listitem"));;
  choice ← lift (inspect_bullet (first_item_para el ns));
  bullet ← match choice with
           | Recovered c =>
               modify (set_listitem_mangle_fn (Some strip_bullet));;
               ret c
           | Generic => ret "bullet"
           end;
  n ← block el parent (Some nodes.bullet_list);
  setitem n "bullet" (nodes.PStr bullet);;
  modify (set_listitem_mangle_fn None).

Definition e_orderedlist (el : etree.SourceElement) (parent : loc) : M unit :=
  ns ← gets _ns;
  supports_only el (TagsStr (ns +:+ "listitem"));;
  d ← gets _ordered_list_depth;
  modify (set_ordered_list_depth (d + 1));;
  n ← block el parent (Some nodes.enumerated_list);
  d' ← gets _ordered_list_depth;
  setitem n "enumtype" (nodes.PStr (if (d' =? 1)%Z then "arabic" else "loweralpha"));;
  setitem n "prefix" (nodes.PStr "");;
  setitem n "suffix" (nodes.PStr ".");;
  d'' ← gets _ordered_list_depth;
  modify (set_ordered_list_depth (d'' - 1)).

Definition e_listitem (el : etree.SourceElement) (parent : loc) : M unit :=
  save_listitem_mangle_fn ← gets _listitem_mangle_fn;
  modify (set_text_mangle_fn save_listitem_mangle_fn);;
  modify (set_listitem_mangle_fn None);;
  block el parent (Some nodes.list_item);;
  modify (set_listitem_mangle_fn save_listitem_mangle_fn).

Definition e_variablelist (el : etree.SourceElement) (parent : loc) : M unit :=
  ns ← gets _ns;
  supports_only el (TagsStr (ns +:+ "varlistentry"));;
  block el parent (Some nodes.definition_list);; ret tt.

Definition e_varlistentry (el : etree.SourceElement) (parent : loc) : M unit :=
  ns ← gets _ns;
  supports_only el (TagsTuple [ns +:+ "term"; ns +:+ "listitem"]);;
  n ← create el parent (Some nodes.definition_list_item) nodes.inline;
  for_each
    (fun term =>
       if has_tag (ns +:+ "term") term
       then block term n (Some nodes.term);; ret tt
       else ret tt)
    (etree.getchildren el);;
  with_find (ns +:+ "listitem")
    (fun item => block item n (Some nodes.definition);; ret tt)
    (ret tt) el.

(** *** General inline elements *)

Definition e_emphasis (el : etree.SourceElement) (parent : loc) : M unit :=
  if String.eqb (default "" (etree.get el "Role")) "strong"
  then concat el parent (Some nodes.strong) nodes.inline true;; ret tt
  else concat el parent (Some nodes.emphasis) nodes.inline true;; ret tt.

Definition e_phrase (el : etree.SourceElement) (parent : loc) : M unit :=
  concat el parent (Some nodes.emphasis) nodes.inline true;; ret tt.
Definition e_citetitle := e_emphasis.
Definition e_replaceable := e_emphasis.

Definition e_literal (el : etree.SourceElement) (parent : loc) : M unit :=
  concat el parent (Some nodes.literal) nodes.inline true;; ret tt.
Definition e_code := e_literal.

Definition e_keycap (el : etree.SourceElement) (parent : loc) : M unit :=
  has_only_text el parent;;
  inline el parent "kbd" true;; ret tt.

Definition e_application (el : etree.SourceElement) (parent : loc) : M unit :=
  has_only_text el parent;;
  inline el parent "program" true;; ret tt.

Definition e_systemitem := e_literal.
Definition e_prompt := e_literal.

Definition e_filename (el : etree.SourceElement) (parent : loc) : M unit :=
  inline el parent "file" true;; ret tt.
Definition e_command (el : etree.SourceElement) (parent : loc) : M unit :=
  inline el parent "command" true;; ret tt.
Definition e_option (el : etree.SourceElement) (parent : loc) : M unit :=
  inline el parent "option" true;; ret tt.
Definition e_envar (el : etree.SourceElement) (parent : loc) : M unit :=
  inline el parent "env" true;; ret tt.

(** [self.no_markup(el, nodes.inline, parent)] passes the class as
    [parent] and the parent node as [klass]; once the text has been
    collected, [create_node] calls the node object: a TypeError. *)
Definition e_cmdsynopsis (el : etree.SourceElement) (parent : loc) : M unit :=
  c ← new_comment "cmdsynopsis";
  iadd parent c;;
  id_attrib ← gets _id_attrib;
  lift (no_markup_text id_attrib el [] false);;
  raise TypeError.

Definition e_firstterm (el : etree.SourceElement) (parent : loc) : M unit :=
  has_only_text el parent;;
  inline el parent "dfn" true;; ret tt.

(** The later [def e_userinput] replaces [e_userinput = e_literal]. *)
Definition e_userinput (el : etree.SourceElement) (parent : loc) : M unit :=
  inline el parent "kbd" true;; ret tt.

Definition e_subscript (el : etree.SourceElement) (parent : loc) : M unit :=
  concat el parent (Some nodes.subscript) nodes.inline true;; ret tt.
Definition e_superscript (el : etree.SourceElement) (parent : loc) : M unit :=
  concat el parent (Some nodes.superscript) nodes.inline true;; ret tt.

(** The code is Python 2 ([basestring], implicit relative import), where
    ['\u2018'] in a plain string literal is the six characters written,
    not the quotation mark. *)
Definition e_quote (el : etree.SourceElement) (parent : loc) : M unit :=
  t ← Text "\u2018"; iadd parent t;;
  concat el parent None nodes.inline true;;
  t' ← Text "\u2019"; iadd parent t'.

Definition e_footnote (el : etree.SourceElement) (parent : loc) : M unit :=
  ns ← gets _ns;
  supports_only el (TagsTuple [ns +:+ "para"]);;
  n ← node parent (Some nodes.footnote_reference) nodes.inline nodes.PNone None;
  t ← Text "#"; iadd n t;;
  note_autofootnote_ref n;;
  n' ← create el parent (Some nodes.footnote) nodes.inline;
  concat_into el n' false;;
  note_autofootnote n';;
  modify (fun c => set_save (_save c ++ [n']) c).

(** *** Links *)

Definition e_ulink (el : etree.SourceElement) (parent : loc) : M unit :=
  n ← concat el parent (Some nodes.reference) nodes.inline true;
  setitem n "refuri" (nodes.of_opt (etree.get el "url")).

(** [nodes.Text(x)] is [str(x)]: the text of [None] is "None". *)
Definition str_opt (o : option string) : string := default "None" o.

Definition e_xref (el : etree.SourceElement) (parent : loc) : M unit :=
  n ← create el parent (Some nodes.reference) nodes.inline;
  match etree.get el "linkend" with
  | Some linkend =>
      setitem n "refid" (nodes.PStr linkend);;
      t ← Text linkend; iadd n t
  | None =>
      let href := etree.get el "{http://www.w3.org/1999/xlink}href" in
      setitem n "refuri" (nodes.of_opt href);;
      t ← Text (str_opt href); iadd n t
  end.

Definition e_link (el : etree.SourceElement) (parent : loc) : M unit :=
  n ← concat el parent (Some nodes.reference) nodes.inline true;
  match etree.get el "linkend" with
  | Some linkend => setitem n "refid" (nodes.PStr linkend)
  | None =>
      setitem n "refuri" (nodes.of_opt (etree.get el "{http://www.w3.org/1999/xlink}href"))
  end.

(** *** Indices *)

(** [inline_text(text, parent, 'index', ids)] binds the list [ids] to
    the parameter [xml_id], so a non-empty list becomes the single
    element of [node['ids']].  It is the same list object that later
    calls of [no_markup_text] extend: [realias] writes the extended
    list into the nodes that already hold it. *)
Definition realias_node (ids : list nodes.pyval) (n : nodes.onode) : nodes.onode :=
  match nodes.getitem n "ids" with
  | nodes.PList (_ :: rest) => nodes.setitem "ids" (nodes.PList (nodes.PList ids :: rest)) n
  | _ => n
  end.

Definition realias (holders : list loc) (ids : list nodes.pyval) : M unit :=
  for_each (fun n => update n (realias_node ids)) holders.

(** One round of [for term in ('see', 'seealso')].  The state of the
    loop is the [ids] list and the nodes that hold it. *)
Definition index_see (el : etree.SourceElement) (parent : loc) (term pri : string)
    (acc : list nodes.pyval * list loc) : M (list nodes.pyval * list loc) :=
  ns ← gets _ns;
  id_attrib ← gets _id_attrib;
  match find el (ns +:+ term) with
  | None => ret acc
  | Some see_el =>
      r ← lift (no_markup_text id_attrib see_el acc.1 false);
      realias acc.2 r.2;;
      n ← inline_text ("<" +:+ term +:+ ": " +:+ pri +:+ "; " +:+ r.1.1 +:+ ">")
             parent (Some "index") (nodes.PList r.2) None;
      ret (r.2, if nodes.truthy (nodes.PList r.2) then acc.2 ++ [n] else acc.2)
  end.

(** [got] is never set, so the entries of [see] and [seealso] are
    followed by the main entry. *)
Definition e_indexterm (el : etree.SourceElement) (parent : loc) : M unit :=
  ns ← gets _ns;
  id_attrib ← gets _id_attrib;
  supports_only el (TagsTuple [ns +:+ "primary"; ns +:+ "secondary";
                               ns +:+ "see"; ns +:+ "seealso"]);;
  match find el (ns +:+ "primary") with
  | None => warning el "indexterm has no primary element"
  | Some pri_el =>
      r ← lift (no_markup_text id_attrib pri_el [] false);
      let pri := r.1.1 in
      acc ← index_see el parent "see" pri (r.2, []);
      acc ← index_see el parent "seealso" pri acc;
      r' ← match find el (ns +:+ "secondary") with
           | Some sec_el =>
               r' ← lift (no_markup_text id_attrib sec_el acc.1 false);
               realias acc.2 r'.2;;
               ret ("<single: " +:+ pri +:+ "; " +:+ r'.1.1 +:+ ">", r'.2)
           | None => ret (pri, acc.1)
           end;
      let pri :=
        if String.eqb (PyStr.lower (default "" (etree.get el "significance"))) "preferred"
        then "! " +:+ r'.1 else r'.1 in
      inline_text pri parent (Some "index") (nodes.PList r'.2) None;;
      ret tt
  end.

(** *** Math *)

Definition e_inlineequation (el : etree.SourceElement) (parent : loc) : M unit :=
  ns ← gets _ns;
  supports_only el (TagsStr (ns +:+ "mathphrase"));;
  concat el parent None nodes.inline true;; ret tt.

Definition e_equation (el : etree.SourceElement) (parent : loc) : M unit :=
  ns ← gets _ns;
  supports_only el (TagsTuple [ns +:+ "title"; ns +:+ "mathphrase"]);;
  save_title_handler ← gets _title_handler;
  modify (set_title_handler (Some rubric_handler));;
  concat el parent None nodes.inline true;;
  modify (set_title_handler save_title_handler).

Definition e_mathphrase (el : etree.SourceElement) (parent : loc) : M unit :=
  up ← stack_second_last;
  if String.eqb up "inlineequation"
  then inline el parent "math" false;; ret tt
  else block el parent (Some nodes.math_block);; ret tt.

(** *** API documentation tags *)

Definition e_refentry (el : etree.SourceElement) (parent : loc) : M unit :=
  block el parent (Some nodes.section);; ret tt.

Definition e_refsect1 (el : etree.SourceElement) (parent : loc) : M unit :=
  save_title_handler ← gets _title_handler;
  modify (set_title_handler (Some rubric_handler));;
  block el parent None;;
  modify (set_title_handler save_title_handler).

Definition e_refname (el : etree.SourceElement) (parent : loc) : M unit :=
  no_markup el parent nodes.title;; ret tt.

(** The loop over [el.findall(ns + "paramdef")]; [sep] is the
    variable [text] of the source. *)
Fixpoint paramdefs (t : string) (parent : loc) (cs : list etree.SourceElement)
    (sep : string) : M unit :=
  match cs with
  | [] => ret tt
  | paramdef :: cs' =>
      if has_tag t paramdef then
        add_text parent sep;;
        conv paramdef (Some parent);;
        paramdefs t parent cs' ", "
      else paramdefs t parent cs' sep
  end.

(** [self._conv(funcdef, parent)] with [funcdef = None] fails on
    [el.tag]. *)
Definition e_funcprototype (el : etree.SourceElement) (parent : loc) : M unit :=
  ns ← gets _ns;
  supports_only el (TagsTuple [ns +:+ "funcdef"; ns +:+ "paramdef"]);;
  with_find (ns +:+ "funcdef")
    (fun funcdef => conv funcdef (Some parent))
    (raise AttributeError) el;;
  paramdefs (ns +:+ "paramdef") parent (etree.getchildren el) "(";;
  add_text parent ")".

Definition e_funcparams (el : etree.SourceElement) (parent : loc) : M unit :=
  add_text parent "(";;
  modify (set_text_mangle_fn (Some collapse_spaces));;
  concat el parent None nodes.inline true;;
  add_text parent ")".

Definition e_parameter (el : etree.SourceElement) (parent : loc) : M unit :=
  modify (set_text_mangle_fn (Some collapse_spaces));;
  up ← stack_second_last;
  if String.eqb up "paramdef"
  then concat el parent (Some nodes.emphasis) nodes.inline true;; ret tt
  else concat el parent (Some nodes.literal) nodes.inline true;; ret tt.

Definition e_anchor (el : etree.SourceElement) (parent : loc) : M unit :=
  id_attrib ← gets _id_attrib;
  modify (fun c => set_anchors (_anchors c ++ [nodes.of_opt (etree.get el id_attrib)]) c).

(** *** The methods [getattr(self, method_name)] finds

    The bindings in force at the end of the class body: a name
    assigned twice keeps its last value ([e_topic], [e_info],
    [e_userinput]). *)
Definition methods (el : etree.SourceElement) (parent : loc) : list (string * M unit) :=
  [ ("e_anchor", e_anchor el parent);
    ("e_chapter", e_chapter el parent);
    ("e_sect1", e_sect1 el parent);
    ("e_sect2", e_sect2 el parent);
    ("e_sect3", e_sect3 el parent);
    ("e_section", e_section el parent);
    ("e_topic", e_topic el parent);
    ("e_preface", e_preface el parent);
    ("e_appendix", e_appendix el parent);
    ("e_title", e_title el parent);
    ("e_book", e_book el parent);
    ("e_article", e_article el parent);
    ("e_blockquote", e_blockquote el parent);
    ("e_epigraph", e_epigraph el parent);
    ("e_sidebar", e_sidebar el parent);
    ("e_para", e_para el parent);
    ("e_formalpara", e_formalpara el parent);
    ("e_simpara", e_simpara el parent);
    ("e_note", e_note el parent);
    ("e_caution", e_caution el parent);
    ("e_important", e_important el parent);
    ("e_tip", e_tip el parent);
    ("e_warning", e_warning el parent);
    ("e_informalexample", e_informalexample el parent);
    ("e_literallayout", e_literallayout el parent);
    ("e_screen", e_screen el parent);
    ("e_programlisting", e_programlisting el parent);
    ("e_glosslist", e_glosslist el parent);
    ("e_glossentry", e_glossentry el parent);
    ("e_glossterm", e_glossterm el parent);
    ("e_glossdef", e_glossdef el parent);
    ("e_itemizedlist", e_itemizedlist el parent);
    ("e_orderedlist", e_orderedlist el parent);
    ("e_listitem", e_listitem el parent);
    ("e_variablelist", e_variablelist el parent);
    ("e_varlistentry", e_varlistentry el parent);
    ("e_emphasis", e_emphasis el parent);
    ("e_phrase", e_phrase el parent);
    ("e_citetitle", e_citetitle el parent);
    ("e_replaceable", e_replaceable el parent);
    ("e_literal", e_literal el parent);
    ("e_code", e_code el parent);
    ("e_keycap", e_keycap el parent);
    ("e_application", e_application el parent);
    ("e_userinput", e_userinput el parent);
    ("e_systemitem", e_systemitem el parent);
    ("e_prompt", e_prompt el parent);
    ("e_filename", e_filename el parent);
    ("e_command", e_command el parent);
    ("e_option", e_option el parent);
    ("e_envar", e_envar el parent);
    ("e_cmdsynopsis", e_cmdsynopsis el parent);
    ("e_firstterm", e_firstterm el parent);
    ("e_subscript", e_subscript el parent);
    ("e_superscript", e_superscript el parent);
    ("e_quote", e_quote el parent);
    ("e_footnote", e_footnote el parent);
    ("e_ulink", e_ulink el parent);
    ("e_xref", e_xref el parent);
    ("e_link", e_link el parent);
    ("e_index", nop el parent);
    ("e_indexterm", e_indexterm el parent);
    ("e_inlineequation", e_inlineequation el parent);
    ("e_equation", e_equation el parent);
    ("e_mathphrase", e_mathphrase el parent);
    ("e_set", concat_method el parent);
    ("e_volume", concat_method el parent);
    ("e_simplesect", concat_method el parent);
    ("e_info", nop el parent);
    ("e_refentry", e_refentry el parent);
    ("e_refsect1", e_refsect1 el parent);
    ("e_refentryinfo", nop el parent);
    ("e_refmeta", nop el parent);
    ("e_refnamediv", e_refsect1 el parent);
    ("e_refsynopsisdiv", e_refsect1 el parent);
    ("e_refname", e_refname el parent);
    ("e_refpurpose", block_method el parent);
    ("e_funcprototype", e_funcprototype el parent);
    ("e_funcparams", e_funcparams el parent);
    ("e_parameter", e_parameter el parent);
    ("e_funcsynopsis", block_method el parent);
    ("e_funcdef", concat_method el parent);
    ("e_paramdef", concat_method el parent);
    ("e_manvolnum", e_funcparams el parent);
    ("e_function", e_literal el parent);
    ("e_constant", e_literal el parent);
    ("e_varname", e_literal el parent);
    ("e_structname", e_literal el parent);
    ("e_structfield", e_literal el parent);
    ("e_type", e_literal el parent) ].

(** [getattr(self, method_name)(el, parent)] when
    [hasattr(self, method_name)]. *)
Definition method (method_name : string) (el : etree.SourceElement) (parent : loc)
    : option (M unit) :=
  snd <$> List.find (fun p => String.eqb p.1 method_name) (methods el parent).

(** The namespace branch of [_conv]: the tag pushed on the stack and
    the method name. *)
Definition resolve (el : etree.SourceElement) : M (string * option string) :=
  ns ← gets _ns;
  let tag := etree.str_tag (etree.tag el) in
  if PyStr.startswith tag ns then
    let tag := PyStr.drop (PyStr.len ns) tag in
    ret (tag, Some ("e_" +:+ tag))
  else if PyStr.startswith tag "{" then
    match PyStr.split (PyStr.drop 1 tag) "}" with
    | [ns'; rawTag] =>
        match _NSMAP !! ns' with
        | None =>
            seen ← gets _not_handled_ns;
            (if bool_decide (ns' ∈ seen) then ret tt
             else warning el ("Don't know how to handle namespace " +:+ ns'));;
            modify (fun c => set_not_handled_tags ({[etree.tag el]} ∪ _not_handled_tags c) c);;
            ret (tag, None)
        | Some prefix => ret (tag, Some ("e_" +:+ prefix +:+ "_" +:+ rawTag))
        end
    | _ => raise ValueError
    end
  else ret (tag, None).

(** The fallback of [_conv]: a diagnostic once per tag, then
    [self.concat(el, parent)]. *)
Definition warn_unhandled (el : etree.SourceElement) : M unit :=
  seen ← gets _not_handled_tags;
  if bool_decide (etree.tag el ∈ seen) then ret tt
  else
    warning el ("Don't know how to handle <" +:+ etree.str_tag (etree.tag el) +:+ ">");;
    modify (fun c => set_not_handled_tags ({[etree.tag el]} ∪ _not_handled_tags c) c).

Definition unhandled (el : etree.SourceElement) (parent : loc) : M unit :=
  warn_unhandled el;;
  concat el parent None nodes.inline true;;
  ret tt.

(** The body of [_conv], with the recursive calls through [conv]. *)
Definition _conv_body (el : etree.SourceElement) (parent : option loc) : M unit :=
  let parent := default document_loc parent in
  if etree.is_ProcessingInstruction el then
    info el "ignoring ProcessingInstruction for now"
  else
    nonblank ← (if etree.is_Comment el then
                  match etree.text el with
                  | Some t => ret (negb (String.eqb (PyStr.strip t) ""))
                  | None => raise AttributeError
                  end
                else ret false);
    if (nonblank : bool) then comment el parent;; ret tt
    else
      r ← resolve el;
      modify (fun c => set_stack (_stack c ++ [r.1]) c);;
      match r.2 ≫= (fun name => method name el parent) with
      | Some m => m
      | None => unhandled el parent
      end;;
      modify (fun c => set_stack (removelast (_stack c)) c).

End handlers.

Fixpoint _conv (el : etree.SourceElement) (parent : option loc) {struct el} : M unit :=
  _conv_body _conv el parent.

Definition convert_root (el : etree.SourceElement) : M unit :=
  _conv el (Some document_loc).

End DocbookConverter.

(** ** [class DocbookAssemblyInfo] (ext.py) *)

Module DocbookAssemblyInfo.

(** [children] is a [defaultdict(list)] from a document name to its
    [(description, child)] entries, [assemblies] maps a document to its
    top resource, [roots] is a set of document names. *)
Record t := {
  children : gmap string (list (string * string));
  assemblies : gmap string string;
  roots : gset string
}.

Definition init : t := {| children := ∅; assemblies := ∅; roots := ∅ |}.

Definition add_child (self : t) (parent child description : string) : t :=
  {| children :=
       <[parent := default [] (children self !! parent) ++ [(description, child)]]>
         (children self);
     assemblies := assemblies self;
     roots := roots self |}.

(** The registration [include_resource] makes at depth 1:
    [assemblies[parent_docname] = docname; roots.add(docname)]. *)
Definition include_resource_top (self : t) (parent_docname docname : string) : t :=
  {| children := children self;
     assemblies := <[parent_docname := docname]> (assemblies self);
     roots := {[docname]} ∪ roots self |}.

(** [purge(self, env, docname)]; [set.remove] of an absent element is
    a KeyError. *)
Definition purge (self : t) (docname : string) : result t :=
  r ← match assemblies self !! docname with
      | Some top =>
          if bool_decide (top ∈ roots self)
          then Ok (roots self ∖ {[top]}, delete docname (assemblies self))
          else Raise KeyError
      | None => Ok (roots self, assemblies self)
      end;
  Ok {| children :=
          (fun l => List.filter (fun x => negb (String.eqb x.2 docname)) l)
            <$> children self;
        assemblies := r.2;
        roots := r.1 |}.

End DocbookAssemblyInfo.

(** * Reading the outcome of a conversion *)

Import DocbookConverter.

Definition the_heap (st : Converter) : list nodes.onode := heap (the_document st).

Definition children_of (st : Converter) (l : loc) : list loc :=
  from_option nodes.n_children [] (the_heap st !! l).

Definition klass_of (st : Converter) (l : loc) : option nodes.klass :=
  nodes.n_klass <$> the_heap st !! l.

Definition text_of (st : Converter) (l : loc) : option string :=
  nodes.n_text <$> the_heap st !! l.

Definition attr_of (st : Converter) (l : loc) (key : string) : option nodes.pyval :=
  the_heap st !! l ≫= fun n => nodes.n_attributes n !! key.

Definition messages (st : Converter) : list (level * string * Z) :=
  reporter (the_document st).

(** A node occurs at the position [(p, i)] when it is the [i]-th child of
    the node at [p]; it is aliased when it occurs at two positions. *)
Definition occurs_at (st : Converter) (n : loc) (pos : loc * nat) : Prop :=
  children_of st pos.1 !! pos.2 = Some n.

Definition aliased (st : Converter) (n : loc) : Prop :=
  ∃ p q, p ≠ q ∧ occurs_at st n p ∧ occurs_at st n q.

(** The namespace-level diagnostics emitted for a namespace. *)
Definition namespace_diagnostics (ns : string) (st : Converter) : list (level * string * Z) :=
  List.filter
    (fun m => String.eqb m.1.2 ("Don't know how to handle namespace " +:+ ns))
    (messages st).

(** The state with more messages in the reporter. *)
Definition add_messages (ms : list (level * string * Z)) (st : Converter) : Converter :=
  set_the_document (set_reporter (reporter (the_document st) ++ ms) (the_document st)) st.

(** The warnings of [supports_only] with a tuple of tags. *)
Definition skipped_warnings (el : etree.SourceElement) (l : list string)
    : list (level * string * Z) :=
  (fun i => (WARNING, skipped_message el i, etree.sourceline el)) <$>
    List.filter (fun i => negb (bool_decide (etree.tag i ∈ etree.TagName <$> l)))
      (etree.getchildren el).

(** [self._stack.append(t)] and [self._stack.pop()] as state changes. *)
Definition push (t : string) (st : Converter) : Converter :=
  set_stack (_stack st ++ [t]) st.
Definition pop (st : Converter) : Converter :=
  set_stack (removelast (_stack st)) st.

(** The string [self.text] makes of [s] in a state: the pending one-shot
    transform applied, if there is one. *)
Definition mangled (st : Converter) (s : string) : string :=
  match _text_mangle_fn st with
  | Some f => apply_mangle f s
  | None => s
  end.

(** Node objects as they are right after their creation. *)
Definition new_element (K : nodes.klass) (attrs : gmap string nodes.pyval)
    (cs : list loc) (parent : loc) : nodes.onode :=
  {| nodes.n_klass := K; nodes.n_text := ""; nodes.n_attributes := attrs;
     nodes.n_children := cs; nodes.n_parent := Some parent |}.

Definition new_text (s : string) (parent : loc) : nodes.onode :=
  {| nodes.n_klass := nodes.Text; nodes.n_text := s; nodes.n_attributes := ∅;
     nodes.n_children := []; nodes.n_parent := Some parent |}.

(** Text that [concat_into] drops in block context: none, or white space
    only. *)
Definition blank (o : option string) : Prop :=
  match o with
  | None => True
  | Some s => PyStr.lstrip s = ""
  end.


(** ** What a conversion never undoes *)

(** A later version of a node object: same class, same text, the children
    it had still in front. *)
Definition node_le (n n' : nodes.onode) : Prop :=
  nodes.n_klass n' = nodes.n_klass n ∧
  nodes.n_text n' = nodes.n_text n ∧
  nodes.n_children n `prefix_of` nodes.n_children n'.

Definition heap_le (h h' : list nodes.onode) : Prop :=
  ∀ l n, h !! l = Some n → ∃ n', h' !! l = Some n' ∧ node_le n n'.

Definition node_mono (f : nodes.onode → nodes.onode) : Prop := ∀ n, node_le n (f n).

(** The invariant carried through a conversion started in [st0]: the
    store only grows, the list depth is [d], the namespace settings are
    those of [st0]. *)
Definition inv (d : Z) (st0 st : Converter) : Prop :=
  heap_le (the_heap st0) (the_heap st) ∧
  _ordered_list_depth st = d ∧
  _ns st = _ns st0 ∧
  _id_attrib st = _id_attrib st0.

(** A computation keeps the invariant when every run that returns does. *)
Definition keeps {A} (m : M A) : Prop :=
  ∀ d st0 st a st', inv d st0 st → m st = Ok (a, st') → inv d st0 st'.

(** The recursive call keeps the invariant below an element. *)
Definition deep_ok (conv : etree.SourceElement → option loc → M unit)
    (el : etree.SourceElement) : Prop :=
  ∀ i p, (etree.height i < etree.height el)%nat → keeps (conv i p).

(** The fields a node creation leaves alone. *)
Definition same_context (st st' : Converter) : Prop :=
  _text_mangle_fn st' = _text_mangle_fn st ∧
  _listitem_mangle_fn st' = _listitem_mangle_fn st ∧
  _ordered_list_depth st' = _ordered_list_depth st ∧
  _ns st' = _ns st ∧ _id_attrib st' = _id_attrib st ∧
  _save st' = _save st ∧ _stack st' = _stack st ∧
  _title_handler st' = _title_handler st ∧
  messages st' = messages st.

(** ** Structural passthrough, in the words of the specification *)




(** ** Index entries *)

Definition index_tags (ns : string) : list string :=
  [ns +:+ "primary"; ns +:+ "secondary"; ns +:+ "see"; ns +:+ "seealso"].

Definition preferred (el : etree.SourceElement) : bool :=
  String.eqb (PyStr.lower (default "" (etree.get el "significance"))) "preferred".

(** The text of the entry for a primary and a secondary term. *)
Definition single_entry (el : etree.SourceElement) (P Q : string) : string :=
  let s := "<single: " +:+ P +:+ "; " +:+ Q +:+ ">" in
  if preferred el then "! " +:+ s else s.

(** ** The assembly graph *)

(** The entries of an edge list that [purge] keeps. *)
Definition keep_edges (docname : string) (l : list (string * string))
    : list (string * string) :=
  List.filter (fun x => negb (String.eqb x.2 docname)) l.

(** * Source trees and graphs used in the examples *)

(** An element on line 1 whose ancestors are not recorded. *)
Definition elem (t : string) (a : list (string * string)) (tx tl : option string)
    (cs : list etree.SourceElement) : etree.SourceElement :=
  etree.Element (etree.TagName t) (list_to_map a) tx tl 1 [] cs.

(** [<para>Hello<footnote><para>A</para></footnote> and<footnote><para>B</para></footnote>.</para>] *)
Definition para_two_footnotes : etree.SourceElement :=
  elem "para" [] (Some "Hello") None
    [ elem "footnote" [] None (Some " and") [elem "para" [] (Some "A") None []];
      elem "footnote" [] None (Some ".") [elem "para" [] (Some "B") None []] ].

(** [<para>Hello<footnote><para>A</para></footnote></para>] *)
Definition para_one_footnote : etree.SourceElement :=
  elem "para" [] (Some "Hello") None
    [ elem "footnote" [] None None [elem "para" [] (Some "A") None []] ].

(** A DocBook 5 paragraph with two elements of the namespace [urn:x]:
    [<para xmlns="http://docbook.org/ns/docbook" xmlns:x="urn:x"><x:a/><x:b/></para>] *)
Definition para_foreign_namespace : etree.SourceElement :=
  elem "{http://docbook.org/ns/docbook}para" [] None None
    [ elem "{urn:x}a" [] None None [];
      elem "{urn:x}b" [] None None [] ].

(** [<itemizedlist><listitem><para>t</para></listitem></itemizedlist>] *)
Definition item_para (t : string) : etree.SourceElement :=
  elem "para" [] (Some t) None [].
Definition item (t : string) : etree.SourceElement :=
  elem "listitem" [] None None [item_para t].
Definition item_list (t : string) : etree.SourceElement :=
  elem "itemizedlist" [] None None [item t].

(** An ordered list with an ordered list inside its item. *)
Definition inner_orderedlist : etree.SourceElement :=
  elem "orderedlist" [] None None
    [ elem "listitem" [] None None [elem "para" [] (Some "inner") None []] ].
Definition nested_orderedlist : etree.SourceElement :=
  elem "orderedlist" [] None None
    [ elem "listitem" [] None None
        [ elem "para" [] (Some "outer") None []; inner_orderedlist ] ].

(** [<indexterm><primary>Foo</primary><secondary>Bar</secondary></indexterm>] *)
Definition primary_Foo : etree.SourceElement := elem "primary" [] (Some "Foo") None [].
Definition secondary_Bar : etree.SourceElement := elem "secondary" [] (Some "Bar") None [].
Definition indexterm_Foo_Bar : etree.SourceElement :=
  elem "indexterm" [] None None [primary_Foo; secondary_Bar].

(** [<indexterm><tertiary>Baz</tertiary></indexterm>] *)
Definition indexterm_tertiary_only : etree.SourceElement :=
  elem "indexterm" [] None None [ elem "tertiary" [] (Some "Baz") None [] ].


(** [<sect2/>] and [<topic/>] *)
Definition empty_sect2 : etree.SourceElement := elem "sect2" [] None None [].
Definition empty_topic : etree.SourceElement := elem "topic" [] None None [].

(** An assembly graph: the document [A] includes [B], its top resource,
    which includes [C]. *)
Definition graph_A_B_C : DocbookAssemblyInfo.t :=
  DocbookAssemblyInfo.add_child
    (DocbookAssemblyInfo.add_child
       (DocbookAssemblyInfo.include_resource_top DocbookAssemblyInfo.init "A" "B")
       "A" "B" "chapter B")
    "B" "C" "chapter C".

(** * More of the converter, and what is proved of it *)

(** ** Text without markup *)

Fixpoint has_empty_text (el : etree.SourceElement) : bool :=
  match el with
  | etree.Element _ _ tx _ _ _ cs =>
      match tx with
      | Some EmptyString => true
      | _ => false
      end || existsb has_empty_text cs
  end.

Fixpoint collected_ids (id_attrib : string) (el : etree.SourceElement) : list nodes.pyval :=
  match el with
  | etree.Element _ a _ _ _ _ cs =>
      match a !! id_attrib with
      | Some xml_id => nodes.PStr <$> PyStr.chars xml_id
      | None => []
      end ++ flat_map (collected_ids id_attrib) cs
  end.

(** ** Children a handler supports *)

(** The warnings of [supports_only] with a string of tags: [in] is the
    substring test. *)
Definition skipped_warnings_str (el : etree.SourceElement) (s : string)
    : list (level * string * Z) :=
  (fun i => (WARNING, skipped_message el i, etree.sourceline el)) <$>
    List.filter (fun i => negb (PyStr.contains s (etree.str_tag (etree.tag i))))
      (etree.getchildren el).

Definition is_element (el : etree.SourceElement) : Prop :=
  ∃ t, etree.tag el = etree.TagName t.

(** The elements whose method is [nop]. *)
Definition ignored_tags : list string := ["index"; "info"; "refentryinfo"; "refmeta"].

(** ** Stores written out *)

(** The state with another node store. *)
Definition with_heap (h : list nodes.onode) (st : Converter) : Converter :=
  set_the_document (set_heap h (the_document st)) st.

(** The comment node [nodes.comment(t, t)] once appended to a parent:
    the raw source is [t], the only attribute set is [xml:space] and the
    only child is a text node. *)
Definition comment_node (t : string) (child parent : loc) : nodes.onode :=
  {| nodes.n_klass := nodes.comment; nodes.n_text := t;
     nodes.n_attributes := {["xml:space" := nodes.PStr "preserve"]};
     nodes.n_children := [child]; nodes.n_parent := Some parent |}.

(** ** What a conversion puts back, extends or keeps apart *)

(** A change of a node object that touches neither its class, its text
    nor its child list. *)
Definition attr_only (f : nodes.onode → nodes.onode) : Prop :=
  ∀ n, nodes.n_klass (f n) = nodes.n_klass n ∧
       nodes.n_text (f n) = nodes.n_text n ∧
       nodes.n_children (f n) = nodes.n_children n.

Definition is_footnote (st : Converter) (c : loc) : Prop :=
  klass_of st c = Some nodes.footnote.

(** The output is a tree up to footnotes: a node at two positions is a
    footnote, child lists hold existing nodes, and the buffer of deferred
    nodes holds footnotes. *)
Definition tidy (st : Converter) : Prop :=
  (∀ c p q, occurs_at st c p → occurs_at st c q → p ≠ q → is_footnote st c) ∧
  (∀ c p, occurs_at st c p → (c < length (the_heap st))%nat) ∧
  Forall (is_footnote st) (_save st).

(** What docutils was told is only ever extended. *)
Definition log_grows (d d' : Document) : Prop :=
  reporter d `prefix_of` reporter d' ∧
  autofootnote_refs d `prefix_of` autofootnote_refs d' ∧
  autofootnotes d `prefix_of` autofootnotes d' ∧
  id_requests d `prefix_of` id_requests d'.

(** What a conversion puts back or only extends: the stack of open
    elements, the title handler and the set of reported namespaces are as
    before, the set of reported tags and the logs of the document are
    extended, the node store only grows. *)
Definition frame (st st' : Converter) : Prop :=
  _stack st' = _stack st ∧
  _title_handler st' = _title_handler st ∧
  _not_handled_ns st' = _not_handled_ns st ∧
  _not_handled_tags st ⊆ _not_handled_tags st' ∧
  log_grows (the_document st) (the_document st') ∧
  heap_le (the_heap st) (the_heap st').

(** The relation between the states before and after a conversion. *)
Definition steady (st st' : Converter) : Prop :=
  frame st st' ∧ (tidy st → tidy st').

(** [steady], with no new reference to any node and the same buffer. *)
Definition calm (st st' : Converter) : Prop :=
  steady st st' ∧
  (∀ c pos, occurs_at st' c pos → occurs_at st c pos) ∧
  _save st' = _save st.

Definition preserves {A} (m : M A) : Prop :=
  ∀ st a st', m st = Ok (a, st') → steady st st'.

Definition quiet {A} (m : M A) : Prop :=
  ∀ st a st', m st = Ok (a, st') → calm st st'.

(** A node that exists and is nobody's child. *)
Definition unreferenced (st : Converter) (n : loc) : Prop :=
  (n < length (the_heap st))%nat ∧ ∀ pos, ¬ occurs_at st n pos.

(** A computation that returns a node it has just made. *)
Definition fresh (m : M loc) : Prop :=
  ∀ st n st', m st = Ok (n, st') → steady st st' ∧ (tidy st → unreferenced st' n).

Definition deep_steady (conv : etree.SourceElement → option loc → M unit)
    (el : etree.SourceElement) : Prop :=
  ∀ i p, (etree.height i < etree.height el)%nat → preserves (conv i p).

(** ** Text transforms and anchors *)

(** Two spaces in a row somewhere in the string. *)
Fixpoint has_double_space (s : string) : bool :=
  match s with
  | EmptyString => false
  | String c s' =>
      match s' with
      | String c' _ => (Ascii.eqb c " " && Ascii.eqb c' " ") || has_double_space s'
      | EmptyString => false
      end
  end.

(** [<anchor id="a"/>] *)
Definition anchor (a : string) : etree.SourceElement := elem "anchor" [("id", a)] None None [].

(** ** Section levels *)

(** The level a section element leaves in [current_level], given the
    level before the element. *)
Definition section_level (t : string) (before : Z) : option Z :=
  if bool_decide (t ∈ ["chapter"; "preface"; "appendix"; "book"; "article"; "topic"])
  then Some 0%Z
  else if String.eqb t "sect1" then Some 1%Z
  else if String.eqb t "sect2" then Some 2%Z
  else if String.eqb t "sect3" then Some 3%Z
  else if String.eqb t "section" then Some (before + 1)%Z
  else None.

(** ** Ordered lists and their nesting depth *)

(** An element that [_conv] hands to [e_orderedlist]. *)
Definition is_orderedlist (el : etree.SourceElement) (st : Converter) : bool :=
  match etree.tag el, resolve el st with
  | etree.TagName _, Ok (r, _) => bool_decide (r.2 = Some "e_orderedlist")
  | _, _ => false
  end.

(** The numbering style of a list at a nesting depth. *)
Definition enumtype_at (depth : Z) : string :=
  if (depth =? 1)%Z then "arabic" else "loweralpha".

(** The outcome [st'] of the conversion, begun in [st], of an ordered list
    at a nesting depth: the next location holds an enumerated list
    numbered in the style of the depth, and the counter is back at its
    value. *)
Definition numbered_for (depth : Z) (st st' : Converter) : bool :=
  let n := length (the_heap st) in
  bool_decide (klass_of st' n = Some nodes.enumerated_list) &&
  match attr_of st' n "enumtype" with
  | Some (nodes.PStr s) => String.eqb s (enumtype_at depth)
  | _ => false
  end &&
  bool_decide (_ordered_list_depth st' = _ordered_list_depth st).

(** A conversion with assertions, [k] being the number of ordered lists
    around the element: the counter is [k] when the element is reached,
    and an ordered list, which is at nesting depth [k + 1], comes out
    numbered for that depth.  What is inside an ordered list is converted
    with [k + 1], anything else with [k]. *)
Definition asserting (k : Z)
    (conv : Z → etree.SourceElement → option loc → M unit)
    (el : etree.SourceElement) (parent : option loc) : M unit :=
  fun st =>
    if bool_decide (_ordered_list_depth st = k) then
      if is_orderedlist el st then
        match _conv_body (conv (k + 1)%Z) el parent st with
        | Ok (_, st') =>
            if numbered_for (k + 1) st st' then Ok (tt, st')
            else Raise AssertionError
        | Raise e => Raise e
        end
      else _conv_body (conv k) el parent st
    else Raise AssertionError.

Fixpoint _conv_asserting (k : Z) (el : etree.SourceElement) (parent : option loc)
    {struct el} : M unit :=
  asserting k _conv_asserting el parent.

(** Two computations that do the same from every state in which the
    counter of ordered lists is [d], and leave the counter at [d]. *)
Definition same_at (d : Z) {A} (m m' : M A) : Prop :=
  ∀ st, _ordered_list_depth st = d →
    m st = m' st ∧ ∀ a st', m st = Ok (a, st') → _ordered_list_depth st' = d.

Definition deep_same (d : Z) (conv conv' : etree.SourceElement → option loc → M unit)
    (el : etree.SourceElement) : Prop :=
  ∀ i p, (etree.height i < etree.height el)%nat → same_at d (conv i p) (conv' i p).

(** ** The toctree of a document (ext.py) *)

(** [create_toctree] of [DocbookAssemblyInfo]: what the toctree node is
    given, [entries] and [includefiles], or [None] when the method returns
    before it makes one.  Wrapping the node and handing it to the
    environment and the doctree is left to Sphinx and docutils. *)
Record toctree := {
  entries : list (string * string);
  includefiles : list string
}.

Definition create_toctree (self : DocbookAssemblyInfo.t) (docname : string)
    : option toctree :=
  if bool_decide (docname ∈ DocbookAssemblyInfo.roots self) then None
  else
    match DocbookAssemblyInfo.children self !! docname with
    | None => None
    | Some children =>
        Some {| entries := children; includefiles := snd <$> children |}
    end.

(** ** The class of the node an element becomes *)






(** ** More of [dbparser.py] and of [ext.py] *)

(** [has_no_text] of [DocbookConverter]: the [return] inside the loop
    ends it after the first child. *)
Definition skipping_text (el : etree.SourceElement) (s : string) : string :=
  "skipping text in <" +:+ get_path el +:+ ">: " +:+ s.

Definition has_no_text (el : etree.SourceElement) (parent : loc) : M unit :=
  let nonblank (o : option string) : option string :=
    match o with
    | Some s => if PyStr.isspace s then None else Some s
    | None => None
    end in
  match nonblank (etree.text el) with
  | Some t => warning el (skipping_text el t)
  | None =>
      match etree.getchildren el with
      | [] => ret tt
      | i :: _ =>
          match nonblank (etree.tail i) with
          | Some tl => warning el (skipping_text el tl)
          | None => ret tt
          end
      end
  end.

(** ** [class DocbookParser] *)

Module DocbookParser.

(** [_get_converter]: [self.converter(self, document, root.tag[0] == '{')]
    on a fresh document. *)
Definition _get_converter (root : etree.SourceElement) : result Converter :=
  match etree.tag root with
  | etree.TagName s =>
      match PyStr.index s 0 with
      | Some c => Ok (init (String.eqb c "{"))
      | None => Raise IndexError
      end
  | _ => Raise TypeError
  end.

(** [parse], from the root that [_parse_xml] gives. *)
Definition parse (root : etree.SourceElement) : result (unit * Converter) :=
  match _get_converter root with
  | Ok conv => convert_root root conv
  | Raise e => Raise e
  end.

End DocbookParser.

(** ** [class SphinxDocbookConverter] (ext.py): the stack of modules *)

Module SphinxDocbookConverter.

(** The fields that [push_module] and [pop_module] read and write.  A
    resource reference is what [el.get] gives, a string or [None];
    [included] records the calls of [env.note_included]. *)
Record Modules := {
  resources : gmap (option string) string;
  parent_docname : option string;
  current_docname : option string;
  current_resource : option string;
  current_depth : Z;
  modules : option (list (option string));
  included : list string
}.

(** The tuple [push_module] returns. *)
Definition saved : Type :=
  option string * option string * option (list (option string)).

Section env.

(** [env.path2doc] *)
Variable path2doc : string → option string.

Definition push_module (resourceref : option string) (self : Modules)
    : result (saved * Modules) :=
  match resources self !! resourceref with
  | None => Raise KeyError
  | Some filename =>
      let modules' := (fun l => l ++ [resourceref]) <$> modules self in
      Ok ((parent_docname self, current_resource self, modules'),
          {| resources := resources self;
             parent_docname := current_docname self;
             current_docname := path2doc filename;
             current_resource := resourceref;
             current_depth := current_depth self + 1;
             modules := Some [];
             included := included self ++ [filename] |})
  end.

Definition pop_module (state : saved) (self : Modules) : Modules :=
  {| resources := resources self;
     parent_docname := state.1.1;
     current_docname := parent_docname self;
     current_resource := state.1.2;
     current_depth := current_depth self - 1;
     modules := state.2;
     included := included self |}.

End env.

End SphinxDocbookConverter.

(** * Properties *)

(** ** Characters of a string *)

Lemma chars_cons c s : ∃ x l, PyStr.chars (String c s) = x :: l.
Proof.
  simpl. destruct (PyStr.chars s) as [|x l]; [eauto|].
  destruct s as [|c' s]; [eauto|]. destruct (PyStr.is_continuation c'); eauto.
Qed.

Lemma chars_nil s : PyStr.chars s = [] ↔ s = "".
Proof.
  split; [|by intros ->].
  destruct s as [|c s]; [done|]. destruct (chars_cons c s) as (x & l & ->). done.
Qed.

Lemma of_chars_chars s : PyStr.of_chars (PyStr.chars s) = s.
Proof.
  induction s as [|c s IH]; [done|]. simpl.
  destruct (PyStr.chars s) as [|x l] eqn:E.
  - apply chars_nil in E as ->. done.
  - change (PyStr.of_chars (x :: l)) with (x +:+ PyStr.of_chars l) in IH.
    destruct s as [|c' s]; [done|].
    destruct (PyStr.is_continuation c').
    + change (String c (x +:+ PyStr.of_chars l) = String c (String c' s)).
      by rewrite IH.
    + change (String c (x +:+ PyStr.of_chars l) = String c (String c' s)).
      by rewrite IH.
Qed.

Lemma chars_app p s :
  PyStr.starts_character s → PyStr.chars (p +:+ s) = PyStr.chars p ++ PyStr.chars s.
Proof.
  intros Hs. induction p as [|c p IH]; [done|].
  change (String c p +:+ s) with (String c (p +:+ s)).
  cbn [PyStr.chars]. rewrite IH.
  destruct p as [|c' p].
  - change ("" +:+ s) with s. destruct s as [|c' s]; [done|]. simpl in Hs.
    destruct (chars_cons c' s) as (x & l & E). rewrite E, Hs. done.
  - destruct (chars_cons c' p) as (x & l & E). rewrite E. simpl.
    by destruct (PyStr.is_continuation c').
Qed.



Lemma drop_0 s : PyStr.drop 0 s = s.
Proof. unfold PyStr.drop. simpl. apply of_chars_chars. Qed.

Lemma drop_app (p s : string) :
  PyStr.starts_character s → PyStr.drop (PyStr.len p) (p +:+ s) = s.
Proof.
  intros Hs. unfold PyStr.drop, PyStr.len. rewrite chars_app by done.
  rewrite drop_app_length. apply of_chars_chars.
Qed.

Lemma last_None s : PyStr.last s = None ↔ s = "".
Proof. unfold PyStr.last. rewrite last_None. apply chars_nil. Qed.

Lemma index_1_None (t : string) :
  PyStr.index t 1 = None ↔ (PyStr.len t < 2)%nat.
Proof. unfold PyStr.index, PyStr.len. rewrite lookup_ge_None. lia. Qed.

(** From here on the operations on characters are taken as they are. *)
Arguments PyStr.chars : simpl never.
Arguments PyStr.lstrip : simpl never.
Arguments PyStr.rstrip : simpl never.
Arguments PyStr.strip : simpl never.
Arguments PyStr.len : simpl never.
Arguments PyStr.drop : simpl never.
Arguments PyStr.index : simpl never.
Arguments PyStr.last : simpl never.
Arguments PyStr.is_space : simpl never.

(** ** Running the monad *)

Lemma bind_Ok_inv {A B} (m : M A) (f : A → M B) st b st' :
  (m ≫= f) st = Ok (b, st') →
  ∃ a st1, m st = Ok (a, st1) ∧ f a st1 = Ok (b, st').
Proof.
  unfold mbind, M_bind. destruct (m st) as [[a st1]|e]; [eauto|discriminate].
Qed.

Lemma bind_Raise {A B} (m : M A) (f : A → M B) st e :
  m st = Raise e → (m ≫= f) st = Raise e.
Proof. unfold mbind, M_bind. by intros ->. Qed.

Lemma bind_Ok {A B} (m : M A) (f : A → M B) st a st1 :
  m st = Ok (a, st1) → (m ≫= f) st = f a st1.
Proof. unfold mbind, M_bind. by intros ->. Qed.

Lemma lift_Ok_inv {A} (r : result A) st a st' :
  lift r st = Ok (a, st') → r = Ok a ∧ st' = st.
Proof. unfold lift. destruct r; intros H; by simplify_eq. Qed.

Lemma bind_gets {A B} (f : Converter → A) (k : A → M B) st :
  (gets f ≫= k) st = k (f st) st.
Proof. reflexivity. Qed.

Lemma bind_modify {B} (f : Converter → Converter) (k : unit → M B) st :
  (modify f ≫= k) st = k tt (f st).
Proof. reflexivity. Qed.

Lemma bind_ret {A B} (a : A) (k : A → M B) st : (ret a ≫= k) st = k a st.
Proof. reflexivity. Qed.

Lemma bind_lift_Ok {A B} (a : A) (k : A → M B) st : (lift (Ok a) ≫= k) st = k a st.
Proof. reflexivity. Qed.

Lemma bind_assoc {A B C} (m : M A) (f : A → M B) (g : B → M C) st :
  ((m ≫= f) ≫= g) st = (m ≫= λ a, f a ≫= g) st.
Proof. unfold mbind, M_bind. by destruct (m st) as [[a st1]|]. Qed.

Lemma bind_ext {A B} (m : M A) (f g : A → M B) st :
  (∀ a st1, f a st1 = g a st1) → (m ≫= f) st = (m ≫= g) st.
Proof.
  intros H. unfold mbind, M_bind. destruct (m st) as [[a st1]|]; [apply H|done].
Qed.

Lemma bind_ext_run {A B} (m : M A) (f g : A → M B) st :
  (∀ a st1, m st = Ok (a, st1) → f a st1 = g a st1) → (m ≫= f) st = (m ≫= g) st.
Proof.
  intros H. unfold mbind, M_bind. destruct (m st) as [[a st1]|]; [by apply H|done].
Qed.

Lemma bind_cong {A B} (m m' : M A) (f g : A → M B) st :
  m st = m' st → (∀ a st1, f a st1 = g a st1) → (m ≫= f) st = (m' ≫= g) st.
Proof.
  intros Hm H. unfold mbind, M_bind. rewrite Hm.
  destruct (m' st) as [[a st1]|]; [apply H|done].
Qed.


Ltac mrun :=
  repeat first
    [ rewrite bind_assoc
    | rewrite bind_gets
    | rewrite bind_modify
    | rewrite bind_ret
    | rewrite bind_lift_Ok ];
  cbv beta.

Lemma _conv_unfold el parent : _conv el parent = _conv_body _conv el parent.
Proof. by destruct el. Qed.

(** The loops written over the children with a test on the tag are the
    loops over [el.findall(tag)], and [el.find(tag)] is [None] exactly
    when [el.findall(tag)] is empty. *)
Lemma for_each_findall (body : etree.SourceElement → M unit) el t st :
  for_each body (findall el t) st =
  for_each (λ c, if has_tag t c then body c else ret tt) (etree.getchildren el) st.
Proof.
  unfold findall. revert st.
  induction (etree.getchildren el) as [|c cs IH]; intros st; simpl; [done|].
  destruct (has_tag t c); simpl.
  - apply bind_ext. intros _ st1. apply IH.
  - rewrite bind_ret. apply IH.
Qed.

Lemma find_None_findall el t : find el t = None ↔ findall el t = [].
Proof.
  unfold find, findall.
  induction (etree.getchildren el) as [|c cs IH]; simpl; [done|].
  destruct (has_tag t c); [split; discriminate|exact IH].
Qed.

Lemma with_find_find {A} t (k : etree.SourceElement → A) d el :
  with_find t k d el = from_option k d (find el t).
Proof.
  unfold with_find, find.
  induction (etree.getchildren el) as [|c cs IH]; simpl; [done|].
  by destruct (has_tag t c).
Qed.

(** ** Footnotes *)

(** C1: on a paragraph with the footnotes A then B, each with a [para]
    body, conversion returns with an empty buffer and a footnote
    reference at each point of use, but [e_footnote] creates the footnote
    with [create], which appends it to the paragraph: both footnotes are
    children of the paragraph (locations 5 and 11 under 1).  The block
    that closes inside footnote B flushes the buffer holding A, so the
    siblings after the paragraph are [paragraph][footnote B] and footnote
    A ends up inside footnote B. *)
Theorem footnote_bodies_nested_in_paragraph :
  ∃ st,
    convert_root para_two_footnotes (init false) = Ok (tt, st) ∧
    _save st = [] ∧
    klass_of st 1 = Some nodes.paragraph ∧
    klass_of st 3 = Some nodes.footnote_reference ∧
    klass_of st 9 = Some nodes.footnote_reference ∧
    klass_of st 5 = Some nodes.footnote ∧
    klass_of st 11 = Some nodes.footnote ∧
    children_of st 1 = [2; 3; 5; 8; 9; 11; 14]%nat ∧
    children_of st document_loc = [1; 11]%nat ∧
    children_of st 11 = [12; 5]%nat.
Proof.
  eexists. split; [vm_compute; reflexivity|].
  repeat split; vm_compute; reflexivity.
Qed.

(** C2: on a paragraph with one footnote, the footnote node at location 5
    is the third child of the paragraph and the second child of the
    document: one node at two positions, with no deep copy involved. *)
Theorem footnote_node_aliased :
  ∃ st,
    convert_root para_one_footnote (init false) = Ok (tt, st) ∧
    klass_of st 5 = Some nodes.footnote ∧
    occurs_at st 5 (1, 2)%nat ∧
    occurs_at st 5 (document_loc, 1)%nat ∧
    aliased st 5.
Proof.
  eexists. split; [vm_compute; reflexivity|].
  split; [vm_compute; reflexivity|].
  split; [vm_compute; reflexivity|].
  split; [vm_compute; reflexivity|].
  exists (1, 2)%nat, (document_loc, 1)%nat.
  split; [discriminate|].
  split; vm_compute; reflexivity.
Qed.

(** ** Diagnostics *)

(** C4: with two elements of the unrecognized namespace [urn:x] in one
    run, the namespace diagnostic is emitted twice: [_conv] tests
    [ns not in self._not_handled_ns] but records the tag in
    [_not_handled_tags], so the set of namespaces stays empty. *)
Theorem namespace_diagnostic_repeated :
  ∃ st,
    convert_root para_foreign_namespace (init true) = Ok (tt, st) ∧
    namespace_diagnostics "urn:x" st =
      [ (WARNING, "Don't know how to handle namespace urn:x", 1%Z);
        (WARNING, "Don't know how to handle namespace urn:x", 1%Z) ] ∧
    messages st = namespace_diagnostics "urn:x" st ∧
    _not_handled_ns st = ∅.
Proof.
  eexists. split; [vm_compute; reflexivity|].
  repeat split; vm_compute; reflexivity.
Qed.

(** ** Section levels *)

(** C9: after [<sect2/>] the current level is 2; converting [<topic/>]
    next sets it to 0, not to the unchanged 2: the class body ends with
    [e_topic = e_chapter], which replaces the [def e_topic] that passes
    [self.current_level]. *)
Theorem topic_resets_level :
  ∃ st st',
    convert_root empty_sect2 (init false) = Ok (tt, st) ∧
    current_level st = 2%Z ∧
    convert_root empty_topic st = Ok (tt, st') ∧
    current_level st' = 0%Z ∧
    (∃ st'', e_topic_def _conv empty_topic document_loc st = Ok (tt, st'') ∧
             current_level st'' = 2%Z).
Proof.
  eexists. eexists. split; [vm_compute; reflexivity|].
  split; [vm_compute; reflexivity|].
  split; [vm_compute; reflexivity|].
  split; [vm_compute; reflexivity|].
  eexists. split; vm_compute; reflexivity.
Qed.

(** The levels the other section elements set, whatever they contain. *)
Lemma section_sets_level conv el parent lvl st st' :
  _section conv el parent lvl st = Ok (tt, st') → current_level st' = lvl.
Proof.
  unfold _section. rewrite bind_gets, bind_modify. intros H.
  apply bind_Ok_inv in H as (n & st1 & _ & H).
  rewrite bind_modify in H.
  apply bind_Ok_inv in H as ([] & st2 & _ & H).
  unfold modify in H. by injection H as <-.
Qed.

Lemma named_sections_set_level conv el parent st st' :
  (e_chapter conv el parent st = Ok (tt, st') → current_level st' = 0%Z) ∧
  (e_sect1 conv el parent st = Ok (tt, st') → current_level st' = 1%Z) ∧
  (e_sect2 conv el parent st = Ok (tt, st') → current_level st' = 2%Z) ∧
  (e_sect3 conv el parent st = Ok (tt, st') → current_level st' = 3%Z) ∧
  (e_section conv el parent st = Ok (tt, st') →
     current_level st' = (current_level st + 1)%Z) ∧
  (e_topic conv el parent st = Ok (tt, st') → current_level st' = 0%Z).
Proof.
  repeat split; apply section_sets_level.
Qed.

(** ** Bullet recovery: the unguarded subscript *)

(** C10: when the first [listitem] of an itemized list has a first [para]
    whose text is [None] or has fewer than two characters, [e_itemizedlist]
    raises; it returns only when the inspection [item.text[1] == ' ']
    yields a choice; and the generic bullet is chosen only when there is
    no such [para] or its text has at least two characters, the second
    not a space. *)
Theorem itemizedlist_unguarded_subscript
    (conv : etree.SourceElement → option loc → M unit)
    (el : etree.SourceElement) (parent : loc) (st : Converter) :
  (∀ item,
     first_item_para el (_ns st) = Some item →
     etree.text item = None ∨
       (∃ t, etree.text item = Some t ∧ (PyStr.len t < 2)%nat) →
     ∃ e, e_itemizedlist conv el parent st = Raise e) ∧
  (∀ st', e_itemizedlist conv el parent st = Ok (tt, st') →
     ∃ choice, inspect_bullet (first_item_para el (_ns st)) = Ok choice) ∧
  (inspect_bullet (first_item_para el (_ns st)) = Ok Generic →
     first_item_para el (_ns st) = None ∨
     ∃ item t c,
       first_item_para el (_ns st) = Some item ∧
       etree.text item = Some t ∧
       (2 ≤ PyStr.len t)%nat ∧
       PyStr.index t 1 = Some c ∧ c ≠ " ").
Proof.
  split; [|split].
  - intros item Hitem Htext.
    assert (Hraise : ∃ e, inspect_bullet (Some item) = Raise e).
    { simpl. destruct Htext as [->|(t & -> & Hlen)]; [eauto|].
      apply index_1_None in Hlen. rewrite Hlen. eauto. }
    destruct Hraise as [e He].
    unfold e_itemizedlist. rewrite bind_gets.
    destruct (supports_only el (TagsStr (_ns st +:+ "listitem")) st)
      as [[[] st1]|e'] eqn:Hs.
    + exists e. rewrite (bind_Ok _ _ _ _ _ Hs).
      apply bind_Raise. rewrite Hitem, He. reflexivity.
    + exists e'. by apply bind_Raise.
  - intros st' H. unfold e_itemizedlist in H. rewrite bind_gets in H.
    apply bind_Ok_inv in H as ([] & st1 & _ & H).
    apply bind_Ok_inv in H as (choice & st2 & Hc & _).
    apply lift_Ok_inv in Hc as [Hc _]. eauto.
  - destruct (first_item_para el (_ns st)) as [item|]; [|by left].
    simpl. intros H. right.
    destruct (etree.text item) as [t|] eqn:Ht; [|discriminate].
    destruct (PyStr.index t 1) as [c|] eqn:Hc; [|discriminate].
    exists item, t, c. repeat split; try done.
    + destruct (le_lt_dec 2 (PyStr.len t)) as [|Hlt]; [done|].
      apply index_1_None in Hlt. congruence.
    + intros ->. simpl in H. destruct (PyStr.index t 0); discriminate.
Qed.

Lemma itemizedlist_unguarded_subscript_witness :
  ∃ e, e_itemizedlist _conv (item_list "•") document_loc (init false) = Raise e.
Proof.
  apply (proj1 (itemizedlist_unguarded_subscript _conv (item_list "•")
                  document_loc (init false))
           (item_para "•")).
  - reflexivity.
  - right. exists "•". split; [reflexivity|vm_compute; lia].
Defined.

(** ** Purging a document from the assembly graph *)

Lemma keep_edges_id docname l :
  Forall (fun x => x.2 ≠ docname) l → keep_edges docname l = l.
Proof.
  unfold keep_edges. induction 1 as [|x l Hx _ IH]; simpl; [done|].
  destruct (String.eqb_spec x.2 docname); [done|]. simpl. by rewrite IH.
Qed.

Lemma keep_edges_spec docname l x :
  x ∈ keep_edges docname l ↔ x ∈ l ∧ x.2 ≠ docname.
Proof.
  unfold keep_edges. rewrite !list_elem_of_In, filter_In.
  destruct (String.eqb_spec x.2 docname) as [Heq|Hne]; simpl.
  - split; [intros [_ ?]; discriminate|intros [_ ?]; done].
  - split; intros [? _]; done.
Qed.




(** ** The store only grows, and the list depth comes back *)

Lemma node_le_refl n : node_le n n.
Proof. by repeat split. Qed.

Lemma node_le_trans n1 n2 n3 : node_le n1 n2 → node_le n2 n3 → node_le n1 n3.
Proof.
  intros (? & ? & ?) (? & ? & ?). repeat split; try congruence. by etrans.
Qed.

Lemma heap_le_refl h : heap_le h h.
Proof. intros l n ?. eauto using node_le_refl. Qed.

Lemma heap_le_trans h1 h2 h3 : heap_le h1 h2 → heap_le h2 h3 → heap_le h1 h3.
Proof.
  intros H12 H23 l n Hl. destruct (H12 _ _ Hl) as (n2 & H2 & ?).
  destruct (H23 _ _ H2) as (n3 & ? & ?). eauto using node_le_trans.
Qed.

Lemma heap_le_length h h' : heap_le h h' → (length h ≤ length h')%nat.
Proof.
  intros H. destruct h as [|x h0] using rev_ind; [simpl; lia|].
  destruct (H (length h0) x) as (n' & Hn & _).
  { by rewrite lookup_app_r, Nat.sub_diag by lia. }
  apply lookup_lt_Some in Hn. rewrite length_app. simpl. lia.
Qed.

Lemma heap_le_alloc h n : heap_le h (h ++ [n]).
Proof.
  intros l x Hl. exists x. split; [|apply node_le_refl].
  by apply lookup_app_l_Some.
Qed.

Lemma heap_le_alter h f l : node_mono f → heap_le h (alter f l h).
Proof.
  intros Hf l' n Hl. destruct (decide (l = l')) as [->|Hne].
  - exists (f n). split; [|apply Hf].
    rewrite list_lookup_alter_eq, Hl. done.
  - exists n. split; [|apply node_le_refl].
    by rewrite list_lookup_alter_ne.
Qed.

Lemma inv_refl st : inv (_ordered_list_depth st) st st.
Proof. repeat split. apply heap_le_refl. Qed.

Lemma inv_set_depth d v st0 st :
  inv d st0 st → inv v st0 (set_ordered_list_depth v st).
Proof. intros (? & ? & ? & ?). by repeat split. Qed.

Lemma keeps_ret {A} (a : A) : keeps (ret a).
Proof. intros d st0 st a' st' Hinv H. unfold ret in H. by simplify_eq. Qed.

Lemma keeps_raise {A} e : keeps (@raise A e).
Proof. intros d st0 st a' st' Hinv H. discriminate. Qed.

Lemma keeps_gets {A} (f : Converter → A) : keeps (gets f).
Proof. intros d st0 st a' st' Hinv H. unfold gets in H. by simplify_eq. Qed.

Lemma keeps_lift {A} (r : result A) : keeps (lift r).
Proof. intros d st0 st a' st' Hinv H. apply lift_Ok_inv in H as [_ ->]. done. Qed.

Lemma keeps_bind {A B} (m : M A) (f : A → M B) :
  keeps m → (∀ a, keeps (f a)) → keeps (m ≫= f).
Proof.
  intros Hm Hf d st0 st b st' Hinv H.
  apply bind_Ok_inv in H as (a & st1 & H1 & H2).
  eapply Hf; [|exact H2]. eapply Hm; eauto.
Qed.

Lemma keeps_modify (f : Converter → Converter) :
  (∀ c, the_document (f c) = the_document c ∧
        _ordered_list_depth (f c) = _ordered_list_depth c ∧
        _ns (f c) = _ns c ∧ _id_attrib (f c) = _id_attrib c) →
  keeps (modify f).
Proof.
  intros Hf d st0 st [] st' (Hh & Hd & Hn & Hi) H. unfold modify in H. simplify_eq.
  destruct (Hf st) as (Hdoc & ? & ? & ?).
  unfold inv, the_heap in *. rewrite Hdoc. repeat split; [done|congruence..].
Qed.

Lemma keeps_modify_doc (f : Document → Document) :
  (∀ d, heap_le (heap d) (heap (f d))) → keeps (modify_doc f).
Proof.
  intros Hf d st0 st [] st' (Hh & Hd & Hn & Hi) H.
  unfold modify_doc, modify in H. simplify_eq.
  repeat split; try done. unfold the_heap in *. simpl.
  eapply heap_le_trans; [exact Hh|apply Hf].
Qed.

Lemma keeps_alloc n : keeps (alloc n).
Proof.
  intros d st0 st l st' (Hh & Hd & Hn & Hi) H. unfold alloc in H. simplify_eq.
  repeat split; try done. unfold the_heap in *. simpl.
  eapply heap_le_trans; [exact Hh|apply heap_le_alloc].
Qed.

Lemma keeps_update l f : node_mono f → keeps (update l f).
Proof.
  intros Hf. apply keeps_modify_doc. intros d. simpl. by apply heap_le_alter.
Qed.

Lemma keeps_for_each {A} (body : A → M unit) (l : list A) :
  (∀ x, x ∈ l → keeps (body x)) → keeps (for_each body l).
Proof.
  induction l as [|x l IH]; intros Hb; simpl.
  - apply keeps_ret.
  - apply keeps_bind; [apply Hb; left|intros _].
    apply IH. intros y Hy. apply Hb. by right.
Qed.

Lemma mono_setitem k v : node_mono (nodes.setitem k v).
Proof. intros n. by repeat split. Qed.
Lemma mono_set_parent p : node_mono (nodes.set_parent p).
Proof. intros n. by repeat split. Qed.
Lemma mono_append c : node_mono (nodes.append c).
Proof. intros n. repeat split; simpl. by apply prefix_app_r. Qed.
Lemma mono_ids_append v : node_mono (ids_append v).
Proof.
  intros n. unfold ids_append. destruct (nodes.getitem n "ids"); try apply node_le_refl.
  apply mono_setitem.
Qed.
Lemma mono_realias_node ids : node_mono (realias_node ids).
Proof.
  intros n. unfold realias_node.
  destruct (nodes.getitem n "ids") as [| |[|]]; try apply node_le_refl.
  apply mono_setitem.
Qed.

Create HintDb keeps discriminated.
#[local] Hint Resolve keeps_ret keeps_raise keeps_gets keeps_lift keeps_alloc : keeps.
#[local] Hint Resolve mono_setitem mono_set_parent mono_append mono_ids_append mono_realias_node : keeps.

Ltac keeps_step :=
  match goal with
  | |- keeps (_ ≫= _) => apply keeps_bind; [|intros ?]
  | |- keeps (ret _) => apply keeps_ret
  | |- keeps (raise _) => apply keeps_raise
  | |- keeps (gets _) => apply keeps_gets
  | |- keeps (lift _) => apply keeps_lift
  | |- keeps (alloc _) => apply keeps_alloc
  | |- keeps (modify _) => apply keeps_modify; intros ?; by repeat split
  | |- keeps (modify_doc _) => apply keeps_modify_doc; intros ?; apply heap_le_refl
  | |- keeps (update _ _) => apply keeps_update; auto with keeps
  | |- keeps (for_each _ _) => apply keeps_for_each; intros ? ?
  | |- keeps (match ?x with _ => _ end) => destruct x
  | |- keeps _ => solve [eauto with keeps]
  end.

Ltac keeps_tac := repeat keeps_step.

Lemma keeps_setitem l k v : keeps (setitem l k v).
Proof. unfold setitem. keeps_tac. Qed.
Lemma keeps_iadd p c : keeps (iadd p c).
Proof. unfold iadd. keeps_tac. Qed.
Lemma keeps_report lv el s : keeps (report lv el s).
Proof. unfold report. keeps_tac. Qed.
Lemma keeps_set_id n : keeps (set_id n).
Proof. unfold set_id. keeps_tac. Qed.
#[local] Hint Resolve keeps_setitem keeps_iadd keeps_report keeps_set_id : keeps.
Lemma keeps_warning el s : keeps (warning el s).
Proof. apply keeps_report. Qed.
Lemma keeps_info el s : keeps (info el s).
Proof. apply keeps_report. Qed.
#[local] Hint Resolve keeps_warning keeps_info : keeps.
Lemma keeps_note_autofootnote_ref n : keeps (note_autofootnote_ref n).
Proof. unfold note_autofootnote_ref. keeps_tac. Qed.
Lemma keeps_note_autofootnote n : keeps (note_autofootnote n).
Proof. unfold note_autofootnote. keeps_tac. Qed.
Lemma keeps_supports_only el tags : keeps (supports_only el tags).
Proof. unfold supports_only. keeps_tac. Qed.
Lemma keeps_has_only_text el p : keeps (has_only_text el p).
Proof. unfold has_only_text. keeps_tac. Qed.
Lemma keeps_create_node p k x ids : keeps (create_node p k x ids).
Proof. unfold create_node. keeps_tac. Qed.
#[local] Hint Resolve keeps_note_autofootnote_ref keeps_note_autofootnote keeps_supports_only keeps_has_only_text keeps_create_node : keeps.
Lemma keeps_node p k dk x ids : keeps (node p k dk x ids).
Proof. unfold node. keeps_tac. Qed.
#[local] Hint Resolve keeps_node : keeps.
Lemma keeps_create el p k dk : keeps (create el p k dk).
Proof. unfold create. keeps_tac. Qed.
Lemma keeps_text s : keeps (text s).
Proof. unfold text. keeps_tac. Qed.
Lemma keeps_Text s : keeps (Text s).
Proof. unfold Text. keeps_tac. Qed.
#[local] Hint Resolve keeps_create keeps_text keeps_Text : keeps.
Lemma keeps_add_text p s : keeps (add_text p s).
Proof. unfold add_text. keeps_tac. Qed.
#[local] Hint Resolve keeps_add_text : keeps.
Lemma keeps_new_comment s : keeps (new_comment s).
Proof. unfold new_comment. keeps_tac. Qed.
#[local] Hint Resolve keeps_new_comment : keeps.
Lemma keeps_comment el p : keeps (comment el p).
Proof. unfold comment. keeps_tac. Qed.
Lemma keeps_inline_text s p c x ids : keeps (inline_text s p c x ids).
Proof. unfold inline_text. keeps_tac. Qed.
Lemma keeps_no_markup el p k : keeps (no_markup el p k).
Proof. unfold no_markup. keeps_tac. Qed.
Lemma keeps_stack_second_last : keeps stack_second_last.
Proof. unfold stack_second_last. keeps_tac. Qed.
Lemma keeps_emit p s : keeps (emit p s).
Proof. unfold emit. keeps_tac. Qed.
#[local] Hint Resolve keeps_comment keeps_inline_text keeps_no_markup keeps_stack_second_last keeps_emit : keeps.

Lemma height_child (el i : etree.SourceElement) :
  i ∈ etree.getchildren el → (etree.height i < etree.height el)%nat.
Proof.
  destruct el as [t a tx tl ln anc cs]. simpl. intros Hi.
  induction cs as [|c cs IH]; [by apply elem_of_nil in Hi|].
  simpl. apply elem_of_cons in Hi as [->|Hi]; [lia|].
  specialize (IH Hi). lia.
Qed.

Section keeps_handlers.
Variable conv : etree.SourceElement → option loc → M unit.

Lemma deep_ok_child el i : deep_ok conv el → i ∈ etree.getchildren el → deep_ok conv i.
Proof.
  intros H Hi j p Hj. apply H. apply height_child in Hi. lia.
Qed.

Lemma keeps_concat_children parent cs pending :
  (∀ i p, i ∈ cs → keeps (conv i p)) →
  keeps (concat_children conv parent cs pending).
Proof.
  revert pending. induction cs as [|i cs IH]; intros pending H; simpl.
  - apply keeps_ret.
  - keeps_tac.
    + apply H. left.
    + apply IH. intros j p Hj. apply H. by right.
Qed.

Lemma keeps_concat_into el parent ns :
  deep_ok conv el → keeps (concat_into conv el parent ns).
Proof.
  intros H. unfold concat_into.
  apply keeps_bind.
  - apply keeps_concat_children. intros i p Hi. apply H. by apply height_child.
  - intros ?. keeps_tac.
Qed.
Hint Resolve keeps_concat_into : keeps.

Lemma keeps_concat el parent k dk ns :
  deep_ok conv el → keeps (concat conv el parent k dk ns).
Proof. intros H. unfold concat. keeps_tac. Qed.
Hint Resolve keeps_concat : keeps.

Lemma keeps_block el parent k :
  deep_ok conv el → keeps (block conv el parent k).
Proof. intros H. unfold block. keeps_tac. Qed.
Hint Resolve keeps_block : keeps.

Lemma keeps_inline el parent c ns :
  deep_ok conv el → keeps (inline conv el parent c ns).
Proof. intros H. unfold inline. keeps_tac. Qed.
Hint Resolve keeps_inline : keeps.

Lemma keeps_rubric el parent :
  deep_ok conv el → keeps (rubric conv el parent).
Proof. intros H. unfold rubric. keeps_tac. Qed.
Hint Resolve keeps_rubric : keeps.

Lemma keeps__section el parent lvl :
  deep_ok conv el → keeps (_section conv el parent lvl).
Proof. intros H. unfold _section. keeps_tac. Qed.
Hint Resolve keeps__section : keeps.

Lemma keeps_with_find t (k : etree.SourceElement → M unit) d el :
  (∀ c, c ∈ etree.getchildren el → keeps (k c)) → keeps d →
  keeps (with_find t k d el).
Proof.
  unfold with_find. intros Hk Hd.
  induction (etree.getchildren el) as [|c cs IH]; simpl; [done|].
  destruct (has_tag t c).
  - apply Hk. left.
  - apply IH. intros c' Hc'. apply Hk. by right.
Qed.

Lemma keeps_paramdefs t parent cs sep :
  (∀ i p, i ∈ cs → keeps (conv i p)) →
  keeps (paramdefs conv t parent cs sep).
Proof.
  revert sep. induction cs as [|i cs IH]; intros sep H; simpl.
  - apply keeps_ret.
  - assert (∀ sep', keeps (paramdefs conv t parent cs sep')).
    { intros sep'. apply IH. intros j p Hj. apply H. by right. }
    keeps_tac. apply H. left.
Qed.

Lemma keeps_e_orderedlist el parent :
  deep_ok conv el → keeps (e_orderedlist conv el parent).
Proof.
  intros H d st0 st [] st' Hinv Hrun. unfold e_orderedlist in Hrun.
  rewrite bind_gets in Hrun.
  apply bind_Ok_inv in Hrun as ([] & st1 & H1 & Hrun).
  apply (keeps_supports_only _ _ d st0) in H1; [|done].
  rewrite bind_gets, bind_modify in Hrun.
  apply bind_Ok_inv in Hrun as (n & st2 & H2 & Hrun).
  assert (Hd1 : _ordered_list_depth st1 = d) by apply H1.
  rewrite Hd1 in H2.
  apply (keeps_block _ _ _ H (d + 1)%Z st0) in H2; [|by apply (inv_set_depth d)].
  rewrite bind_gets in Hrun.
  apply bind_Ok_inv in Hrun as ([] & st3 & H3 & Hrun).
  apply (keeps_setitem _ _ _ _ _ _ _ _ H2) in H3.
  apply bind_Ok_inv in Hrun as ([] & st4 & H4 & Hrun).
  apply (keeps_setitem _ _ _ _ _ _ _ _ H3) in H4.
  apply bind_Ok_inv in Hrun as ([] & st5 & H5 & Hrun).
  apply (keeps_setitem _ _ _ _ _ _ _ _ H4) in H5.
  rewrite bind_gets in Hrun. unfold modify in Hrun.
  injection Hrun as <-.
  assert (Hd5 : _ordered_list_depth st5 = (d + 1)%Z) by apply H5.
  rewrite Hd5. replace (d + 1 - 1)%Z with d by lia.
  by apply (inv_set_depth (d + 1)%Z).
Qed.

Ltac handler := keeps_tac; eauto using deep_ok_child with keeps.

Lemma keeps_e_chapter el parent : deep_ok conv el → keeps (e_chapter conv el parent).
Proof. intros H. unfold e_chapter. handler. Qed.
Hint Resolve keeps_e_chapter : keeps.

Lemma keeps_e_sect1 el parent : deep_ok conv el → keeps (e_sect1 conv el parent).
Proof. intros H. unfold e_sect1. handler. Qed.
Hint Resolve keeps_e_sect1 : keeps.

Lemma keeps_e_sect2 el parent : deep_ok conv el → keeps (e_sect2 conv el parent).
Proof. intros H. unfold e_sect2. handler. Qed.
Hint Resolve keeps_e_sect2 : keeps.

Lemma keeps_e_sect3 el parent : deep_ok conv el → keeps (e_sect3 conv el parent).
Proof. intros H. unfold e_sect3. handler. Qed.
Hint Resolve keeps_e_sect3 : keeps.

Lemma keeps_e_section el parent : deep_ok conv el → keeps (e_section conv el parent).
Proof. intros H. unfold e_section. handler. Qed.
Hint Resolve keeps_e_section : keeps.

Lemma keeps_e_topic_def el parent : deep_ok conv el → keeps (e_topic_def conv el parent).
Proof. intros H. unfold e_topic_def. handler. Qed.
Hint Resolve keeps_e_topic_def : keeps.

Lemma keeps_e_preface el parent : deep_ok conv el → keeps (e_preface conv el parent).
Proof. intros H. unfold e_preface. handler. Qed.
Hint Resolve keeps_e_preface : keeps.

Lemma keeps_e_appendix el parent : deep_ok conv el → keeps (e_appendix conv el parent).
Proof. intros H. unfold e_appendix. handler. Qed.
Hint Resolve keeps_e_appendix : keeps.

Lemma keeps_e_title el parent : deep_ok conv el → keeps (e_title conv el parent).
Proof. intros H. unfold e_title. handler. Qed.
Hint Resolve keeps_e_title : keeps.

Lemma keeps_e_book el parent : deep_ok conv el → keeps (e_book conv el parent).
Proof. intros H. unfold e_book. handler. Qed.
Hint Resolve keeps_e_book : keeps.

Lemma keeps_e_article el parent : deep_ok conv el → keeps (e_article conv el parent).
Proof. intros H. unfold e_article. handler. Qed.
Hint Resolve keeps_e_article : keeps.

Lemma keeps_e_topic el parent : deep_ok conv el → keeps (e_topic conv el parent).
Proof. intros H. unfold e_topic. handler. Qed.
Hint Resolve keeps_e_topic : keeps.

Lemma keeps_e_blockquote el parent : deep_ok conv el → keeps (e_blockquote conv el parent).
Proof. intros H. unfold e_blockquote. handler. Qed.
Hint Resolve keeps_e_blockquote : keeps.

Lemma keeps_e_epigraph el parent : deep_ok conv el → keeps (e_epigraph conv el parent).
Proof. intros H. unfold e_epigraph. handler. Qed.
Hint Resolve keeps_e_epigraph : keeps.

Lemma keeps_e_sidebar el parent : deep_ok conv el → keeps (e_sidebar conv el parent).
Proof. intros H. unfold e_sidebar. handler. Qed.
Hint Resolve keeps_e_sidebar : keeps.

Lemma keeps_e_para el parent : deep_ok conv el → keeps (e_para conv el parent).
Proof. intros H. unfold e_para. handler. Qed.
Hint Resolve keeps_e_para : keeps.

Lemma keeps_e_formalpara el parent : deep_ok conv el → keeps (e_formalpara conv el parent).
Proof. intros H. unfold e_formalpara. handler. Qed.
Hint Resolve keeps_e_formalpara : keeps.

Lemma keeps_e_simpara el parent : deep_ok conv el → keeps (e_simpara conv el parent).
Proof. intros H. unfold e_simpara. handler. Qed.
Hint Resolve keeps_e_simpara : keeps.

Lemma keeps_e_note el parent : deep_ok conv el → keeps (e_note conv el parent).
Proof. intros H. unfold e_note. handler. Qed.
Hint Resolve keeps_e_note : keeps.

Lemma keeps_e_caution el parent : deep_ok conv el → keeps (e_caution conv el parent).
Proof. intros H. unfold e_caution. handler. Qed.
Hint Resolve keeps_e_caution : keeps.

Lemma keeps_e_important el parent : deep_ok conv el → keeps (e_important conv el parent).
Proof. intros H. unfold e_important. handler. Qed.
Hint Resolve keeps_e_important : keeps.

Lemma keeps_e_tip el parent : deep_ok conv el → keeps (e_tip conv el parent).
Proof. intros H. unfold e_tip. handler. Qed.
Hint Resolve keeps_e_tip : keeps.

Lemma keeps_e_warning el parent : deep_ok conv el → keeps (e_warning conv el parent).
Proof. intros H. unfold e_warning. handler. Qed.
Hint Resolve keeps_e_warning : keeps.

Lemma keeps_concat_method el parent : deep_ok conv el → keeps (concat_method conv el parent).
Proof. intros H. unfold concat_method. handler. Qed.
Hint Resolve keeps_concat_method : keeps.

Lemma keeps_block_method el parent : deep_ok conv el → keeps (block_method conv el parent).
Proof. intros H. unfold block_method. handler. Qed.
Hint Resolve keeps_block_method : keeps.

Lemma keeps_e_informalexample el parent : deep_ok conv el → keeps (e_informalexample conv el parent).
Proof. intros H. unfold e_informalexample. handler. Qed.
Hint Resolve keeps_e_informalexample : keeps.

Lemma keeps_e_literallayout el parent : deep_ok conv el → keeps (e_literallayout conv el parent).
Proof. intros H. unfold e_literallayout. handler. Qed.
Hint Resolve keeps_e_literallayout : keeps.

Lemma keeps_e_screen el parent : deep_ok conv el → keeps (e_screen conv el parent).
Proof. intros H. unfold e_screen. handler. Qed.
Hint Resolve keeps_e_screen : keeps.

Lemma keeps_e_programlisting el parent : deep_ok conv el → keeps (e_programlisting conv el parent).
Proof. intros H. unfold e_programlisting. handler. Qed.
Hint Resolve keeps_e_programlisting : keeps.

Lemma keeps_e_glosslist el parent : deep_ok conv el → keeps (e_glosslist conv el parent).
Proof. intros H. unfold e_glosslist. handler. Qed.
Hint Resolve keeps_e_glosslist : keeps.

Lemma keeps_e_glossentry el parent : deep_ok conv el → keeps (e_glossentry conv el parent).
Proof. intros H. unfold e_glossentry. handler. Qed.
Hint Resolve keeps_e_glossentry : keeps.

Lemma keeps_e_glossterm el parent : deep_ok conv el → keeps (e_glossterm conv el parent).
Proof. intros H. unfold e_glossterm. handler. Qed.
Hint Resolve keeps_e_glossterm : keeps.

Lemma keeps_e_glossdef el parent : deep_ok conv el → keeps (e_glossdef conv el parent).
Proof. intros H. unfold e_glossdef. handler. Qed.
Hint Resolve keeps_e_glossdef : keeps.

Lemma keeps_e_itemizedlist el parent : deep_ok conv el → keeps (e_itemizedlist conv el parent).
Proof. intros H. unfold e_itemizedlist. handler. Qed.
Hint Resolve keeps_e_itemizedlist : keeps.

Lemma keeps_e_listitem el parent : deep_ok conv el → keeps (e_listitem conv el parent).
Proof. intros H. unfold e_listitem. handler. Qed.
Hint Resolve keeps_e_listitem : keeps.

Lemma keeps_e_variablelist el parent : deep_ok conv el → keeps (e_variablelist conv el parent).
Proof. intros H. unfold e_variablelist. handler. Qed.
Hint Resolve keeps_e_variablelist : keeps.

Lemma keeps_e_emphasis el parent : deep_ok conv el → keeps (e_emphasis conv el parent).
Proof. intros H. unfold e_emphasis. handler. Qed.
Hint Resolve keeps_e_emphasis : keeps.

Lemma keeps_e_phrase el parent : deep_ok conv el → keeps (e_phrase conv el parent).
Proof. intros H. unfold e_phrase. handler. Qed.
Hint Resolve keeps_e_phrase : keeps.

Lemma keeps_e_citetitle el parent : deep_ok conv el → keeps (e_citetitle conv el parent).
Proof. intros H. unfold e_citetitle. handler. Qed.
Hint Resolve keeps_e_citetitle : keeps.

Lemma keeps_e_replaceable el parent : deep_ok conv el → keeps (e_replaceable conv el parent).
Proof. intros H. unfold e_replaceable. handler. Qed.
Hint Resolve keeps_e_replaceable : keeps.

Lemma keeps_e_literal el parent : deep_ok conv el → keeps (e_literal conv el parent).
Proof. intros H. unfold e_literal. handler. Qed.
Hint Resolve keeps_e_literal : keeps.

Lemma keeps_e_code el parent : deep_ok conv el → keeps (e_code conv el parent).
Proof. intros H. unfold e_code. handler. Qed.
Hint Resolve keeps_e_code : keeps.

Lemma keeps_e_keycap el parent : deep_ok conv el → keeps (e_keycap conv el parent).
Proof. intros H. unfold e_keycap. handler. Qed.
Hint Resolve keeps_e_keycap : keeps.

Lemma keeps_e_application el parent : deep_ok conv el → keeps (e_application conv el parent).
Proof. intros H. unfold e_application. handler. Qed.
Hint Resolve keeps_e_application : keeps.

Lemma keeps_e_systemitem el parent : deep_ok conv el → keeps (e_systemitem conv el parent).
Proof. intros H. unfold e_systemitem. handler. Qed.
Hint Resolve keeps_e_systemitem : keeps.

Lemma keeps_e_prompt el parent : deep_ok conv el → keeps (e_prompt conv el parent).
Proof. intros H. unfold e_prompt. handler. Qed.
Hint Resolve keeps_e_prompt : keeps.

Lemma keeps_e_filename el parent : deep_ok conv el → keeps (e_filename conv el parent).
Proof. intros H. unfold e_filename. handler. Qed.
Hint Resolve keeps_e_filename : keeps.

Lemma keeps_e_command el parent : deep_ok conv el → keeps (e_command conv el parent).
Proof. intros H. unfold e_command. handler. Qed.
Hint Resolve keeps_e_command : keeps.

Lemma keeps_e_option el parent : deep_ok conv el → keeps (e_option conv el parent).
Proof. intros H. unfold e_option. handler. Qed.
Hint Resolve keeps_e_option : keeps.

Lemma keeps_e_envar el parent : deep_ok conv el → keeps (e_envar conv el parent).
Proof. intros H. unfold e_envar. handler. Qed.
Hint Resolve keeps_e_envar : keeps.

Lemma keeps_e_cmdsynopsis el parent : keeps (e_cmdsynopsis el parent).
Proof. unfold e_cmdsynopsis. handler. Qed.
Hint Resolve keeps_e_cmdsynopsis : keeps.

Lemma keeps_e_firstterm el parent : deep_ok conv el → keeps (e_firstterm conv el parent).
Proof. intros H. unfold e_firstterm. handler. Qed.
Hint Resolve keeps_e_firstterm : keeps.

Lemma keeps_e_userinput el parent : deep_ok conv el → keeps (e_userinput conv el parent).
Proof. intros H. unfold e_userinput. handler. Qed.
Hint Resolve keeps_e_userinput : keeps.

Lemma keeps_e_subscript el parent : deep_ok conv el → keeps (e_subscript conv el parent).
Proof. intros H. unfold e_subscript. handler. Qed.
Hint Resolve keeps_e_subscript : keeps.

Lemma keeps_e_superscript el parent : deep_ok conv el → keeps (e_superscript conv el parent).
Proof. intros H. unfold e_superscript. handler. Qed.
Hint Resolve keeps_e_superscript : keeps.

Lemma keeps_e_quote el parent : deep_ok conv el → keeps (e_quote conv el parent).
Proof. intros H. unfold e_quote. handler. Qed.
Hint Resolve keeps_e_quote : keeps.

Lemma keeps_e_footnote el parent : deep_ok conv el → keeps (e_footnote conv el parent).
Proof. intros H. unfold e_footnote. handler. Qed.
Hint Resolve keeps_e_footnote : keeps.

Lemma keeps_e_ulink el parent : deep_ok conv el → keeps (e_ulink conv el parent).
Proof. intros H. unfold e_ulink. handler. Qed.
Hint Resolve keeps_e_ulink : keeps.

Lemma keeps_e_xref el parent : keeps (e_xref el parent).
Proof. unfold e_xref. handler. Qed.
Hint Resolve keeps_e_xref : keeps.

Lemma keeps_e_link el parent : deep_ok conv el → keeps (e_link conv el parent).
Proof. intros H. unfold e_link. handler. Qed.
Hint Resolve keeps_e_link : keeps.

Lemma keeps_e_indexterm el parent : keeps (e_indexterm el parent).
Proof. unfold e_indexterm, index_see, realias. handler. Qed.
Hint Resolve keeps_e_indexterm : keeps.

Lemma keeps_e_inlineequation el parent : deep_ok conv el → keeps (e_inlineequation conv el parent).
Proof. intros H. unfold e_inlineequation. handler. Qed.
Hint Resolve keeps_e_inlineequation : keeps.

Lemma keeps_e_equation el parent : deep_ok conv el → keeps (e_equation conv el parent).
Proof. intros H. unfold e_equation. handler. Qed.
Hint Resolve keeps_e_equation : keeps.

Lemma keeps_e_mathphrase el parent : deep_ok conv el → keeps (e_mathphrase conv el parent).
Proof. intros H. unfold e_mathphrase. handler. Qed.
Hint Resolve keeps_e_mathphrase : keeps.

Lemma keeps_e_refentry el parent : deep_ok conv el → keeps (e_refentry conv el parent).
Proof. intros H. unfold e_refentry. handler. Qed.
Hint Resolve keeps_e_refentry : keeps.

Lemma keeps_e_refsect1 el parent : deep_ok conv el → keeps (e_refsect1 conv el parent).
Proof. intros H. unfold e_refsect1. handler. Qed.
Hint Resolve keeps_e_refsect1 : keeps.

Lemma keeps_e_refname el parent : keeps (e_refname el parent).
Proof. unfold e_refname. handler. Qed.
Hint Resolve keeps_e_refname : keeps.

Lemma keeps_e_funcparams el parent : deep_ok conv el → keeps (e_funcparams conv el parent).
Proof. intros H. unfold e_funcparams. handler. Qed.
Hint Resolve keeps_e_funcparams : keeps.

Lemma keeps_e_parameter el parent : deep_ok conv el → keeps (e_parameter conv el parent).
Proof. intros H. unfold e_parameter. handler. Qed.
Hint Resolve keeps_e_parameter : keeps.

Lemma keeps_e_anchor el parent : keeps (e_anchor el parent).
Proof. unfold e_anchor. handler. Qed.
Hint Resolve keeps_e_anchor : keeps.

Lemma keeps_nop el parent : keeps (nop el parent).
Proof. unfold nop. handler. Qed.
Hint Resolve keeps_nop : keeps.

Lemma keeps_e_varlistentry el parent :
  deep_ok conv el → keeps (e_varlistentry conv el parent).
Proof.
  unfold e_varlistentry. intros H. keeps_tac.
  - eauto using deep_ok_child with keeps.
  - apply keeps_with_find; [|apply keeps_ret]. intros c Hc.
    keeps_tac. eauto using deep_ok_child with keeps.
Qed.

Lemma keeps_e_funcprototype el parent :
  deep_ok conv el → keeps (e_funcprototype conv el parent).
Proof.
  unfold e_funcprototype. intros H. keeps_tac.
  - apply keeps_with_find; [|apply keeps_raise]. intros c Hc.
    apply H. by apply height_child.
  - apply keeps_paramdefs. intros i p Hi. apply H. by apply height_child.
Qed.
Hint Resolve keeps_e_orderedlist keeps_e_varlistentry keeps_e_funcprototype : keeps.

Lemma keeps_methods el parent name m :
  deep_ok conv el → (name, m) ∈ methods conv el parent → keeps m.
Proof.
  intros H Hin. unfold methods in Hin.
  repeat (apply elem_of_cons in Hin as [Hin|Hin];
          [injection Hin as _ ->; solve [auto with keeps]|]).
  by apply elem_of_nil in Hin.
Qed.

Lemma keeps_method name el parent m :
  deep_ok conv el → method conv name el parent = Some m → keeps m.
Proof.
  intros H Hm. unfold method in Hm.
  destruct (List.find _ _) as [[name' m']|] eqn:Hfind; [|discriminate].
  injection Hm as <-.
  apply find_some in Hfind as [Hin _].
  eapply keeps_methods; [done|]. by apply list_elem_of_In.
Qed.

Lemma keeps_conv_body el parent :
  deep_ok conv el → keeps (_conv_body conv el parent).
Proof.
  intros H. unfold _conv_body.
  destruct (etree.is_ProcessingInstruction el); [apply keeps_info|].
  apply keeps_bind; [keeps_tac|]. intros [|]; [keeps_tac|].
  apply keeps_bind; [unfold resolve; keeps_tac|]. intros r.
  apply keeps_bind; [keeps_tac|]. intros _.
  apply keeps_bind; [|intros _; keeps_tac].
  destruct (r.2 ≫= _) as [m|] eqn:Hm.
  - destruct r.2 as [name|]; [|done]. simpl in Hm. by eapply keeps_method.
  - unfold unhandled, warn_unhandled. keeps_tac.
Qed.

End keeps_handlers.

Lemma keeps_conv el parent : keeps (_conv el parent).
Proof.
  remember (S (etree.height el)) as n eqn:Hn.
  assert (Hlt : (etree.height el < n)%nat) by lia. clear Hn.
  revert el parent Hlt. induction n as [|n IH]; intros el parent Hlt; [lia|].
  rewrite _conv_unfold. apply keeps_conv_body.
  intros i p Hi. apply IH. lia.
Qed.

(** ** What the node-creating steps do to the store *)

Lemma alter_app_new {A} (f : A → A) (h : list A) (x : A) (r : list A) (n : nat) :
  length h = n → alter f n (h ++ x :: r) = h ++ f x :: r.
Proof.
  intros <-. replace (length h) with (length h + 0)%nat by lia.
  by rewrite alter_app_r.
Qed.



Lemma lookup_alter_same {A} (f : A → A) (h : list A) (l : nat) :
  alter f l h !! l = f <$> h !! l.
Proof. apply list_lookup_alter_eq. Qed.

Local Arguments alter : simpl never.
Local Arguments list_alter : simpl never.

Ltac len := repeat (rewrite length_app || rewrite length_alter); simpl; lia.

Ltac heap_norm :=
  repeat match goal with
  | |- context [alter ?f ?n (?h ++ ?x :: ?r)] =>
      rewrite (alter_app_new f h x r n) by len
  | |- context [alter ?f ?l (?h ++ ?r)] =>
      rewrite (alter_app_l f h r l) by len
  | |- context [length (_ ++ _)] => rewrite length_app; simpl length
  | |- context [length (alter _ _ _)] => rewrite length_alter
  | |- context [(?a ++ ?b) ++ ?c] => rewrite <- (app_assoc a b c); cbn [app]
  | |- context [(_ + 1)%nat] => rewrite Nat.add_1_r
  end.

(** [node] and [create] with a class: a new node of that class at the next
    location, appended to the parent. *)
Lemma node_new_node parent K dk xml_id st :
  (parent < length (the_heap st))%nat →
  ∃ st' attrs,
    node parent (Some K) dk xml_id None st = Ok (length (the_heap st), st') ∧
    the_heap st' =
      alter (nodes.append (length (the_heap st))) parent (the_heap st) ++
      [new_element K attrs [] parent] ∧
    same_context st st'.
Proof.
  destruct st as [[h rep ar af ir] nhn nht sv stk anc th lm tm d lv ns ida].
  unfold the_heap, messages, same_context, new_element. simpl. intros Hp.
  unfold node, create_node, setitem, update, modify_doc, modify, alloc, iadd,
    gets, ret, mbind, M_bind. simpl.
  assert (Hx : ∀ {T} (a : T), match xml_id with nodes.PNone | _ => a end = a).
  { intros. by destruct xml_id. }
  rewrite Hx. clear Hx.
  assert (Hids : ∀ v, nodes.getitem (nodes.new_node K "") "ids" = nodes.PList [] ∧
                      nodes.getitem (nodes.setitem "ids" v (nodes.new_node K "")) "ids" = v).
  { intros v. unfold nodes.getitem, nodes.setitem, nodes.new_node. simpl.
    rewrite lookup_insert_eq. split; [|done].
    destruct (nodes.fixed_text K); [|done]. by rewrite lookup_singleton_ne. }
  destruct (nodes.truthy _), anc; simpl;
    eexists; eexists; (split; [reflexivity|]); simpl;
    (split; [heap_norm; unfold ids_append;
             rewrite ?(proj2 (Hids _)), ?(proj1 (Hids (nodes.PList []))); reflexivity|done]).
Qed.

Lemma create_new_node el parent K dk st :
  (parent < length (the_heap st))%nat →
  ∃ st' attrs,
    create el parent (Some K) dk st = Ok (length (the_heap st), st') ∧
    the_heap st' =
      alter (nodes.append (length (the_heap st))) parent (the_heap st) ++
      [new_element K attrs [] parent] ∧
    same_context st st'.
Proof.
  intros Hp. unfold create. rewrite bind_gets. by apply node_new_node.
Qed.

Lemma add_text_new_node parent s st :
  (parent < length (the_heap st))%nat →
  ∃ st',
    add_text parent s st = Ok (tt, st') ∧
    the_heap st' =
      alter (nodes.append (length (the_heap st))) parent (the_heap st) ++
      [new_text (mangled st s) parent] ∧
    _ordered_list_depth st' = _ordered_list_depth st ∧
    _ns st' = _ns st ∧ _id_attrib st' = _id_attrib st ∧
    messages st' = messages st.
Proof.
  destruct st as [[h rep ar af ir] nhn nht sv stk anc th lm tm d lv ns ida].
  unfold the_heap, mangled, new_text, messages. simpl. intros Hp.
  unfold add_text, text, update, modify_doc, modify, alloc, iadd,
    gets, ret, mbind, M_bind. simpl.
  destruct tm; simpl; eexists; (split; [reflexivity|]); simpl;
    (split; [heap_norm; reflexivity|done]).
Qed.

Lemma inline_text_new_nodes s parent c xml_id st :
  (parent < length (the_heap st))%nat →
  ∃ st' attrs,
    inline_text s parent (Some c) xml_id None st = Ok (length (the_heap st), st') ∧
    the_heap st' =
      alter (nodes.append (length (the_heap st))) parent (the_heap st) ++
      [ new_element nodes.inline attrs [S (length (the_heap st))] parent;
        new_text (mangled st s) (length (the_heap st)) ] ∧
    attrs !! "classes" = Some (nodes.PList [nodes.PStr c]) ∧
    messages st' = messages st.
Proof.
  intros Hparent. unfold inline_text.
  destruct (node_new_node parent nodes.inline nodes.inline xml_id st Hparent)
    as (st1 & attrs & Hn & Hh1 & Hctx).
  rewrite (bind_Ok _ _ _ _ _ Hn).
  set (n := length (the_heap st)) in *.
  set (base := alter (nodes.append n) parent (the_heap st)) in *.
  assert (Hbase : length base = n) by apply length_alter.
  change (setitem n "classes" (nodes.PList [nodes.PStr c]))
    with (modify (λ c0, set_the_document
                          (set_heap (alter (nodes.setitem "classes" (nodes.PList [nodes.PStr c]))
                                       n (heap (the_document c0)))
                             (the_document c0)) c0)).
  rewrite bind_modify.
  set (st2 := set_the_document _ st1).
  assert (Hh2 : the_heap st2 =
                base ++ [new_element nodes.inline
                           (<["classes" := nodes.PList [nodes.PStr c]]> attrs) [] parent]).
  { unfold st2, the_heap in *. simpl. rewrite Hh1.
    by rewrite (alter_app_new _ base _ [] n Hbase). }
  destruct (add_text_new_node n s st2) as (st3 & Ha & Hh3 & _ & _ & _ & Hmsg).
  { rewrite Hh2, length_app, Hbase. simpl. lia. }
  exists st3, (<["classes" := nodes.PList [nodes.PStr c]]> attrs).
  split; [by rewrite (bind_Ok _ _ _ _ _ Ha)|].
  split; [|split; [apply lookup_insert_eq|]].
  - rewrite Hh3, Hh2, length_app, Hbase. simpl. rewrite Nat.add_1_r.
    rewrite (alter_app_new _ base _ [] n Hbase).
    rewrite <- app_assoc. simpl.
    assert (Hm : mangled st2 s = mangled st s).
    { unfold mangled. change (_text_mangle_fn st2) with (_text_mangle_fn st1).
      by destruct Hctx as (-> & _). }
    by rewrite Hm.
  - rewrite Hmsg. change (messages st2) with (messages st1). apply Hctx.
Qed.

Lemma add_messages_nil st : add_messages [] st = st.
Proof. destruct st as [[] ]. unfold add_messages. simpl. by rewrite app_nil_r. Qed.

Lemma add_messages_app a b st :
  add_messages (a ++ b) st = add_messages b (add_messages a st).
Proof. destruct st as [[] ]. unfold add_messages. simpl. by rewrite app_assoc. Qed.

Lemma supports_only_messages el tags st st1 :
  supports_only el tags st = Ok (tt, st1) → ∃ ms, st1 = add_messages ms st.
Proof.
  unfold supports_only. generalize (etree.getchildren el) as cs.
  intros cs. revert st. induction cs as [|i cs IH]; intros st H; simpl in H.
  - exists []. unfold ret in H. injection H as <-. by rewrite add_messages_nil.
  - apply bind_Ok_inv in H as ([] & st2 & H2 & H).
    apply IH in H as [ms ->].
    assert (∃ ms', st2 = add_messages ms' st) as [ms' ->].
    { destruct tags as [s|l].
      - destruct (etree.tag i) as [t| |]; try discriminate.
        destruct (PyStr.contains s t).
        + exists []. unfold ret in H2. injection H2 as <-. by rewrite add_messages_nil.
        + eexists [_]. unfold warning, report, modify_doc, modify in H2.
          injection H2 as <-. reflexivity.
      - case_bool_decide.
        + exists []. unfold ret in H2. injection H2 as <-. by rewrite add_messages_nil.
        + eexists [_]. unfold warning, report, modify_doc, modify in H2.
          injection H2 as <-. reflexivity. }
    exists (ms' ++ ms). by rewrite add_messages_app.
Qed.

Lemma supports_only_tuple el l st :
  supports_only el (TagsTuple l) st = Ok (tt, add_messages (skipped_warnings el l) st).
Proof.
  unfold supports_only, skipped_warnings.
  generalize (etree.getchildren el) as cs. intros cs. revert st.
  induction cs as [|i cs IH]; intros st; simpl.
  - by rewrite add_messages_nil.
  - case_bool_decide; simpl.
    + unfold mbind, M_bind, ret. by rewrite IH.
    + unfold mbind, M_bind. unfold warning, report, modify_doc, modify. rewrite IH.
      do 2 f_equal. symmetry. apply (add_messages_app [_] _ st).
Qed.

Lemma skipped_warnings_nil el l :
  Forall (λ i, etree.tag i ∈ etree.TagName <$> l) (etree.getchildren el) →
  skipped_warnings el l = [].
Proof.
  unfold skipped_warnings. induction 1 as [|i cs Hi _ IH]; simpl; [done|].
  by rewrite bool_decide_eq_true_2.
Qed.

Lemma heap_le_lookup h h' l n :
  heap_le h h' → h !! l = Some n →
  ∃ n', h' !! l = Some n' ∧ nodes.n_klass n' = nodes.n_klass n ∧
        nodes.n_text n' = nodes.n_text n ∧
        nodes.n_children n `prefix_of` nodes.n_children n'.
Proof. intros H Hl. destruct (H _ _ Hl) as (n' & ? & ? & ? & ?). eauto. Qed.


Lemma inv_heap_le d st st' : inv d st st' → heap_le (the_heap st) (the_heap st').
Proof. by intros (? & _). Qed.

Lemma klass_after_setitem (h : list nodes.onode) (l : nat) k v (x : nat) :
  nodes.n_klass <$> alter (nodes.setitem k v) l h !! x = nodes.n_klass <$> h !! x.
Proof.
  destruct (decide (l = x)) as [->|].
  - rewrite lookup_alter_same. by destruct (h !! x).
  - by rewrite list_lookup_alter_ne.
Qed.




(** [block] with a class: the new node is at the next location, under the
    parent; the children are converted into it in the state [create]
    leaves, and what follows only extends the store. *)
Lemma block_new_node el parent K st n st' :
  (parent < length (the_heap st))%nat →
  block _conv el parent (Some K) st = Ok (n, st') →
  n = length (the_heap st) ∧
  ∃ st1 st2 attrs,
    the_heap st1 =
      alter (nodes.append n) parent (the_heap st) ++
      [new_element K attrs [] parent] ∧
    same_context st st1 ∧
    concat_into _conv el n false st1 = Ok (tt, st2) ∧
    inv (_ordered_list_depth st2) st2 st'.
Proof.
  intros Hp H. unfold block, concat in H.
  destruct (create_new_node el parent K nodes.compound st Hp)
    as (st1 & attrs & Hc & Hh & Hctx).
  apply bind_Ok_inv in H as (n1 & st3 & H1 & H).
  apply bind_Ok_inv in H1 as (n2 & st1' & Hc' & H1).
  rewrite Hc in Hc'. injection Hc' as <- <-.
  apply bind_Ok_inv in H1 as ([] & st2 & H2 & H1).
  unfold ret in H1. injection H1 as <- <-.
  assert (Hn : n = length (the_heap st) ∧ inv (_ordered_list_depth st2) st2 st').
  { rewrite bind_gets in H. destruct (_save st2) as [|x sv].
    - unfold ret in H. injection H as <- <-. split; [done|apply inv_refl].
    - apply bind_Ok_inv in H as ([] & st4 & H4 & H).
      rewrite bind_modify in H. unfold ret in H. injection H as <- <-.
      split; [done|].
      assert (Hk : keeps (for_each (λ i : loc, iadd parent i) (x :: sv))) by keeps_tac.
      pose proof (Hk _ st2 st2 tt st4 (inv_refl st2) H4) as (? & ? & ? & ?).
      by repeat split. }
  destruct Hn as [-> Hinv].
  split; [done|]. exists st1, st2, attrs. by repeat (split; [done|]).
Qed.

Lemma emit_blank parent o st :
  blank o → emit parent (PyStr.lstrip <$> o) st = Ok (tt, st).
Proof. destruct o as [s|]; simpl; [intros ->|]; done. Qed.





Lemma prefix_app (p s : string) : String.prefix p (p +:+ s) = true.
Proof.
  induction p as [|c p IH]; simpl; [by destruct s|].
  destruct (ascii_dec c c); [done|congruence].
Qed.

Lemma resolve_default_ns el st t :
  PyStr.starts_character t →
  etree.tag el = etree.TagName (_ns st +:+ t) →
  resolve el st = Ok ((t, Some ("e_" +:+ t)), st).
Proof.
  intros Ht Htag. unfold resolve. rewrite bind_gets, Htag. simpl.
  unfold PyStr.startswith. by rewrite prefix_app, drop_app.
Qed.

(** The names of the methods are ASCII. *)
Lemma method_starts_character conv t el p m :
  method conv ("e_" +:+ t) el p = Some m → PyStr.starts_character t.
Proof.
  unfold method. intros H.
  destruct (List.find _ (methods conv el p)) as [[n m']|] eqn:Hf; [|done].
  apply find_some in Hf as [Hin Heq]. simpl in Heq.
  apply String.eqb_eq in Heq. subst n.
  assert (Hall : Forall (λ n, match n with
                              | String _ (String _ t') => PyStr.starts_character t'
                              | _ => True
                              end) (map fst (methods conv el p))).
  { simpl. repeat constructor. }
  rewrite Forall_forall in Hall.
  apply (Hall ("e_" +:+ t)). apply list_elem_of_In, in_map_iff.
  by exists ("e_" +:+ t, m').
Qed.

(** [_conv] on an element of the default namespace that has a method. *)
Lemma conv_dispatch el p st t m :
  etree.tag el = etree.TagName (_ns st +:+ t) →
  method _conv ("e_" +:+ t) el p = Some m →
  _conv el (Some p) st =
    match m (push t st) with
    | Ok (_, st') => Ok (tt, pop st')
    | Raise e => Raise e
    end.
Proof.
  intros Htag Hm. rewrite _conv_unfold. unfold _conv_body.
  unfold etree.is_ProcessingInstruction, etree.is_Comment. rewrite Htag. simpl.
  unfold mbind at 1. unfold M_bind at 1. unfold ret at 1.
  unfold mbind at 1. unfold M_bind at 1.
  rewrite (resolve_default_ns el st t (method_starts_character _ _ _ _ _ Hm) Htag).
  rewrite bind_modify. simpl. rewrite Hm.
  unfold mbind, M_bind, push. destruct (m _) as [[[] st']|]; done.
Qed.





(** ** Ordered lists *)

(** When [e_orderedlist] returns under an existing parent, the node it
    appended to the parent is an [enumerated_list] numbered after the
    counter, and the counter is back at the value it had before the
    call. *)
Lemma e_orderedlist_appended el parent st st' :
  (parent < length (the_heap st))%nat →
  e_orderedlist _conv el parent st = Ok (tt, st') →
  let depth := (_ordered_list_depth st + 1)%Z in
  let n := length (the_heap st) in
  klass_of st' n = Some nodes.enumerated_list ∧
  n ∈ children_of st' parent ∧
  (depth = 1%Z → attr_of st' n "enumtype" = Some (nodes.PStr "arabic")) ∧
  ((2 ≤ depth)%Z → attr_of st' n "enumtype" = Some (nodes.PStr "loweralpha")) ∧
  _ordered_list_depth st' = _ordered_list_depth st.
Proof.
  intros Hp H depth n. unfold e_orderedlist in H.
  rewrite bind_gets in H.
  apply bind_Ok_inv in H as ([] & st1 & H1 & H).
  apply supports_only_messages in H1 as [ms ->].
  rewrite bind_gets, bind_modify in H.
  apply bind_Ok_inv in H as (n' & st2 & H2 & H).
  apply block_new_node in H2 as (-> & sta & stb & attrs & Hh & Hctx & Hci & Hinv);
    [|exact Hp].
  change (the_heap (set_ordered_list_depth _ _)) with (the_heap st) in *.
  fold n in Hh, Hci, H.
  assert (Hinv' : inv (_ordered_list_depth sta) sta st2).
  { pose proof (keeps_concat_into _conv el n false
                  (λ i p _, keeps_conv i p) _ sta sta tt stb (inv_refl sta) Hci)
      as (? & Hd & ? & ?).
    destruct Hinv as (? & ? & ? & ?). repeat split; try congruence.
    by eapply heap_le_trans. }
  destruct Hinv' as (Hle & Hd & _ & _).
  assert (Hda : _ordered_list_depth sta = depth) by apply Hctx.
  rewrite Hda in Hd. clear Hinv Hci stb.
  rewrite bind_gets, Hd in H.
  unfold setitem, update, modify_doc, modify, gets, mbind, M_bind in H.
  simpl in H. injection H as <-.
  unfold klass_of, attr_of, children_of, the_heap in *. simpl.
  rewrite !lookup_alter_same.
  assert (Hn : heap (the_document sta) !! n =
               Some (new_element nodes.enumerated_list attrs [] parent)).
  { rewrite Hh, lookup_app_r by len. rewrite length_alter, Nat.sub_diag. done. }
  destruct (heap_le_lookup _ _ _ _ Hle Hn) as (nd & Hnd & Hk & _ & _).
  rewrite Hnd. simpl.
  destruct (lookup_lt_is_Some_2 (heap (the_document st)) parent Hp) as [pn Hpn].
  assert (Hpa : heap (the_document sta) !! parent = Some (nodes.append n pn)).
  { rewrite Hh, lookup_app_l by len. rewrite lookup_alter_same, Hpn. done. }
  destruct (heap_le_lookup _ _ _ _ Hle Hpa) as (pn' & Hpn' & _ & _ & Hpre).
  split; [by rewrite Hk|]. split.
  - assert (parent ≠ n) by (unfold n; lia).
    rewrite !list_lookup_alter_ne by done. rewrite Hpn'. simpl.
    eapply elem_of_prefix; [|exact Hpre]. simpl. apply elem_of_app. right. by left.
  - rewrite lookup_insert_ne by done. rewrite lookup_insert_ne by done.
    rewrite lookup_insert_eq.
    split; [|split; [|lia]].
    + intros ->. done.
    + intros Hge. destruct (Z.eqb_spec depth 1); [lia|done].
Qed.

(** The list inside the item of [nested_orderedlist], at depth 2, is
    numbered with lowercase letters. *)
Lemma nested_orderedlist_loweralpha :
  ∃ st',
    convert_root nested_orderedlist (init false) = Ok (tt, st') ∧
    klass_of st' 5 = Some nodes.enumerated_list ∧
    attr_of st' 1 "enumtype" = Some (nodes.PStr "arabic") ∧
    attr_of st' 5 "enumtype" = Some (nodes.PStr "loweralpha") ∧
    _ordered_list_depth st' = 0%Z.
Proof.
  eexists. split; [vm_compute; reflexivity|].
  repeat split; vm_compute; reflexivity.
Qed.

(** ** Bullet recovery *)




(** A bullet outside ASCII is one character: U+2022 is recorded whole,
    and removed whole from the text. *)
Lemma bullet_character_recovered :
  ∃ st',
    convert_root (item_list "• first item") (init false) = Ok (tt, st') ∧
    attr_of st' 1 "bullet" = Some (nodes.PStr "•") ∧
    text_of st' 4 = Some "first item".
Proof.
  eexists. split; [vm_compute; reflexivity|].
  split; vm_compute; reflexivity.
Qed.

(** The second example of the specification: no glyph, the generic
    bullet, the text as it is. *)
Lemma item_without_glyph :
  ∃ st',
    convert_root (item_list "Item without glyph") (init false) = Ok (tt, st') ∧
    attr_of st' 1 "bullet" = Some (nodes.PStr "bullet") ∧
    text_of st' 4 = Some "Item without glyph".
Proof.
  eexists. split; [vm_compute; reflexivity|].
  split; vm_compute; reflexivity.
Qed.

(** ** Index terms *)

(** The entry for Foo and Bar carries the angle brackets of the format
    string, so its text is not [single: Foo; Bar]; and a term without
    primary whose only child is a [tertiary] emits two diagnostics. *)
Lemma indexterm_text_has_brackets :
  (∃ st',
     convert_root indexterm_Foo_Bar (init false) = Ok (tt, st') ∧
     children_of st' document_loc = [1]%nat ∧
     klass_of st' 1 = Some nodes.inline ∧
     attr_of st' 1 "classes" = Some (nodes.PList [nodes.PStr "index"]) ∧
     children_of st' 1 = [2]%nat ∧
     text_of st' 2 = Some "<single: Foo; Bar>" ∧
     text_of st' 2 ≠ Some "single: Foo; Bar") ∧
  (∃ st',
     convert_root indexterm_tertiary_only (init false) = Ok (tt, st') ∧
     children_of st' document_loc = [] ∧
     messages st' =
       [ (WARNING, "indexterm/tertiary skipped.", 1%Z);
         (WARNING, "indexterm has no primary element", 1%Z) ]).
Proof.
  split.
  - eexists. split; [vm_compute; reflexivity|].
    repeat (split; [vm_compute; reflexivity|]).
    vm_compute. discriminate.
  - eexists. split; [vm_compute; reflexivity|].
    split; vm_compute; reflexivity.
Qed.

(** C8, amended: for an index term with a primary and a secondary child
    and no [see] or [seealso] child, under an existing parent,
    [e_indexterm] appends exactly one node to the parent, an [inline] of
    class "index" whose only child is a text node with the string
    [<single: P; Q>], [P] and [Q] being the markup-free texts of the two
    children; the significance "preferred" puts "! " in front of the whole
    string.  For a term with no primary child it creates no node and
    emits the warning "indexterm has no primary element" once, after one
    "skipped" warning for each child that is not a primary, secondary,
    see or seealso, and there is none when all the children are of these
    kinds. *)
Theorem indexterm_single_entry el parent st :
  (∀ pri_el sec_el P Q sp1 ids1 sp2 ids2,
     (parent < length (the_heap st))%nat →
     find el (_ns st +:+ "primary") = Some pri_el →
     find el (_ns st +:+ "see") = None →
     find el (_ns st +:+ "seealso") = None →
     find el (_ns st +:+ "secondary") = Some sec_el →
     no_markup_text (_id_attrib st) pri_el [] false = Ok (P, sp1, ids1) →
     no_markup_text (_id_attrib st) sec_el ids1 false = Ok (Q, sp2, ids2) →
     ∃ st' attrs,
       e_indexterm el parent st = Ok (tt, st') ∧
       the_heap st' =
         alter (nodes.append (length (the_heap st))) parent (the_heap st) ++
         [ new_element nodes.inline attrs [S (length (the_heap st))] parent;
           new_text (mangled st (single_entry el P Q)) (length (the_heap st)) ] ∧
       attrs !! "classes" = Some (nodes.PList [nodes.PStr "index"]) ∧
       messages st' = messages st ++ skipped_warnings el (index_tags (_ns st))) ∧
  (find el (_ns st +:+ "primary") = None →
     e_indexterm el parent st =
       Ok (tt, add_messages
                 (skipped_warnings el (index_tags (_ns st)) ++
                  [(WARNING, "indexterm has no primary element", etree.sourceline el)])
                 st)) ∧
  (Forall (λ i, etree.tag i ∈ etree.TagName <$> index_tags (_ns st))
     (etree.getchildren el) →
   skipped_warnings el (index_tags (_ns st)) = []).
Proof.
  split; [|split].
  - intros pri_el sec_el P Q sp1 ids1 sp2 ids2 Hparent Hp Hsee Hseealso Hsec Hpri Hsecond.
    unfold e_indexterm. mrun.
    rewrite (bind_Ok _ _ _ _ _ (supports_only_tuple _ _ _)).
    rewrite Hp. fold (index_tags (_ns st)).
    set (st1 := add_messages _ st).
    rewrite Hpri. unfold index_see. mrun.
    change (_ns st1) with (_ns st). rewrite Hsee. mrun.
    change (_ns st1) with (_ns st). rewrite Hseealso. mrun. simpl.
    rewrite Hsec. mrun. simpl. rewrite Hsecond. mrun. simpl.
    unfold realias. simpl. mrun. simpl.
    destruct (inline_text_new_nodes
                (if (PyStr.lower (default "" (etree.get el "significance")) =? "preferred")%string
                 then "! " +:+ "<single: " +:+ P +:+ "; " +:+ Q +:+ ">"
                 else "<single: " +:+ P +:+ "; " +:+ Q +:+ ">")
                parent "index" (nodes.PList ids2) st1 Hparent)
      as (st' & attrs & Hrun & Hh & Hattrs & Hmsg).
    exists st', attrs. rewrite (bind_Ok _ _ _ _ _ Hrun).
    split; [done|]. split; [|split; [done|]].
    + rewrite Hh. unfold single_entry, preferred, mangled. done.
    + rewrite Hmsg. done.
  - intros Hp. unfold e_indexterm. mrun.
    rewrite (bind_Ok _ _ _ _ _ (supports_only_tuple _ _ _)).
    rewrite Hp. unfold index_tags. rewrite add_messages_app. reflexivity.
  - apply skipped_warnings_nil.
Qed.


Lemma indexterm_single_entry_witness :
  ∃ st' attrs,
    e_indexterm indexterm_Foo_Bar document_loc (init false) = Ok (tt, st') ∧
    the_heap st' =
      alter (nodes.append 1%nat) document_loc (the_heap (init false)) ++
      [ new_element nodes.inline attrs [2%nat] document_loc;
        new_text "<single: Foo; Bar>" 1%nat ] ∧
    attrs !! "classes" = Some (nodes.PList [nodes.PStr "index"]) ∧
    messages st' = [].
Proof.
  destruct (proj1 (indexterm_single_entry indexterm_Foo_Bar document_loc (init false))
              primary_Foo secondary_Bar "Foo" "Bar" true [] true [])
    as (st' & attrs & Hrun & Hh & Hattrs & Hmsg).
  - unfold document_loc, the_heap; simpl; lia.
  - reflexivity.
  - reflexivity.
  - reflexivity.
  - reflexivity.
  - reflexivity.
  - reflexivity.
  - exists st', attrs. split; [exact Hrun|]. split; [exact Hh|].
    split; [exact Hattrs|]. rewrite Hmsg. reflexivity.
Defined.

(** ** Structural passthrough *)








(** * Further properties of the code *)

(** ** Text without markup *)

Lemma no_markup_text_spec id_attrib el :
  ∀ ids ns,
    if has_empty_text el
    then no_markup_text id_attrib el ids ns = Raise IndexError
    else ∃ t sp, no_markup_text id_attrib el ids ns =
                   Ok (t, sp, ids ++ collected_ids id_attrib el).
Proof.
  remember (etree.height el) as h eqn:Hh.
  revert el Hh. induction (lt_wf h) as [h _ IH]. intros el -> ids ns.
  destruct el as [tg a tx tl ln anc cs].
  assert (Hcs : ∀ c, c ∈ cs → ∀ ids ns,
             if has_empty_text c
             then no_markup_text id_attrib c ids ns = Raise IndexError
             else ∃ t sp, no_markup_text id_attrib c ids ns =
                            Ok (t, sp, ids ++ collected_ids id_attrib c)).
  { intros c Hc. eapply IH; [|reflexivity].
    apply (height_child (etree.Element tg a tx tl ln anc cs) c Hc). }
  clear IH.
  cbn [has_empty_text collected_ids no_markup_text etree.text etree.getchildren].
  unfold etree.get. cbn [etree.attrib].
  set (ids0 := match a !! id_attrib with
               | Some xml_id => ids ++ (nodes.PStr <$> PyStr.chars xml_id)
               | None => ids
               end).
  assert (Hids0 : ids0 = ids ++ match a !! id_attrib with
               | Some xml_id => nodes.PStr <$> PyStr.chars xml_id
               | None => []
               end).
  { unfold ids0. destruct (a !! id_attrib); [done|by rewrite app_nil_r]. }
  match goal with
  | |- context [fix loop (cs : list etree.SourceElement) (text : string)
                  (need_space : bool) (ids : list nodes.pyval) {struct cs} := _] =>
      set (loop := fix loop (cs : list etree.SourceElement) (text : string)
                  (need_space : bool) (ids : list nodes.pyval) {struct cs}
                  : result (string * bool * list nodes.pyval) := _)
  end.
  assert (Hloop : ∀ text ns ids,
             if existsb has_empty_text cs
             then loop cs text ns ids = Raise IndexError
             else ∃ t sp, loop cs text ns ids =
                            Ok (t, sp, ids ++ flat_map (collected_ids id_attrib) cs)).
  { clear Hids0. clearbody ids0. clear ids0. 
    induction cs as [|c cs IHcs]; intros text ns' ids'.
    - simpl. rewrite app_nil_r. eauto.
    - cbn [existsb flat_map]. 
      assert (Hc := Hcs c ltac:(left) ids' ns').
      assert (IHcs' := IHcs ltac:(intros; apply Hcs; by right)). clear IHcs.
      cbn [loop]. fold loop.
      destruct (has_empty_text c); cbn [orb].
      + rewrite Hc. reflexivity.
      + destruct Hc as (t & sp & ->).
        rewrite app_assoc.
        destruct (etree.tail c) as [tl'|]; [|apply IHcs'].
        destruct (PyStr.last _); apply IHcs'. }
  destruct tx as [t|].
  - destruct t as [|c t].
    + reflexivity.
    + cbn [orb].
      destruct (PyStr.last (String c t)) as [ch|] eqn:Hl;
        [|apply last_None in Hl; discriminate].
      specialize (Hloop (String c t) (negb (PyStr.is_space ch)) ids0).
      destruct (existsb has_empty_text cs); [exact Hloop|].
      destruct Hloop as (t' & sp & ->). rewrite Hids0, <- app_assoc. eauto.
  - cbn [orb]. specialize (Hloop "" ns ids0).
    destruct (existsb has_empty_text cs); [exact Hloop|].
    destruct Hloop as (t' & sp & ->). rewrite Hids0, <- app_assoc. eauto.
Qed.

(** ** Children a handler supports *)

Lemma supports_only_str_raise cs el s st :
  Exists (λ i, ¬ is_element i) cs →
  for_each
    (fun i =>
       match etree.tag i with
       | etree.TagName t =>
           if PyStr.contains s t then ret tt
           else warning el (skipped_message el i)
       | _ => raise TypeError
       end) cs st = Raise TypeError.
Proof.
  intros H. revert st. induction H as [i cs Hi|i cs _ IH]; intros st; simpl.
  - destruct (etree.tag i) as [t| |] eqn:Ht.
    + destruct Hi. by exists t.
    + reflexivity.
    + reflexivity.
  - destruct (etree.tag i) as [t| |]; try reflexivity.
    destruct (PyStr.contains s t).
    + rewrite bind_ret. apply IH.
    + unfold warning, report, modify_doc. rewrite bind_modify. apply IH.
Qed.

Lemma supports_only_string_raises el s st :
  Exists (λ i, ¬ is_element i) (etree.getchildren el) →
  supports_only el (TagsStr s) st = Raise TypeError.
Proof. apply supports_only_str_raise. Qed.

(** X9: an element with a comment or a processing instruction among
    its children makes the handlers that give [supports_only] a
    parenthesized string raise TypeError: [i.tag not in tags] is then a
    substring test with a function on the left. *)
Theorem list_with_comment_raises conv el parent st :
  Exists (λ i, ¬ is_element i) (etree.getchildren el) →
  e_itemizedlist conv el parent st = Raise TypeError ∧
  e_orderedlist conv el parent st = Raise TypeError ∧
  e_variablelist conv el parent st = Raise TypeError ∧
  e_glosslist conv el parent st = Raise TypeError ∧
  e_inlineequation conv el parent st = Raise TypeError.
Proof.
  intros H.
  repeat split;
    (unfold e_itemizedlist, e_orderedlist, e_variablelist, e_glosslist,
       e_inlineequation;
     rewrite bind_gets; apply bind_Raise; by apply supports_only_string_raises).
Qed.

Lemma list_with_comment_raises_witness :
  e_orderedlist _conv
    (elem "orderedlist" [] None None
       [ etree.Element etree.TagComment ∅ (Some " note ") None 1 [] [];
         elem "listitem" [] None None [] ])
    document_loc (init false) = Raise TypeError.
Proof.
  apply list_with_comment_raises.
  apply Exists_cons_hd. intros [t Ht]. discriminate Ht.
Defined.

Lemma supports_only_str_ok el s st :
  Forall is_element (etree.getchildren el) →
  supports_only el (TagsStr s) st = Ok (tt, add_messages (skipped_warnings_str el s) st).
Proof.
  unfold supports_only, skipped_warnings_str.
  generalize (etree.getchildren el) as cs. intros cs H. revert st.
  induction H as [|i cs [t Ht] _ IH]; intros st; simpl.
  - by rewrite add_messages_nil.
  - rewrite Ht. simpl. destruct (PyStr.contains s t); simpl.
    + rewrite bind_ret. apply IH.
    + unfold warning, report, modify_doc. rewrite bind_modify, IH.
      do 2 f_equal. symmetry. apply (add_messages_app [_] _ st).
Qed.

Lemma contains_app_r s a p : PyStr.contains s p = true → PyStr.contains (a +:+ s) p = true.
Proof.
  intros H. induction a as [|c a IH]; [exact H|].
  change (String c a +:+ s) with (String c (a +:+ s)).
  cbn [PyStr.contains]. rewrite IH. apply orb_true_r.
Qed.

Lemma contains_substring a t b : PyStr.contains (a +:+ t +:+ b) t = true.
Proof.
  apply contains_app_r. pose proof (prefix_app t b) as H.
  destruct (t +:+ b); cbn [PyStr.contains]; by rewrite H.
Qed.

(** a string argument accepts every substring of the string *)
(** X10: with a string of tags, [supports_only] changes nothing when
    the tag of every child is a substring of the string: the supported
    tag, and any part of it as well. *)
Theorem supports_only_string_accepts_substrings el s st :
  Forall (λ i, ∃ a t b, etree.tag i = etree.TagName t ∧ s = a +:+ t +:+ b)
    (etree.getchildren el) →
  supports_only el (TagsStr s) st = Ok (tt, st).
Proof.
  intros H. rewrite supports_only_str_ok.
  - replace (skipped_warnings_str el s) with (@nil (level * string * Z)).
    + by rewrite add_messages_nil.
    + unfold skipped_warnings_str.
      induction H as [|i cs (a & t & b & Ht & ->) _ IH]; simpl; [done|].
      rewrite Ht. simpl. rewrite contains_substring. simpl. exact IH.
  - eapply Forall_impl; [exact H|]. intros i (a & t & b & Ht & _). by exists t.
Qed.

Lemma supports_only_string_accepts_substrings_witness :
  supports_only
    (elem "orderedlist" [] None None
       [ elem "item" [] None None []; elem "list" [] None None [];
         elem "listitem" [] None None [] ])
    (TagsStr "listitem") (init false) = Ok (tt, init false).
Proof.
  apply supports_only_string_accepts_substrings.
  repeat constructor.
  - by exists "list", "item", "".
  - by exists "", "list", "item".
  - by exists "", "listitem", "".
Defined.

(** ** Elements that raise, and elements that leave no trace *)

(** X11: [_conv] on a [cmdsynopsis] element raises, IndexError when a
    text of the subtree is the empty string and TypeError otherwise:
    [e_cmdsynopsis] gives [no_markup] the class where the parent goes
    and the parent where the class goes. *)
Theorem cmdsynopsis_never_returns el parent st :
  etree.tag el = etree.TagName (_ns st +:+ "cmdsynopsis") →
  _conv el (Some parent) st =
    Raise (if has_empty_text el then IndexError else TypeError).
Proof.
  intros Htag.
  rewrite (conv_dispatch el parent st "cmdsynopsis" (e_cmdsynopsis el parent) Htag eq_refl).
  unfold e_cmdsynopsis.
  destruct (new_comment "cmdsynopsis" (push "cmdsynopsis" st)) as [[c st1]|e] eqn:H1;
    [|discriminate H1].
  rewrite (bind_Ok _ _ _ _ _ H1).
  destruct (iadd parent c st1) as [[[] st2]|e] eqn:H2; [|discriminate H2].
  rewrite (bind_Ok _ _ _ _ _ H2).
  rewrite bind_gets.
  pose proof (no_markup_text_spec (_id_attrib st2) el [] false) as Hs.
  destruct (has_empty_text el).
  - unfold mbind, M_bind, lift. by rewrite Hs.
  - destruct Hs as (t & sp & Hs). unfold mbind, M_bind, lift. by rewrite Hs.
Qed.

Lemma cmdsynopsis_never_returns_witness :
  convert_root (elem "cmdsynopsis" [] (Some "ls") None []) (init false) = Raise TypeError.
Proof.
  apply (cmdsynopsis_never_returns (elem "cmdsynopsis" [] (Some "ls") None [])
           document_loc (init false)).
  reflexivity.
Defined.

Lemma pop_push t st : pop (push t st) = st.
Proof.
  destruct st. unfold pop, push, set_stack. simpl. by rewrite removelast_last.
Qed.

(** X12: a [parameter] or a [mathphrase] converted with no element
    open raises IndexError: [self._stack[-2]] on a stack of one. *)
Theorem stack_subscript_at_root el parent st t :
  _stack st = [] →
  t = "parameter" ∨ t = "mathphrase" →
  etree.tag el = etree.TagName (_ns st +:+ t) →
  _conv el (Some parent) st = Raise IndexError.
Proof.
  intros Hst [-> | ->] Htag.
  - rewrite (conv_dispatch el parent st "parameter" (e_parameter _conv el parent) Htag eq_refl).
    unfold e_parameter. rewrite bind_modify. unfold stack_second_last.
    rewrite bind_assoc, bind_gets. simpl. rewrite Hst. reflexivity.
  - rewrite (conv_dispatch el parent st "mathphrase" (e_mathphrase _conv el parent) Htag eq_refl).
    unfold e_mathphrase. unfold stack_second_last.
    rewrite bind_assoc, bind_gets. simpl. rewrite Hst. reflexivity.
Qed.

Lemma stack_subscript_at_root_witness :
  convert_root (elem "parameter" [] (Some "x") None []) (init false) = Raise IndexError.
Proof.
  apply (stack_subscript_at_root (elem "parameter" [] (Some "x") None [])
           document_loc (init false) "parameter");
    [reflexivity | by left | reflexivity].
Defined.

(** X13: [_conv] on an [index], [info], [refentryinfo] or [refmeta]
    element returns the state it was given, whatever the element
    holds: the binding in force for each of them is [nop]. *)
Theorem ignored_elements_leave_no_trace el parent st t :
  t ∈ ignored_tags →
  etree.tag el = etree.TagName (_ns st +:+ t) →
  _conv el (Some parent) st = Ok (tt, st).
Proof.
  intros Ht Htag. unfold ignored_tags in Ht.
  assert (Hm : method _conv ("e_" +:+ t) el parent = Some (nop el parent)).
  { repeat (apply elem_of_cons in Ht as [->|Ht]; [reflexivity|]).
    by apply elem_of_nil in Ht. }
  rewrite (conv_dispatch el parent st t _ Htag Hm).
  unfold nop, ret. by rewrite pop_push.
Qed.

Lemma ignored_elements_leave_no_trace_witness :
  convert_root
    (elem "info" [] None None [elem "title" [] (Some "T") None []]) (init false)
  = Ok (tt, init false).
Proof.
  apply (ignored_elements_leave_no_trace _ document_loc (init false) "info").
  - unfold ignored_tags. set_solver.
  - reflexivity.
Defined.

(** X14: a [title] converted while [_title_handler] is [None] is
    dropped with its content: the state comes back unchanged. *)
Theorem title_without_handler_dropped el parent st :
  _title_handler st = None →
  etree.tag el = etree.TagName (_ns st +:+ "title") →
  _conv el (Some parent) st = Ok (tt, st).
Proof.
  intros Hh Htag.
  rewrite (conv_dispatch el parent st "title" (e_title _conv el parent) Htag eq_refl).
  unfold e_title. rewrite bind_gets. simpl. rewrite Hh. unfold ret.
  by rewrite pop_push.
Qed.

Lemma title_without_handler_dropped_witness :
  convert_root (elem "title" [] (Some "Lost") None []) (init false) = Ok (tt, init false).
Proof.
  apply (title_without_handler_dropped _ document_loc (init false)); reflexivity.
Defined.

(** X15: [_conv] on a processing instruction appends one INFO message
    with the line of the instruction and changes nothing else. *)
Theorem processing_instruction_only_logged el parent st :
  etree.tag el = etree.TagPI →
  _conv el parent st =
    Ok (tt, add_messages
              [(INFO, "ignoring ProcessingInstruction for now", etree.sourceline el)] st).
Proof.
  intros Htag. rewrite _conv_unfold. unfold _conv_body, etree.is_ProcessingInstruction.
  rewrite Htag. reflexivity.
Qed.

Lemma processing_instruction_only_logged_witness :
  convert_root (etree.Element etree.TagPI ∅ (Some "php echo") None 7 [] []) (init false) =
  Ok (tt, add_messages [(INFO, "ignoring ProcessingInstruction for now", 7%Z)] (init false)).
Proof.
  apply (processing_instruction_only_logged
           (etree.Element etree.TagPI ∅ (Some "php echo") None 7 [] [])).
  reflexivity.
Defined.

(** ** Comments *)

Lemma alloc_run x st :
  alloc x st = Ok (length (the_heap st), with_heap (the_heap st ++ [x]) st).
Proof. reflexivity. Qed.

Lemma iadd_run p c st :
  iadd p c st =
    Ok (tt, with_heap (alter (nodes.append c) p
                         (alter (nodes.set_parent p) c (the_heap st))) st).
Proof. destruct st as [[]]. reflexivity. Qed.

Lemma with_heap_with_heap h1 h2 st : with_heap h2 (with_heap h1 st) = with_heap h2 st.
Proof. by destruct st as [[]]. Qed.

Lemma the_heap_with_heap h st : the_heap (with_heap h st) = h.
Proof. reflexivity. Qed.

(** X16: [_conv] on a comment whose text is not blank (something is
    left of it once the white space of Python's [strip] is removed),
    under an existing parent, appends to the parent a comment node with
    the text as written, [xml:space] set to "preserve" and one text child
    with the same text, and changes nothing else: the pending text
    transform is neither applied nor consumed. *)
Theorem comment_becomes_comment_node el parent st t :
  etree.tag el = etree.TagComment →
  etree.text el = Some t →
  PyStr.strip t ≠ "" →
  (parent < length (the_heap st))%nat →
  let L := length (the_heap st) in
  _conv el (Some parent) st =
    Ok (tt, with_heap
              (alter (nodes.append L) parent (the_heap st) ++
               [comment_node t (S L) parent; new_text t L]) st).
Proof.
  intros Htag Htext Hne Hp L. rewrite _conv_unfold.
  unfold _conv_body, etree.is_ProcessingInstruction, etree.is_Comment.
  rewrite Htag, Htext. change (default document_loc (Some parent)) with parent.
  rewrite bind_ret.
  destruct (String.eqb_spec (PyStr.strip t) "") as [He|_]; [done|]. cbn [negb].
  assert (Ht : String.eqb t "" = false).
  { destruct t; [done|reflexivity]. }
  unfold comment, new_comment. rewrite Htext.
  change (default "" (Some t)) with t. rewrite Ht.
  unfold DocbookConverter.Text.
  rewrite !bind_assoc.
  rewrite (bind_Ok _ _ _ _ _ (alloc_run _ _)). cbv beta iota.
  rewrite !bind_assoc.
  rewrite (bind_Ok _ _ _ _ _ (alloc_run _ _)).
  erewrite bind_Ok by apply iadd_run.
  rewrite bind_ret, bind_assoc.
  erewrite bind_Ok by apply iadd_run.
  rewrite !bind_ret. unfold ret.
  rewrite !with_heap_with_heap, !the_heap_with_heap.
  do 3 f_equal. fold L.
  heap_norm.
  reflexivity.
Qed.

Lemma comment_becomes_comment_node_witness :
  convert_root (etree.Element etree.TagComment ∅ (Some " to do ") None 3 [] [])
    (init false) =
  Ok (tt, with_heap
            [ nodes.append 1 (nodes.new_node nodes.document "");
              comment_node " to do " 2 document_loc;
              new_text " to do " 1 ] (init false)).
Proof.
  apply (comment_becomes_comment_node
           (etree.Element etree.TagComment ∅ (Some " to do ") None 3 [] [])
           document_loc (init false) " to do ").
  - reflexivity.
  - reflexivity.
  - vm_compute. discriminate.
  - unfold document_loc, the_heap. simpl. lia.
Defined.

(** ** The state around a conversion *)

Lemma log_grows_refl d : log_grows d d.
Proof. by repeat split. Qed.

Lemma log_grows_set_heap d h : log_grows d (set_heap h d).
Proof. by repeat split. Qed.

Lemma log_grows_trans d1 d2 d3 : log_grows d1 d2 → log_grows d2 d3 → log_grows d1 d3.
Proof. intros (? & ? & ? & ?) (? & ? & ? & ?). repeat split; by etrans. Qed.

Lemma frame_refl st : frame st st.
Proof.
  do 3 (split; [done|]). split; [set_solver|].
  split; [apply log_grows_refl|apply heap_le_refl].
Qed.

Lemma frame_trans st1 st2 st3 : frame st1 st2 → frame st2 st3 → frame st1 st3.
Proof.
  intros (? & ? & ? & ? & ? & ?) (? & ? & ? & ? & ? & ?).
  split; [congruence|]. split; [congruence|]. split; [congruence|].
  split; [by etrans|]. split; [by eapply log_grows_trans|by eapply heap_le_trans].
Qed.

Lemma steady_refl st : steady st st.
Proof. split; [apply frame_refl|done]. Qed.

Lemma steady_trans st1 st2 st3 : steady st1 st2 → steady st2 st3 → steady st1 st3.
Proof.
  intros [? ?] [? ?]. split; [by eapply frame_trans|auto].
Qed.

Lemma calm_steady st st' : calm st st' → steady st st'.
Proof. by intros [? _]. Qed.

Lemma calm_refl st : calm st st.
Proof. split; [apply steady_refl|]. by split. Qed.

Lemma calm_trans st1 st2 st3 : calm st1 st2 → calm st2 st3 → calm st1 st3.
Proof.
  intros (? & ? & ?) (? & ? & ?). split; [by eapply steady_trans|].
  split; [auto|congruence].
Qed.

Lemma klass_stable st st' c K :
  heap_le (the_heap st) (the_heap st') → klass_of st c = Some K → klass_of st' c = Some K.
Proof.
  unfold klass_of. intros Hle Hk.
  destruct (the_heap st !! c) as [n|] eqn:Hn; [|discriminate].
  destruct (heap_le_lookup _ _ _ _ Hle Hn) as (n' & -> & Hk' & _).
  simpl in *. congruence.
Qed.

Lemma calm_intro st st' :
  _stack st' = _stack st → _title_handler st' = _title_handler st →
  _not_handled_ns st' = _not_handled_ns st →
  _not_handled_tags st ⊆ _not_handled_tags st' →
  log_grows (the_document st) (the_document st') →
  heap_le (the_heap st) (the_heap st') →
  (∀ c pos, occurs_at st' c pos → occurs_at st c pos) →
  _save st' = _save st →
  calm st st'.
Proof.
  intros Hs Ht Hn Htg Hlog Hle Hocc Hsave.
  split; [|by split].
  split; [by repeat (split; [done|])|]. unfold is_footnote.
  intros (H1 & H2 & H3). split; [|split].
  - intros c p q Hp Hq Hne. eapply klass_stable; [done|].
    apply (H1 c p q); auto.
  - intros c p Hp. apply Hocc, H2 in Hp.
    pose proof (heap_le_length _ _ Hle). lia.
  - rewrite Hsave. eapply Forall_impl; [exact H3|].
    intros c Hc. by eapply klass_stable.
Qed.

Lemma quiet_preserves {A} (m : M A) : quiet m → preserves m.
Proof. intros H st a st' Hrun. by apply calm_steady, (H st a). Qed.

Lemma quiet_ret {A} (a : A) : quiet (ret a).
Proof. intros st a' st' H. unfold ret in H. simplify_eq. apply calm_refl. Qed.

Lemma quiet_raise {A} e : quiet (@raise A e).
Proof. intros st a' st' H. discriminate. Qed.

Lemma quiet_gets {A} (f : Converter → A) : quiet (gets f).
Proof. intros st a' st' H. unfold gets in H. simplify_eq. apply calm_refl. Qed.

Lemma quiet_lift {A} (r : result A) : quiet (lift r).
Proof. intros st a' st' H. apply lift_Ok_inv in H as [_ ->]. apply calm_refl. Qed.

Lemma quiet_bind {A B} (m : M A) (f : A → M B) :
  quiet m → (∀ a, quiet (f a)) → quiet (m ≫= f).
Proof.
  intros Hm Hf st b st' H.
  apply bind_Ok_inv in H as (a & st1 & H1 & H2).
  eapply calm_trans; [by eapply Hm|by eapply Hf].
Qed.

Lemma quiet_modify (f : Converter → Converter) :
  (∀ c, the_document (f c) = the_document c ∧
        _stack (f c) = _stack c ∧
        _title_handler (f c) = _title_handler c ∧
        _not_handled_ns (f c) = _not_handled_ns c ∧
        _save (f c) = _save c ∧
        _not_handled_tags c ⊆ _not_handled_tags (f c)) →
  quiet (modify f).
Proof.
  intros Hf st [] st' H. unfold modify in H. simplify_eq.
  destruct (Hf st) as (Hdoc & ? & ? & ? & ? & ?).
  apply calm_intro; [done|done|done|done| | | |done].
  - rewrite Hdoc. apply log_grows_refl.
  - unfold the_heap. rewrite Hdoc. apply heap_le_refl.
  - unfold occurs_at, children_of, the_heap. by rewrite Hdoc.
Qed.

Lemma quiet_modify_doc (f : Document → Document) :
  (∀ d, heap (f d) = heap d ∧ log_grows d (f d)) → quiet (modify_doc f).
Proof.
  intros Hf st [] st' H. unfold modify_doc, modify in H. simplify_eq.
  destruct (Hf (the_document st)) as [Hh Hl].
  apply calm_intro; [done|done|done|done|done| | |done].
  - unfold the_heap. simpl. rewrite Hh. apply heap_le_refl.
  - unfold occurs_at, children_of, the_heap. simpl. by rewrite Hh.
Qed.

Lemma children_app_childless (h : list nodes.onode) x l :
  nodes.n_children x = [] →
  from_option nodes.n_children [] ((h ++ [x]) !! l) =
  from_option nodes.n_children [] (h !! l).
Proof.
  intros Hx. destruct (decide (l < length h)%nat).
  - by rewrite lookup_app_l.
  - rewrite lookup_app_r by lia. rewrite (lookup_ge_None_2 h l) by lia.
    destruct (l - length h)%nat; simpl; [exact Hx|done].
Qed.

Lemma children_alter_attr f (h : list nodes.onode) l x :
  attr_only f →
  from_option nodes.n_children [] (alter f l h !! x) =
  from_option nodes.n_children [] (h !! x).
Proof.
  intros Hf. destruct (decide (l = x)) as [->|].
  - rewrite list_lookup_alter_eq. destruct (h !! x); simpl; [apply Hf|done].
  - by rewrite list_lookup_alter_ne.
Qed.

Lemma attr_only_mono f : attr_only f → node_mono f.
Proof.
  intros Hf n. destruct (Hf n) as (? & ? & Hc). repeat split; try done.
  by rewrite Hc.
Qed.

Lemma quiet_alloc n : nodes.n_children n = [] → quiet (alloc n).
Proof.
  intros Hn st l st' H. unfold alloc in H. simplify_eq.
  apply calm_intro; [done|done|done|done| | | |done].
  - apply log_grows_set_heap.
  - apply heap_le_alloc.
  - unfold occurs_at, children_of, the_heap. simpl. intros c pos.
    by rewrite children_app_childless.
Qed.

Lemma quiet_update l f : attr_only f → quiet (update l f).
Proof.
  intros Hf st [] st' H. unfold update, modify_doc, modify in H. simplify_eq.
  apply calm_intro; [done|done|done|done| | | |done].
  - apply log_grows_set_heap.
  - unfold the_heap. simpl. by apply heap_le_alter, attr_only_mono.
  - unfold occurs_at, children_of, the_heap. simpl. intros c pos.
    by rewrite children_alter_attr.
Qed.

Lemma quiet_for_each {A} (body : A → M unit) (l : list A) :
  (∀ x, x ∈ l → quiet (body x)) → quiet (for_each body l).
Proof.
  induction l as [|x l IH]; intros Hb; simpl.
  - apply quiet_ret.
  - apply quiet_bind; [apply Hb; left|intros _].
    apply IH. intros y Hy. apply Hb. by right.
Qed.

Lemma attr_only_setitem k v : attr_only (nodes.setitem k v).
Proof. by intros n. Qed.
Lemma attr_only_set_parent p : attr_only (nodes.set_parent p).
Proof. by intros n. Qed.
Lemma attr_only_ids_append v : attr_only (ids_append v).
Proof.
  intros n. unfold ids_append. by destruct (nodes.getitem n "ids").
Qed.
Lemma attr_only_realias_node ids : attr_only (realias_node ids).
Proof.
  intros n. unfold realias_node.
  by destruct (nodes.getitem n "ids") as [| |[|]].
Qed.

Create HintDb steady discriminated.
#[local] Hint Resolve quiet_ret quiet_raise quiet_gets quiet_lift : steady.
#[local] Hint Resolve attr_only_setitem attr_only_set_parent attr_only_ids_append attr_only_realias_node : steady.

Ltac quiet_step :=
  match goal with
  | |- quiet (_ ≫= _) => apply quiet_bind; [|intros ?]
  | |- quiet (ret _) => apply quiet_ret
  | |- quiet (raise _) => apply quiet_raise
  | |- quiet (gets _) => apply quiet_gets
  | |- quiet (lift _) => apply quiet_lift
  | |- quiet (alloc _) => apply quiet_alloc; reflexivity
  | |- quiet (modify _) =>
      apply quiet_modify; intros ?; repeat split; first [done | set_solver]
  | |- quiet (modify_doc _) =>
      apply quiet_modify_doc; intros ?;
      (split; [reflexivity|repeat split; first [done | by apply prefix_app_r]])
  | |- quiet (update _ _) => apply quiet_update; auto with steady
  | |- quiet (for_each _ _) => apply quiet_for_each; intros ? ?
  | |- quiet (match ?x with _ => _ end) => destruct x
  | |- quiet _ => solve [eauto with steady]
  end.

Ltac quiet_tac := repeat quiet_step.

Lemma quiet_setitem l k v : quiet (setitem l k v).
Proof. unfold setitem. quiet_tac. Qed.
Lemma quiet_report lv el s : quiet (report lv el s).
Proof. unfold report. quiet_tac. Qed.
Lemma quiet_set_id n : quiet (set_id n).
Proof. unfold set_id. quiet_tac. Qed.
#[local] Hint Resolve quiet_setitem quiet_report quiet_set_id : steady.
Lemma quiet_warning el s : quiet (warning el s).
Proof. apply quiet_report. Qed.
Lemma quiet_info el s : quiet (info el s).
Proof. apply quiet_report. Qed.
#[local] Hint Resolve quiet_warning quiet_info : steady.
Lemma quiet_note_autofootnote_ref n : quiet (note_autofootnote_ref n).
Proof. unfold note_autofootnote_ref. quiet_tac. Qed.
Lemma quiet_note_autofootnote n : quiet (note_autofootnote n).
Proof. unfold note_autofootnote. quiet_tac. Qed.
Lemma quiet_supports_only el tags : quiet (supports_only el tags).
Proof. unfold supports_only. quiet_tac. Qed.
Lemma quiet_has_only_text el p : quiet (has_only_text el p).
Proof. unfold has_only_text. quiet_tac. Qed.
Lemma quiet_create_node p k x ids : quiet (create_node p k x ids).
Proof. unfold create_node. quiet_tac. Qed.
Lemma quiet_text s : quiet (text s).
Proof. unfold text. quiet_tac. Qed.
Lemma quiet_Text s : quiet (Text s).
Proof. unfold Text. quiet_tac. Qed.
Lemma quiet_stack_second_last : quiet stack_second_last.
Proof. unfold stack_second_last. quiet_tac. Qed.
Lemma quiet_realias holders ids : quiet (realias holders ids).
Proof. unfold realias. quiet_tac. Qed.
#[local] Hint Resolve quiet_note_autofootnote_ref quiet_note_autofootnote
  quiet_supports_only quiet_has_only_text quiet_create_node quiet_text quiet_Text
  quiet_stack_second_last quiet_realias : steady.

Lemma preserves_ret {A} (a : A) : preserves (ret a).
Proof. apply quiet_preserves, quiet_ret. Qed.
Lemma preserves_raise {A} e : preserves (@raise A e).
Proof. apply quiet_preserves, quiet_raise. Qed.
Lemma preserves_gets {A} (f : Converter → A) : preserves (gets f).
Proof. apply quiet_preserves, quiet_gets. Qed.
Lemma preserves_lift {A} (r : result A) : preserves (lift r).
Proof. apply quiet_preserves, quiet_lift. Qed.

Lemma preserves_bind {A B} (m : M A) (f : A → M B) :
  preserves m → (∀ a, preserves (f a)) → preserves (m ≫= f).
Proof.
  intros Hm Hf st b st' H.
  apply bind_Ok_inv in H as (a & st1 & H1 & H2).
  eapply steady_trans; [by eapply Hm|by eapply Hf].
Qed.

Lemma preserves_for_each {A} (body : A → M unit) (l : list A) :
  (∀ x, x ∈ l → preserves (body x)) → preserves (for_each body l).
Proof.
  induction l as [|x l IH]; intros Hb; simpl.
  - apply preserves_ret.
  - apply preserves_bind; [apply Hb; left|intros _].
    apply IH. intros y Hy. apply Hb. by right.
Qed.

(** [parent += node] *)

Lemma iadd_heap p c st st' :
  iadd p c st = Ok (tt, st') →
  st' = set_the_document
          (set_heap (alter (nodes.append c) p
                       (alter (nodes.set_parent p) c (the_heap st)))
             (the_document st)) st.
Proof.
  unfold iadd, update, modify_doc, modify, mbind, M_bind. intros H.
  injection H as <-. destruct st as [[]]. reflexivity.
Qed.

Lemma iadd_frame p c st st' : iadd p c st = Ok (tt, st') → frame st st'.
Proof.
  intros H. apply iadd_heap in H as ->.
  do 3 (split; [done|]). split; [done|]. split; [apply log_grows_set_heap|].
  unfold the_heap. simpl.
  eapply heap_le_trans; apply heap_le_alter; [apply mono_set_parent|apply mono_append].
Qed.

Lemma iadd_children p c st st' l :
  iadd p c st = Ok (tt, st') →
  children_of st' l =
    if decide (l = p ∧ p < length (the_heap st))%nat
    then children_of st l ++ [c] else children_of st l.
Proof.
  intros H. apply iadd_heap in H as ->.
  unfold children_of, the_heap. simpl.
  destruct (decide (l = p)) as [->|Hne].
  - rewrite list_lookup_alter_eq.
    rewrite <- (children_alter_attr (nodes.set_parent p) (heap (the_document st)) c p)
      by apply attr_only_set_parent.
    destruct (alter (nodes.set_parent p) c (heap (the_document st)) !! p) as [n|] eqn:Hn.
    + apply lookup_lt_Some in Hn. rewrite length_alter in Hn.
      rewrite decide_True by done. reflexivity.
    + apply lookup_ge_None in Hn. rewrite length_alter in Hn.
      rewrite decide_False by lia. reflexivity.
  - rewrite list_lookup_alter_ne by done.
    rewrite children_alter_attr by apply attr_only_set_parent.
    rewrite decide_False by tauto. reflexivity.
Qed.

Lemma iadd_occurs p c st st' x pos :
  iadd p c st = Ok (tt, st') →
  occurs_at st' x pos →
  occurs_at st x pos ∨ (x = c ∧ pos = (p, length (children_of st p))).
Proof.
  intros H. unfold occurs_at. rewrite (iadd_children p c st st' _ H).
  destruct pos as [l i]. simpl.
  case_decide as Hd; [|by left].
  destruct Hd as [-> _]. intros Hl.
  apply lookup_app_Some in Hl as [Hl|[Hlen Hl]]; [by left|].
  right. destruct (i - length (children_of st p))%nat eqn:E; [|done].
  simpl in Hl. injection Hl as <-. split; [done|]. f_equal. lia.
Qed.

Lemma iadd_length p c st st' :
  iadd p c st = Ok (tt, st') → length (the_heap st') = length (the_heap st).
Proof.
  intros H. apply iadd_heap in H as ->. unfold the_heap. simpl.
  by rewrite !length_alter.
Qed.

Lemma iadd_save p c st st' : iadd p c st = Ok (tt, st') → _save st' = _save st.
Proof. intros H. by apply iadd_heap in H as ->. Qed.

Lemma is_footnote_lt st c : is_footnote st c → (c < length (the_heap st))%nat.
Proof.
  unfold is_footnote, klass_of. intros H.
  destruct (the_heap st !! c) eqn:E; [|discriminate].
  by apply lookup_lt_Some in E.
Qed.

Lemma is_footnote_stable st st' c : frame st st' → is_footnote st c → is_footnote st' c.
Proof. intros (_ & _ & _ & _ & _ & Hle). by apply klass_stable. Qed.

Lemma iadd_tidy p c st st' :
  iadd p c st = Ok (tt, st') →
  tidy st → unreferenced st c ∨ is_footnote st c → tidy st'.
Proof.
  intros H (H1 & H2 & H3) Hc.
  pose proof (iadd_frame _ _ _ _ H) as Hf.
  split; [|split].
  - intros x q1 q2 Hq1 Hq2 Hne.
    destruct (iadd_occurs _ _ _ _ _ _ H Hq1) as [Ho1|[-> ->]];
      destruct (iadd_occurs _ _ _ _ _ _ H Hq2) as [Ho2|[Hx ->]].
    + eapply is_footnote_stable; [done|]. by apply (H1 x q1 q2).
    + subst x. destruct Hc as [[_ Hc]|Hc]; [by destruct (Hc q1)|].
      by eapply is_footnote_stable.
    + destruct Hc as [[_ Hc]|Hc]; [by destruct (Hc q2)|].
      by eapply is_footnote_stable.
    + done.
  - intros x q Hq. rewrite (iadd_length _ _ _ _ H).
    destruct (iadd_occurs _ _ _ _ _ _ H Hq) as [Ho|[-> _]]; [by eapply H2|].
    destruct Hc as [[Hc _]|Hc]; [done|by apply is_footnote_lt].
  - rewrite (iadd_save _ _ _ _ H). eapply Forall_impl; [exact H3|].
    intros x. by apply is_footnote_stable.
Qed.

Lemma iadd_unreferenced p c st st' x :
  iadd p c st = Ok (tt, st') → x ≠ c → unreferenced st x → unreferenced st' x.
Proof.
  intros H Hne [Hl Ho]. split; [by rewrite (iadd_length _ _ _ _ H)|].
  intros pos Hpos.
  destruct (iadd_occurs _ _ _ _ _ _ H Hpos) as [?|[? _]]; [by eapply Ho|done].
Qed.

(** Appending a node that was just made. *)
Lemma preserves_fresh_iadd_k {B} (m : M loc) p (k : loc → M B) :
  fresh m → (∀ n, preserves (k n)) → preserves (n ← m; iadd p n;; k n).
Proof.
  intros Hm Hk st b st' H.
  apply bind_Ok_inv in H as (n & st1 & H1 & H).
  apply bind_Ok_inv in H as ([] & st2 & H2 & H).
  destruct (Hm _ _ _ H1) as [[Hf1 Ht1] Hu].
  eapply steady_trans; [|by eapply Hk].
  split.
  - eapply frame_trans; [exact Hf1|by eapply iadd_frame].
  - intros Ht. eapply iadd_tidy; [exact H2|auto|left; auto].
Qed.

Lemma preserves_fresh_iadd (m : M loc) p :
  fresh m → preserves (n ← m; iadd p n).
Proof.
  intros Hm st [] st' H.
  apply (preserves_fresh_iadd_k m p (λ _, ret tt) Hm (λ _, preserves_ret tt) st tt st').
  unfold mbind, M_bind in *. destruct (m st) as [[n st1]|]; [|done].
  destruct (iadd p n st1) as [[[] st2]|]; [|done]. exact H.
Qed.

(** A node that was just made and given back: nothing refers to it. *)
Lemma fresh_of_quiet (m : M loc) :
  quiet m →
  (∀ st n st', m st = Ok (n, st') →
     n = length (the_heap st) ∧ (n < length (the_heap st'))%nat) →
  fresh m.
Proof.
  intros Hq Hn st n st' H. destruct (Hq _ _ _ H) as (Hs & Ho & _).
  split; [done|]. intros (_ & H2 & _).
  destruct (Hn _ _ _ H) as [-> Hlt]. split; [done|].
  intros pos Hpos. apply Ho, H2 in Hpos. lia.
Qed.

Lemma create_node_result p K x ids st n st' :
  create_node p K x ids st = Ok (n, st') →
  n = length (the_heap st) ∧ klass_of st' n = Some K.
Proof.
  intros H. unfold create_node in H.
  apply bind_Ok_inv in H as (n1 & st1 & H1 & H).
  apply bind_Ok_inv in H as ([] & st2 & H2 & H).
  apply bind_Ok_inv in H as ([] & st3 & H3 & H).
  rewrite bind_gets in H.
  apply bind_Ok_inv in H as ([] & st4 & H4 & H).
  unfold ret in H. injection H as <- <-.
  assert (Hk : n1 = length (the_heap st) ∧ klass_of st1 n1 = Some K).
  { unfold alloc in H1. injection H1 as <- <-. split; [done|].
    unfold klass_of, the_heap. simpl.
    by rewrite lookup_app_r, Nat.sub_diag by lia. }
  destruct Hk as [Hn Hk]. split; [done|].
  assert (H12 : calm st1 st2).
  { refine ((_ : quiet _) st1 tt st2 H2). quiet_tac. }
  assert (H23 : calm st2 st3).
  { refine ((_ : quiet _) st2 tt st3 H3). quiet_tac. }
  assert (H34 : calm st3 st4).
  { refine ((_ : quiet _) st3 tt st4 H4). quiet_tac. }
  pose proof (calm_trans _ _ _ (calm_trans _ _ _ H12 H23) H34) as [[Hf _] _].
  eapply klass_stable; [apply Hf|exact Hk].
Qed.

Lemma klass_of_lt st c K : klass_of st c = Some K → (c < length (the_heap st))%nat.
Proof.
  unfold klass_of. intros H.
  destruct (the_heap st !! c) eqn:E; [|discriminate].
  by apply lookup_lt_Some in E.
Qed.

Lemma fresh_create_node p k x ids : fresh (create_node p k x ids).
Proof.
  apply fresh_of_quiet; [apply quiet_create_node|].
  intros st n st' H. apply create_node_result in H as [-> Hk].
  split; [done|]. by eapply klass_of_lt.
Qed.

Lemma fresh_Text s : fresh (Text s).
Proof.
  apply fresh_of_quiet; [apply quiet_Text|].
  intros st n st' H. unfold Text, alloc in H. injection H as <- <-.
  unfold the_heap. simpl. rewrite length_app. simpl. lia.
Qed.

Lemma fresh_text s : fresh (text s).
Proof.
  apply fresh_of_quiet; [apply quiet_text|].
  intros st n st' H. unfold text in H. rewrite bind_gets in H.
  destruct (_text_mangle_fn st); [rewrite bind_modify in H|];
    unfold alloc in H; injection H as <- <-;
    unfold the_heap; simpl; rewrite length_app; simpl; lia.
Qed.

Lemma fresh_new_comment s : fresh (new_comment s).
Proof.
  intros st n st' H. unfold new_comment in H.
  apply bind_Ok_inv in H as (c & st1 & H1 & H).
  apply bind_Ok_inv in H as ([] & st2 & H2 & H).
  unfold ret in H. injection H as <- <-.
  assert (Hq1 : calm st st1).
  { eapply (quiet_alloc (nodes.new_node nodes.comment s)); [reflexivity|exact H1]. }
  assert (Hc : c = length (the_heap st) ∧ (c < length (the_heap st1))%nat).
  { unfold alloc in H1. injection H1 as <- <-. unfold the_heap. simpl.
    rewrite length_app. simpl. lia. }
  assert (Hu1 : tidy st → unreferenced st1 c).
  { intros (_ & Ht2 & _). destruct Hc as [-> Hlt]. split; [done|].
    intros pos Hpos. apply Hq1, Ht2 in Hpos. lia. }
  destruct (String.eqb s "").
  - unfold ret in H2. injection H2 as <-. split; [by apply calm_steady|done].
  - apply bind_Ok_inv in H2 as (t & st3 & H3 & H2).
    destruct (fresh_Text s _ _ _ H3) as [[Hf3 Ht3] Hu3].
    assert (Ht : t = length (the_heap st1)).
    { unfold Text, alloc in H3. by injection H3 as <- <-. }
    assert (Hne : c ≠ t) by lia.
    split; [split|].
    + eapply frame_trans; [apply Hq1|]. eapply frame_trans; [exact Hf3|].
      by eapply iadd_frame.
    + intros Htidy. eapply iadd_tidy; [exact H2| |left].
      * apply Ht3. by apply Hq1.
      * apply Hu3. by apply Hq1.
    + intros Htidy. eapply iadd_unreferenced; [exact H2|done|].
      destruct (quiet_Text s _ _ _ H3) as (Hs & Ho & _).
      destruct (Hu1 Htidy) as [Hl Hno]. split.
      * destruct Hs as [(_ & _ & _ & _ & _ & Hle) _].
        apply heap_le_length in Hle. lia.
      * intros pos Hpos. by apply Ho, Hno in Hpos.
Qed.

#[local] Hint Resolve fresh_create_node fresh_text fresh_Text fresh_new_comment : steady.

(** The save-and-restore of the title handler around a computation. *)
Lemma set_title_handler_steady x st st' :
  steady (set_title_handler x st) st' →
  steady st (set_title_handler (_title_handler st) st').
Proof.
  intros [(Hs & Ht & Hn & Htg & Hl & Hle) Htidy]. split.
  - split; [exact Hs|]. split; [reflexivity|]. split; [exact Hn|].
    split; [exact Htg|]. split; [exact Hl|exact Hle].
  - intros H. exact (Htidy H).
Qed.

Lemma preserves_with_title_k {A B} x (m : M A) (k : A → M B) :
  preserves m → (∀ a, preserves (k a)) →
  preserves (save ← gets _title_handler;
             modify (set_title_handler x);;
             a ← m;
             modify (set_title_handler save);;
             k a).
Proof.
  intros Hm Hk st b st' H.
  rewrite bind_gets, bind_modify in H.
  apply bind_Ok_inv in H as (a & st1 & H1 & H).
  rewrite bind_modify in H.
  eapply steady_trans; [|by eapply Hk].
  eapply set_title_handler_steady. by eapply Hm.
Qed.

Lemma preserves_with_title {A} x (m : M A) :
  preserves m →
  preserves (save ← gets _title_handler;
             modify (set_title_handler x);;
             m;;
             modify (set_title_handler save)).
Proof.
  intros Hm st [] st' H.
  rewrite bind_gets, bind_modify in H.
  apply bind_Ok_inv in H as (a & st1 & H1 & H).
  unfold modify in H. injection H as <-.
  eapply set_title_handler_steady. by eapply Hm.
Qed.

(** The push and the pop around the call of a method. *)
Lemma push_pop_steady t st st' :
  steady (set_stack (_stack st ++ [t]) st) st' →
  steady st (set_stack (removelast (_stack st')) st').
Proof.
  intros [(Hs & Ht & Hn & Htg & Hl & Hle) Htidy]. split.
  - split.
    { simpl in *. rewrite Hs. apply removelast_last. }
    split; [exact Ht|]. split; [exact Hn|].
    split; [exact Htg|]. split; [exact Hl|exact Hle].
  - intros H. exact (Htidy H).
Qed.

Lemma preserves_with_find {A} t (k : etree.SourceElement → M A) d el :
  (∀ c, c ∈ etree.getchildren el → preserves (k c)) → preserves d →
  preserves (with_find t k d el).
Proof.
  unfold with_find. intros Hk Hd.
  induction (etree.getchildren el) as [|c cs IH]; simpl; [done|].
  destruct (has_tag t c).
  - apply Hk. left.
  - apply IH. intros c' Hc'. apply Hk. by right.
Qed.

Lemma preserves_set_save_nil : preserves (modify (set_save [])).
Proof.
  intros st [] st' H. unfold modify in H. injection H as <-. split.
  - do 3 (split; [done|]). split; [done|].
    split; [apply log_grows_refl|apply heap_le_refl].
  - intros (H1 & H2 & _). split; [exact H1|]. split; [exact H2|]. constructor.
Qed.

(** The flush of [block]: the buffered footnotes go to the parent. *)
Lemma flush_steady parent save st st' :
  for_each (λ i, iadd parent i) save st = Ok (tt, st') →
  frame st st' ∧ (tidy st → Forall (is_footnote st) save → tidy st').
Proof.
  revert st. induction save as [|c save IH]; intros st H; simpl in H.
  - unfold ret in H. injection H as <-. split; [apply frame_refl|done].
  - apply bind_Ok_inv in H as ([] & st1 & H1 & H).
    destruct (IH _ H) as [Hf Ht].
    pose proof (iadd_frame _ _ _ _ H1) as Hf1.
    split; [by eapply frame_trans|].
    intros Htidy Hall. apply Forall_cons in Hall as [Hc Hall].
    apply Ht.
    + eapply iadd_tidy; [exact H1|done|by right].
    + eapply Forall_impl; [exact Hall|]. intros x. by apply is_footnote_stable.
Qed.

Ltac fresh_iadd_step :=
  first
    [ apply preserves_fresh_iadd_k; [solve [auto with steady]|intros ?]
    | apply preserves_fresh_iadd; solve [auto with steady] ].

Ltac preserves_step :=
  lazymatch goal with
  | |- preserves (gets _title_handler ≫= _) =>
      first
        [ apply preserves_with_title_k; [|intros ?]
        | apply preserves_with_title
        | apply preserves_bind; [|intros ?] ]
  | |- preserves (create_node _ _ _ _ ≫= _) => fresh_iadd_step
  | |- preserves (text _ ≫= _) => fresh_iadd_step
  | |- preserves (Text _ ≫= _) => fresh_iadd_step
  | |- preserves (new_comment _ ≫= _) => fresh_iadd_step
  | |- preserves (_ ≫= _) => apply preserves_bind; [|intros ?]
  | |- preserves (ret _) => apply preserves_ret
  | |- preserves (raise _) => apply preserves_raise
  | |- preserves (gets _) => apply preserves_gets
  | |- preserves (lift _) => apply preserves_lift
  | |- preserves (modify (set_save [])) => apply preserves_set_save_nil
  | |- preserves (modify _) => apply quiet_preserves; quiet_tac
  | |- preserves (modify_doc _) => apply quiet_preserves; quiet_tac
  | |- preserves (update _ _) => apply quiet_preserves; quiet_tac
  | |- preserves (for_each _ _) => apply preserves_for_each; intros ? ?
  | |- preserves (match ?x with _ => _ end) => destruct x
  | |- preserves _ =>
      first [ solve [eauto with steady]
            | solve [apply quiet_preserves; eauto with steady] ]
  end.

Ltac preserves_tac := repeat preserves_step.

Lemma preserves_node p k dk x ids : preserves (node p k dk x ids).
Proof. unfold node. preserves_tac. Qed.
#[local] Hint Resolve preserves_node : steady.
Lemma preserves_create el p k dk : preserves (create el p k dk).
Proof. unfold create. preserves_tac. Qed.
Lemma preserves_add_text p s : preserves (add_text p s).
Proof. unfold add_text. preserves_tac. Qed.
#[local] Hint Resolve preserves_create preserves_add_text : steady.
Lemma preserves_comment el p : preserves (comment el p).
Proof. unfold comment. preserves_tac. Qed.
Lemma preserves_inline_text s p c x ids : preserves (inline_text s p c x ids).
Proof. unfold inline_text. preserves_tac. Qed.
Lemma preserves_no_markup el p k : preserves (no_markup el p k).
Proof. unfold no_markup. preserves_tac. Qed.
Lemma preserves_emit p s : preserves (emit p s).
Proof. unfold emit. preserves_tac. Qed.
#[local] Hint Resolve preserves_comment preserves_inline_text preserves_no_markup
  preserves_emit : steady.

Lemma create_klass el parent K dk st n st' :
  create el parent (Some K) dk st = Ok (n, st') → klass_of st' n = Some K.
Proof.
  unfold create, node. rewrite bind_gets. intros H.
  assert (H' : (n0 ← create_node parent K (id_or_None (etree.get el (_id_attrib st))) None;
                iadd parent n0;; ret n0) st = Ok (n, st')).
  { destruct (id_or_None _); exact H. }
  clear H. apply bind_Ok_inv in H' as (n0 & st1 & H1 & H).
  apply bind_Ok_inv in H as ([] & st2 & H2 & H).
  unfold ret in H. injection H as <- <-.
  eapply klass_stable; [eapply iadd_frame; exact H2|].
  by eapply create_node_result.
Qed.

Section steady_handlers.
Variable conv : etree.SourceElement → option loc → M unit.

Lemma deep_steady_child el i :
  deep_steady conv el → i ∈ etree.getchildren el → deep_steady conv i.
Proof.
  intros H Hi j p Hj. apply H. apply height_child in Hi. lia.
Qed.

Lemma preserves_concat_children parent cs pending :
  (∀ i p, i ∈ cs → preserves (conv i p)) →
  preserves (concat_children conv parent cs pending).
Proof.
  revert pending. induction cs as [|i cs IH]; intros pending H; simpl.
  - apply preserves_ret.
  - preserves_tac.
    + apply H. left.
    + apply IH. intros j p Hj. apply H. by right.
Qed.

Lemma preserves_concat_into el parent ns :
  deep_steady conv el → preserves (concat_into conv el parent ns).
Proof.
  intros H. unfold concat_into.
  apply preserves_bind.
  - apply preserves_concat_children. intros i p Hi. apply H. by apply height_child.
  - intros ?. preserves_tac.
Qed.
Hint Resolve preserves_concat_into : steady.

Lemma preserves_concat el parent k dk ns :
  deep_steady conv el → preserves (concat conv el parent k dk ns).
Proof. intros H. unfold concat. preserves_tac. Qed.
Hint Resolve preserves_concat : steady.

Lemma preserves_block el parent k :
  deep_steady conv el → preserves (block conv el parent k).
Proof.
  intros H st n st' Hrun. unfold block in Hrun.
  apply bind_Ok_inv in Hrun as (n0 & st1 & H1 & Hrun).
  apply (preserves_concat _ _ _ _ _ H) in H1.
  eapply steady_trans; [exact H1|]. clear H1.
  rewrite bind_gets in Hrun. destruct (_save st1) as [|c save] eqn:Hsave.
  - unfold ret in Hrun. injection Hrun as <- <-. apply steady_refl.
  - apply bind_Ok_inv in Hrun as ([] & st2 & H2 & Hrun).
    rewrite bind_modify in Hrun. unfold ret in Hrun. injection Hrun as <- <-.
    apply flush_steady in H2 as [Hf Ht].
    eapply steady_trans; [|by apply (preserves_set_save_nil st2 tt)].
    split; [exact Hf|]. intros Htidy. apply Ht; [done|].
    rewrite <- Hsave. apply Htidy.
Qed.
Hint Resolve preserves_block : steady.

Lemma preserves_inline el parent c ns :
  deep_steady conv el → preserves (inline conv el parent c ns).
Proof. intros H. unfold inline. preserves_tac. Qed.
Hint Resolve preserves_inline : steady.

Lemma preserves_rubric el parent :
  deep_steady conv el → preserves (rubric conv el parent).
Proof. intros H. unfold rubric. preserves_tac. Qed.
Hint Resolve preserves_rubric : steady.

Lemma preserves__section el parent lvl :
  deep_steady conv el → preserves (_section conv el parent lvl).
Proof. intros H. unfold _section. preserves_tac. Qed.
Hint Resolve preserves__section : steady.

Lemma preserves_paramdefs t parent cs sep :
  (∀ i p, i ∈ cs → preserves (conv i p)) →
  preserves (paramdefs conv t parent cs sep).
Proof.
  revert sep. induction cs as [|i cs IH]; intros sep H; simpl.
  - apply preserves_ret.
  - assert (∀ sep', preserves (paramdefs conv t parent cs sep')).
    { intros sep'. apply IH. intros j p Hj. apply H. by right. }
    preserves_tac. apply H. left.
Qed.

(** The footnote made by [e_footnote] goes to the buffer. *)
Lemma preserves_footnote_body el parent :
  deep_steady conv el →
  preserves (n' ← create el parent (Some nodes.footnote) nodes.inline;
             concat_into conv el n' false;;
             note_autofootnote n';;
             modify (fun c => set_save (_save c ++ [n']) c)).
Proof.
  intros H st [] st' Hrun.
  apply bind_Ok_inv in Hrun as (n' & st1 & H1 & Hrun).
  apply bind_Ok_inv in Hrun as ([] & st2 & H2 & Hrun).
  apply bind_Ok_inv in Hrun as ([] & st3 & H3 & Hrun).
  unfold modify in Hrun. injection Hrun as <-.
  pose proof (create_klass _ _ _ _ _ _ _ H1) as Hk.
  apply preserves_create in H1.
  apply (preserves_concat_into _ _ _ H) in H2.
  apply quiet_note_autofootnote in H3. apply calm_steady in H3.
  pose proof (steady_trans _ _ _ H2 H3) as H23.
  eapply steady_trans; [exact H1|]. eapply steady_trans; [exact H23|].
  split.
  - do 3 (split; [done|]). split; [done|].
    split; [apply log_grows_refl|apply heap_le_refl].
  - intros (T1 & T2 & T3). split; [exact T1|]. split; [exact T2|].
    simpl. apply Forall_app. split; [exact T3|]. constructor; [|constructor].
    eapply is_footnote_stable; [apply H23|exact Hk].
Qed.

Ltac handler := preserves_tac; eauto using deep_steady_child with steady.

Lemma preserves_e_footnote el parent :
  deep_steady conv el → preserves (e_footnote conv el parent).
Proof.
  intros H. unfold e_footnote.
  apply preserves_bind; [preserves_tac|intros ns].
  apply preserves_bind; [preserves_tac|intros _].
  apply preserves_bind; [preserves_tac|intros n].
  apply preserves_fresh_iadd_k; [auto with steady|intros t].
  apply preserves_bind; [preserves_tac|intros _].
  by apply preserves_footnote_body.
Qed.
Hint Resolve preserves_e_footnote : steady.

Lemma preserves_e_orderedlist el parent :
  deep_steady conv el → preserves (e_orderedlist conv el parent).
Proof. intros H. unfold e_orderedlist. handler. Qed.
Hint Resolve preserves_e_orderedlist : steady.

Lemma preserves_e_chapter el parent : deep_steady conv el → preserves (e_chapter conv el parent).
Proof. intros H. unfold e_chapter. handler. Qed.
Hint Resolve preserves_e_chapter : steady.

Lemma preserves_e_sect1 el parent : deep_steady conv el → preserves (e_sect1 conv el parent).
Proof. intros H. unfold e_sect1. handler. Qed.
Hint Resolve preserves_e_sect1 : steady.

Lemma preserves_e_sect2 el parent : deep_steady conv el → preserves (e_sect2 conv el parent).
Proof. intros H. unfold e_sect2. handler. Qed.
Hint Resolve preserves_e_sect2 : steady.

Lemma preserves_e_sect3 el parent : deep_steady conv el → preserves (e_sect3 conv el parent).
Proof. intros H. unfold e_sect3. handler. Qed.
Hint Resolve preserves_e_sect3 : steady.

Lemma preserves_e_section el parent : deep_steady conv el → preserves (e_section conv el parent).
Proof. intros H. unfold e_section. handler. Qed.
Hint Resolve preserves_e_section : steady.

Lemma preserves_e_topic_def el parent : deep_steady conv el → preserves (e_topic_def conv el parent).
Proof. intros H. unfold e_topic_def. handler. Qed.
Hint Resolve preserves_e_topic_def : steady.

Lemma preserves_e_preface el parent : deep_steady conv el → preserves (e_preface conv el parent).
Proof. intros H. unfold e_preface. handler. Qed.
Hint Resolve preserves_e_preface : steady.

Lemma preserves_e_appendix el parent : deep_steady conv el → preserves (e_appendix conv el parent).
Proof. intros H. unfold e_appendix. handler. Qed.
Hint Resolve preserves_e_appendix : steady.

Lemma preserves_e_title el parent : deep_steady conv el → preserves (e_title conv el parent).
Proof. intros H. unfold e_title. handler. Qed.
Hint Resolve preserves_e_title : steady.

Lemma preserves_e_book el parent : deep_steady conv el → preserves (e_book conv el parent).
Proof. intros H. unfold e_book. handler. Qed.
Hint Resolve preserves_e_book : steady.

Lemma preserves_e_article el parent : deep_steady conv el → preserves (e_article conv el parent).
Proof. intros H. unfold e_article. handler. Qed.
Hint Resolve preserves_e_article : steady.

Lemma preserves_e_topic el parent : deep_steady conv el → preserves (e_topic conv el parent).
Proof. intros H. unfold e_topic. handler. Qed.
Hint Resolve preserves_e_topic : steady.

Lemma preserves_e_blockquote el parent : deep_steady conv el → preserves (e_blockquote conv el parent).
Proof. intros H. unfold e_blockquote. handler. Qed.
Hint Resolve preserves_e_blockquote : steady.

Lemma preserves_e_epigraph el parent : deep_steady conv el → preserves (e_epigraph conv el parent).
Proof. intros H. unfold e_epigraph. handler. Qed.
Hint Resolve preserves_e_epigraph : steady.

Lemma preserves_e_sidebar el parent : deep_steady conv el → preserves (e_sidebar conv el parent).
Proof. intros H. unfold e_sidebar. handler. Qed.
Hint Resolve preserves_e_sidebar : steady.

Lemma preserves_e_para el parent : deep_steady conv el → preserves (e_para conv el parent).
Proof. intros H. unfold e_para. handler. Qed.
Hint Resolve preserves_e_para : steady.

Lemma preserves_e_formalpara el parent : deep_steady conv el → preserves (e_formalpara conv el parent).
Proof. intros H. unfold e_formalpara. handler. Qed.
Hint Resolve preserves_e_formalpara : steady.

Lemma preserves_e_simpara el parent : deep_steady conv el → preserves (e_simpara conv el parent).
Proof. intros H. unfold e_simpara. handler. Qed.
Hint Resolve preserves_e_simpara : steady.

Lemma preserves_e_note el parent : deep_steady conv el → preserves (e_note conv el parent).
Proof. intros H. unfold e_note. handler. Qed.
Hint Resolve preserves_e_note : steady.

Lemma preserves_e_caution el parent : deep_steady conv el → preserves (e_caution conv el parent).
Proof. intros H. unfold e_caution. handler. Qed.
Hint Resolve preserves_e_caution : steady.

Lemma preserves_e_important el parent : deep_steady conv el → preserves (e_important conv el parent).
Proof. intros H. unfold e_important. handler. Qed.
Hint Resolve preserves_e_important : steady.

Lemma preserves_e_tip el parent : deep_steady conv el → preserves (e_tip conv el parent).
Proof. intros H. unfold e_tip. handler. Qed.
Hint Resolve preserves_e_tip : steady.

Lemma preserves_e_warning el parent : deep_steady conv el → preserves (e_warning conv el parent).
Proof. intros H. unfold e_warning. handler. Qed.
Hint Resolve preserves_e_warning : steady.

Lemma preserves_concat_method el parent : deep_steady conv el → preserves (concat_method conv el parent).
Proof. intros H. unfold concat_method. handler. Qed.
Hint Resolve preserves_concat_method : steady.

Lemma preserves_block_method el parent : deep_steady conv el → preserves (block_method conv el parent).
Proof. intros H. unfold block_method. handler. Qed.
Hint Resolve preserves_block_method : steady.

Lemma preserves_e_informalexample el parent : deep_steady conv el → preserves (e_informalexample conv el parent).
Proof. intros H. unfold e_informalexample. handler. Qed.
Hint Resolve preserves_e_informalexample : steady.

Lemma preserves_e_literallayout el parent : deep_steady conv el → preserves (e_literallayout conv el parent).
Proof. intros H. unfold e_literallayout. handler. Qed.
Hint Resolve preserves_e_literallayout : steady.

Lemma preserves_e_screen el parent : deep_steady conv el → preserves (e_screen conv el parent).
Proof. intros H. unfold e_screen. handler. Qed.
Hint Resolve preserves_e_screen : steady.

Lemma preserves_e_programlisting el parent : deep_steady conv el → preserves (e_programlisting conv el parent).
Proof. intros H. unfold e_programlisting. handler. Qed.
Hint Resolve preserves_e_programlisting : steady.

Lemma preserves_e_glosslist el parent : deep_steady conv el → preserves (e_glosslist conv el parent).
Proof. intros H. unfold e_glosslist. handler. Qed.
Hint Resolve preserves_e_glosslist : steady.

Lemma preserves_e_glossentry el parent : deep_steady conv el → preserves (e_glossentry conv el parent).
Proof. intros H. unfold e_glossentry. handler. Qed.
Hint Resolve preserves_e_glossentry : steady.

Lemma preserves_e_glossterm el parent : deep_steady conv el → preserves (e_glossterm conv el parent).
Proof. intros H. unfold e_glossterm. handler. Qed.
Hint Resolve preserves_e_glossterm : steady.

Lemma preserves_e_glossdef el parent : deep_steady conv el → preserves (e_glossdef conv el parent).
Proof. intros H. unfold e_glossdef. handler. Qed.
Hint Resolve preserves_e_glossdef : steady.

Lemma preserves_e_itemizedlist el parent : deep_steady conv el → preserves (e_itemizedlist conv el parent).
Proof. intros H. unfold e_itemizedlist. handler. Qed.
Hint Resolve preserves_e_itemizedlist : steady.

Lemma preserves_e_listitem el parent : deep_steady conv el → preserves (e_listitem conv el parent).
Proof. intros H. unfold e_listitem. handler. Qed.
Hint Resolve preserves_e_listitem : steady.

Lemma preserves_e_variablelist el parent : deep_steady conv el → preserves (e_variablelist conv el parent).
Proof. intros H. unfold e_variablelist. handler. Qed.
Hint Resolve preserves_e_variablelist : steady.

Lemma preserves_e_emphasis el parent : deep_steady conv el → preserves (e_emphasis conv el parent).
Proof. intros H. unfold e_emphasis. handler. Qed.
Hint Resolve preserves_e_emphasis : steady.

Lemma preserves_e_phrase el parent : deep_steady conv el → preserves (e_phrase conv el parent).
Proof. intros H. unfold e_phrase. handler. Qed.
Hint Resolve preserves_e_phrase : steady.

Lemma preserves_e_citetitle el parent : deep_steady conv el → preserves (e_citetitle conv el parent).
Proof. intros H. unfold e_citetitle. handler. Qed.
Hint Resolve preserves_e_citetitle : steady.

Lemma preserves_e_replaceable el parent : deep_steady conv el → preserves (e_replaceable conv el parent).
Proof. intros H. unfold e_replaceable. handler. Qed.
Hint Resolve preserves_e_replaceable : steady.

Lemma preserves_e_literal el parent : deep_steady conv el → preserves (e_literal conv el parent).
Proof. intros H. unfold e_literal. handler. Qed.
Hint Resolve preserves_e_literal : steady.

Lemma preserves_e_code el parent : deep_steady conv el → preserves (e_code conv el parent).
Proof. intros H. unfold e_code. handler. Qed.
Hint Resolve preserves_e_code : steady.

Lemma preserves_e_keycap el parent : deep_steady conv el → preserves (e_keycap conv el parent).
Proof. intros H. unfold e_keycap. handler. Qed.
Hint Resolve preserves_e_keycap : steady.

Lemma preserves_e_application el parent : deep_steady conv el → preserves (e_application conv el parent).
Proof. intros H. unfold e_application. handler. Qed.
Hint Resolve preserves_e_application : steady.

Lemma preserves_e_systemitem el parent : deep_steady conv el → preserves (e_systemitem conv el parent).
Proof. intros H. unfold e_systemitem. handler. Qed.
Hint Resolve preserves_e_systemitem : steady.

Lemma preserves_e_prompt el parent : deep_steady conv el → preserves (e_prompt conv el parent).
Proof. intros H. unfold e_prompt. handler. Qed.
Hint Resolve preserves_e_prompt : steady.

Lemma preserves_e_filename el parent : deep_steady conv el → preserves (e_filename conv el parent).
Proof. intros H. unfold e_filename. handler. Qed.
Hint Resolve preserves_e_filename : steady.

Lemma preserves_e_command el parent : deep_steady conv el → preserves (e_command conv el parent).
Proof. intros H. unfold e_command. handler. Qed.
Hint Resolve preserves_e_command : steady.

Lemma preserves_e_option el parent : deep_steady conv el → preserves (e_option conv el parent).
Proof. intros H. unfold e_option. handler. Qed.
Hint Resolve preserves_e_option : steady.

Lemma preserves_e_envar el parent : deep_steady conv el → preserves (e_envar conv el parent).
Proof. intros H. unfold e_envar. handler. Qed.
Hint Resolve preserves_e_envar : steady.

Lemma preserves_e_cmdsynopsis el parent : preserves (e_cmdsynopsis el parent).
Proof. unfold e_cmdsynopsis. handler. Qed.
Hint Resolve preserves_e_cmdsynopsis : steady.

Lemma preserves_e_firstterm el parent : deep_steady conv el → preserves (e_firstterm conv el parent).
Proof. intros H. unfold e_firstterm. handler. Qed.
Hint Resolve preserves_e_firstterm : steady.

Lemma preserves_e_userinput el parent : deep_steady conv el → preserves (e_userinput conv el parent).
Proof. intros H. unfold e_userinput. handler. Qed.
Hint Resolve preserves_e_userinput : steady.

Lemma preserves_e_subscript el parent : deep_steady conv el → preserves (e_subscript conv el parent).
Proof. intros H. unfold e_subscript. handler. Qed.
Hint Resolve preserves_e_subscript : steady.

Lemma preserves_e_superscript el parent : deep_steady conv el → preserves (e_superscript conv el parent).
Proof. intros H. unfold e_superscript. handler. Qed.
Hint Resolve preserves_e_superscript : steady.

Lemma preserves_e_quote el parent : deep_steady conv el → preserves (e_quote conv el parent).
Proof. intros H. unfold e_quote. handler. Qed.
Hint Resolve preserves_e_quote : steady.

Lemma preserves_e_ulink el parent : deep_steady conv el → preserves (e_ulink conv el parent).
Proof. intros H. unfold e_ulink. handler. Qed.
Hint Resolve preserves_e_ulink : steady.

Lemma preserves_e_xref el parent : preserves (e_xref el parent).
Proof. unfold e_xref. handler. Qed.
Hint Resolve preserves_e_xref : steady.

Lemma preserves_e_link el parent : deep_steady conv el → preserves (e_link conv el parent).
Proof. intros H. unfold e_link. handler. Qed.
Hint Resolve preserves_e_link : steady.

Lemma preserves_e_indexterm el parent : preserves (e_indexterm el parent).
Proof. unfold e_indexterm, index_see. handler. Qed.
Hint Resolve preserves_e_indexterm : steady.

Lemma preserves_e_inlineequation el parent : deep_steady conv el → preserves (e_inlineequation conv el parent).
Proof. intros H. unfold e_inlineequation. handler. Qed.
Hint Resolve preserves_e_inlineequation : steady.

Lemma preserves_e_equation el parent : deep_steady conv el → preserves (e_equation conv el parent).
Proof. intros H. unfold e_equation. handler. Qed.
Hint Resolve preserves_e_equation : steady.

Lemma preserves_e_mathphrase el parent : deep_steady conv el → preserves (e_mathphrase conv el parent).
Proof. intros H. unfold e_mathphrase. handler. Qed.
Hint Resolve preserves_e_mathphrase : steady.

Lemma preserves_e_refentry el parent : deep_steady conv el → preserves (e_refentry conv el parent).
Proof. intros H. unfold e_refentry. handler. Qed.
Hint Resolve preserves_e_refentry : steady.

Lemma preserves_e_refsect1 el parent : deep_steady conv el → preserves (e_refsect1 conv el parent).
Proof. intros H. unfold e_refsect1. handler. Qed.
Hint Resolve preserves_e_refsect1 : steady.

Lemma preserves_e_refname el parent : preserves (e_refname el parent).
Proof. unfold e_refname. handler. Qed.
Hint Resolve preserves_e_refname : steady.

Lemma preserves_e_funcparams el parent : deep_steady conv el → preserves (e_funcparams conv el parent).
Proof. intros H. unfold e_funcparams. handler. Qed.
Hint Resolve preserves_e_funcparams : steady.

Lemma preserves_e_parameter el parent : deep_steady conv el → preserves (e_parameter conv el parent).
Proof. intros H. unfold e_parameter. handler. Qed.
Hint Resolve preserves_e_parameter : steady.

Lemma preserves_e_anchor el parent : preserves (e_anchor el parent).
Proof. unfold e_anchor. handler. Qed.
Hint Resolve preserves_e_anchor : steady.

Lemma preserves_nop el parent : preserves (nop el parent).
Proof. unfold nop. handler. Qed.
Hint Resolve preserves_nop : steady.

Lemma preserves_e_varlistentry el parent :
  deep_steady conv el → preserves (e_varlistentry conv el parent).
Proof.
  unfold e_varlistentry. intros H. preserves_tac.
  - eauto using deep_steady_child with steady.
  - apply preserves_with_find; [|apply preserves_ret]. intros c Hc.
    preserves_tac. eauto using deep_steady_child with steady.
Qed.

Lemma preserves_e_funcprototype el parent :
  deep_steady conv el → preserves (e_funcprototype conv el parent).
Proof.
  unfold e_funcprototype. intros H. preserves_tac.
  - apply preserves_with_find; [|apply preserves_raise]. intros c Hc.
    apply H. by apply height_child.
  - apply preserves_paramdefs. intros i p Hi. apply H. by apply height_child.
Qed.
Hint Resolve preserves_e_varlistentry preserves_e_funcprototype : steady.

Lemma preserves_methods el parent name m :
  deep_steady conv el → (name, m) ∈ methods conv el parent → preserves m.
Proof.
  intros H Hin. unfold methods in Hin.
  repeat (apply elem_of_cons in Hin as [Hin|Hin];
          [injection Hin as _ ->; solve [auto with steady]|]).
  by apply elem_of_nil in Hin.
Qed.

Lemma preserves_method name el parent m :
  deep_steady conv el → method conv name el parent = Some m → preserves m.
Proof.
  intros H Hm. unfold method in Hm.
  destruct (List.find _ _) as [[name' m']|] eqn:Hfind; [|discriminate].
  injection Hm as <-.
  apply find_some in Hfind as [Hin _].
  eapply preserves_methods; [done|]. by apply list_elem_of_In.
Qed.

Lemma quiet_resolve el : quiet (resolve el).
Proof. unfold resolve. quiet_tac. Qed.

Lemma preserves_unhandled el parent :
  deep_steady conv el → preserves (unhandled conv el parent).
Proof. intros H. unfold unhandled, warn_unhandled. handler. Qed.

Lemma preserves_conv_body el parent :
  deep_steady conv el → preserves (_conv_body conv el parent).
Proof.
  intros H. unfold _conv_body.
  destruct (etree.is_ProcessingInstruction el);
    [apply quiet_preserves, quiet_info|].
  apply preserves_bind; [preserves_tac|]. intros [|]; [preserves_tac|].
  intros st [] st' Hrun.
  apply bind_Ok_inv in Hrun as (r & st1 & H1 & Hrun).
  apply quiet_resolve in H1. apply calm_steady in H1.
  eapply steady_trans; [exact H1|].
  rewrite bind_modify in Hrun.
  apply bind_Ok_inv in Hrun as ([] & st2 & H2 & Hrun).
  unfold modify in Hrun. injection Hrun as <-.
  apply (push_pop_steady r.1).
  destruct (r.2 ≫= _) as [m|] eqn:Hm.
  - destruct r.2 as [name|]; [|done]. simpl in Hm.
    by eapply preserves_method.
  - by eapply preserves_unhandled.
Qed.

End steady_handlers.

Lemma preserves_conv el parent : preserves (_conv el parent).
Proof.
  remember (S (etree.height el)) as n eqn:Hn.
  assert (Hlt : (etree.height el < n)%nat) by lia. clear Hn.
  revert el parent Hlt. induction n as [|n IH]; intros el parent Hlt; [lia|].
  rewrite _conv_unfold. apply preserves_conv_body.
  intros i p Hi. apply IH. lia.
Qed.

(** ** A conversion as a whole *)

(** X1: when [_conv] returns, whatever the element, the stack of open
    elements, the title handler, the depth of ordered lists and the
    namespace settings are what they were before the call: every handler
    that changes one of them puts it back. *)
Theorem conversion_restores_context el parent st st' :
  _conv el parent st = Ok (tt, st') →
  _stack st' = _stack st ∧
  _title_handler st' = _title_handler st ∧
  _ordered_list_depth st' = _ordered_list_depth st ∧
  _ns st' = _ns st ∧
  _id_attrib st' = _id_attrib st.
Proof.
  intros H.
  destruct (preserves_conv el parent st tt st' H) as [(Hs & Ht & _) _].
  destruct (keeps_conv el parent _ st st tt st' (inv_refl st) H) as (_ & Hd & Hn & Hi).
  by repeat split.
Qed.

Lemma conversion_restores_context_witness :
  ∃ st',
    convert_root nested_orderedlist (init false) = Ok (tt, st') ∧
    _stack st' = [] ∧ _title_handler st' = None ∧ _ordered_list_depth st' = 0%Z.
Proof.
  assert (H : ∃ st', convert_root nested_orderedlist (init false) = Ok (tt, st'))
    by (eexists; vm_compute; reflexivity).
  destruct H as [st' H]. exists st'. split; [exact H|].
  apply conversion_restores_context in H as (Hs & Ht & Hd & _).
  by repeat split.
Defined.

(** X2: when [_conv] returns, the messages of the reporter, the nodes
    given to [set_id] and the lists of auto-numbered footnotes and
    references have only been extended, the set of reported tags has only
    grown, and [_not_handled_ns] is the set it was: nothing ever adds to
    it. *)
Theorem conversion_only_extends_logs el parent st st' :
  _conv el parent st = Ok (tt, st') →
  messages st `prefix_of` messages st' ∧
  id_requests (the_document st) `prefix_of` id_requests (the_document st') ∧
  autofootnote_refs (the_document st) `prefix_of` autofootnote_refs (the_document st') ∧
  autofootnotes (the_document st) `prefix_of` autofootnotes (the_document st') ∧
  _not_handled_tags st ⊆ _not_handled_tags st' ∧
  _not_handled_ns st' = _not_handled_ns st.
Proof.
  intros H.
  destruct (preserves_conv el parent st tt st' H)
    as [(_ & _ & Hn & Htg & (Hm & Hr & Hf & Hi) & _) _].
  by repeat split.
Qed.

Lemma conversion_only_extends_logs_witness :
  ∃ st',
    convert_root para_foreign_namespace (init true) = Ok (tt, st') ∧
    _not_handled_ns st' = ∅ ∧
    [] `prefix_of` messages st'.
Proof.
  assert (H : ∃ st', convert_root para_foreign_namespace (init true) = Ok (tt, st'))
    by (eexists; vm_compute; reflexivity).
  destruct H as [st' H]. exists st'. split; [exact H|].
  apply conversion_only_extends_logs in H as (Hm & _ & _ & _ & _ & Hn).
  split; [exact Hn|exact Hm].
Defined.

(** X3: when [_conv] returns, a node that existed before the call is
    still there with its class and its text, and its children of before
    are the first of its children now: output is only ever appended. *)
Theorem conversion_only_extends_output el parent st st' l n :
  _conv el parent st = Ok (tt, st') →
  the_heap st !! l = Some n →
  ∃ n', the_heap st' !! l = Some n' ∧
        nodes.n_klass n' = nodes.n_klass n ∧
        nodes.n_text n' = nodes.n_text n ∧
        nodes.n_children n `prefix_of` nodes.n_children n'.
Proof.
  intros H Hl.
  destruct (keeps_conv el parent _ st st tt st' (inv_refl st) H) as (Hle & _).
  by apply (heap_le_lookup _ _ _ _ Hle Hl).
Qed.

Lemma conversion_only_extends_output_witness :
  ∃ st' n',
    convert_root para_one_footnote (init false) = Ok (tt, st') ∧
    the_heap st' !! document_loc = Some n' ∧
    nodes.n_klass n' = nodes.document.
Proof.
  assert (H : ∃ st', convert_root para_one_footnote (init false) = Ok (tt, st'))
    by (eexists; vm_compute; reflexivity).
  destruct H as [st' H].
  destruct (conversion_only_extends_output _ _ _ _ document_loc
              (nodes.new_node nodes.document "") H eq_refl) as (n' & Hn & Hk & _).
  exists st', n'. split; [exact H|]. split; [exact Hn|exact Hk].
Defined.

Lemma tidy_init ns : tidy (init ns).
Proof.
  split; [|split].
  - intros c [[|p] i] q Hp; unfold occurs_at, children_of in Hp; simpl in Hp;
      by destruct i.
  - intros c [[|p] i] Hp; unfold occurs_at, children_of in Hp; simpl in Hp;
      by destruct i.
  - constructor.
Qed.

(** X4: from a state whose output is a tree up to footnotes, which a
    fresh converter is, [_conv] returns in such a state: a node that
    occurs at two positions is a footnote, every child is an existing
    node, and the buffer [_save] holds footnotes only.  The only second
    [parent += node] on a node is the flush of [block]. *)
Theorem only_footnotes_are_aliased el parent st st' :
  tidy st →
  _conv el parent st = Ok (tt, st') →
  (∀ c, aliased st' c → klass_of st' c = Some nodes.footnote) ∧
  (∀ c pos, occurs_at st' c pos → is_Some (the_heap st' !! c)) ∧
  (∀ c, c ∈ _save st' → klass_of st' c = Some nodes.footnote).
Proof.
  intros Ht H.
  destruct (preserves_conv el parent st tt st' H) as [_ Htidy].
  destruct (Htidy Ht) as (H1 & H2 & H3).
  split; [|split].
  - intros c (p & q & Hne & Hp & Hq). by apply (H1 c p q).
  - intros c pos Hpos. apply lookup_lt_is_Some. by eapply H2.
  - intros c Hc. rewrite Forall_forall in H3. by apply H3.
Qed.

Lemma only_footnotes_are_aliased_witness :
  ∃ st',
    convert_root para_one_footnote (init false) = Ok (tt, st') ∧
    ∀ c, aliased st' c → klass_of st' c = Some nodes.footnote.
Proof.
  assert (H : ∃ st', convert_root para_one_footnote (init false) = Ok (tt, st'))
    by (eexists; vm_compute; reflexivity).
  destruct H as [st' H]. exists st'. split; [exact H|].
  apply (only_footnotes_are_aliased _ _ _ _ (tidy_init false) H).
Defined.

(** ** The text of an element and the transform of parameters *)

(** X7: [no_markup_text] raises exactly when the element or one of its
    descendants has the empty string as text, where [el.text[-1]] fails,
    and IndexError is all it raises. *)
Theorem no_markup_text_raises_on_empty_text id_attrib el ids ns :
  ((∃ e, no_markup_text id_attrib el ids ns = Raise e) ↔ has_empty_text el = true) ∧
  (∀ e, no_markup_text id_attrib el ids ns = Raise e → e = IndexError).
Proof.
  pose proof (no_markup_text_spec id_attrib el ids ns) as H.
  destruct (has_empty_text el).
  - split; [split; [done|eauto]|]. intros e He. congruence.
  - destruct H as (t & sp & H). split; [split|].
    + intros [e He]. congruence.
    + discriminate.
    + intros e He. congruence.
Qed.

Lemma no_markup_text_raises_on_empty_text_witness :
  no_markup_text "id"
    (elem "primary" [] (Some "a") None [elem "emphasis" [] (Some "") None []]) [] false
  = Raise IndexError.
Proof.
  destruct (proj2 (proj1 (no_markup_text_raises_on_empty_text "id"
    (elem "primary" [] (Some "a") None [elem "emphasis" [] (Some "") None []]) [] false))
    eq_refl) as [e He].
  rewrite He. f_equal.
  exact (proj2 (no_markup_text_raises_on_empty_text "id" _ [] false) e He).
Defined.

(** X8: when [no_markup_text] returns, the list [ids] has been extended
    by the characters of the id attributes of the subtree, in document
    order, one string per character: [ids += xml_id] with a string on
    the right. *)
Theorem no_markup_text_collects_id_characters id_attrib el ids ns t sp ids' :
  no_markup_text id_attrib el ids ns = Ok (t, sp, ids') →
  ids' = ids ++ collected_ids id_attrib el.
Proof.
  intros H. pose proof (no_markup_text_spec id_attrib el ids ns) as Hs.
  destruct (has_empty_text el); [congruence|].
  destruct Hs as (t' & sp' & Hs). congruence.
Qed.

Lemma no_markup_text_collects_id_characters_witness :
  no_markup_text "id" (elem "primary" [("id", "aé")] (Some "Foo") None []) [] false
    = Ok ("Foo", true, [nodes.PStr "a"; nodes.PStr "é"]).
Proof.
  assert (H : ∃ t sp ids',
    no_markup_text "id" (elem "primary" [("id", "aé")] (Some "Foo") None []) [] false
      = Ok (t, sp, ids') ∧ t = "Foo" ∧ sp = true)
    by (do 3 eexists; split; [vm_compute; reflexivity|done]).
  destruct H as (t & sp & ids' & H & -> & ->).
  rewrite H. do 2 f_equal.
  apply (no_markup_text_collects_id_characters _ _ _ _ _ _ _ H).
Defined.

Lemma collapse_spaces_cons c s :
  PyStr.collapse_spaces (String c s) =
    if Ascii.eqb c " "
    then match s with
         | String c' _ =>
             if Ascii.eqb c' " " then PyStr.collapse_spaces s
             else String c (PyStr.collapse_spaces s)
         | EmptyString => String c EmptyString
         end
    else String c (PyStr.collapse_spaces s).
Proof. reflexivity. Qed.

Lemma collapse_spaces_head c s :
  ∃ r, PyStr.collapse_spaces (String c s) = String c r.
Proof.
  revert c. induction s as [|c' s IH]; intros c.
  - simpl. destruct (Ascii.eqb c " "); eauto.
  - rewrite collapse_spaces_cons.
    destruct (Ascii.eqb_spec c " ") as [->|]; [|eauto].
    destruct (Ascii.eqb_spec c' " ") as [->|]; [|eauto].
    apply IH.
Qed.

Lemma collapse_spaces_fixed s :
  has_double_space s = false → PyStr.collapse_spaces s = s.
Proof.
  induction s as [|c s IH]; [done|].
  intros H. rewrite collapse_spaces_cons. simpl in H.
  destruct s as [|c' s'].
  - by destruct (Ascii.eqb c " ").
  - apply orb_false_iff in H as [H1 H2]. rewrite (IH H2).
    destruct (Ascii.eqb c " "); [|done]. simpl in H1. by rewrite H1.
Qed.

Lemma has_double_space_cons c c' r :
  has_double_space (String c (String c' r)) =
  (Ascii.eqb c " " && Ascii.eqb c' " ") || has_double_space (String c' r).
Proof. reflexivity. Qed.

Lemma collapse_spaces_no_double s :
  has_double_space (PyStr.collapse_spaces s) = false.
Proof.
  induction s as [|c s IH]; [done|].
  rewrite collapse_spaces_cons.
  destruct s as [|c' s'].
  - by destruct (Ascii.eqb c " ").
  - destruct (collapse_spaces_head c' s') as [r Hr].
    destruct (Ascii.eqb_spec c " ") as [->|Hc].
    + destruct (Ascii.eqb_spec c' " ") as [->|Hc']; [exact IH|].
      rewrite Hr in *. rewrite has_double_space_cons, IH.
      destruct (Ascii.eqb_spec c' " "); [done|]. by rewrite andb_false_r.
    + rewrite Hr in *. rewrite has_double_space_cons, IH.
      destruct (Ascii.eqb_spec c " "); [done|]. done.
Qed.

(** X18: the transform [lambda x: re.sub(' +', ' ', x)] of
    [e_funcparams] and [e_parameter] leaves no two spaces in a row, is
    idempotent, and is the identity on a string with no two spaces in a
    row. *)
Theorem collapse_spaces_normalizes s :
  has_double_space (apply_mangle collapse_spaces s) = false ∧
  apply_mangle collapse_spaces (apply_mangle collapse_spaces s) =
    apply_mangle collapse_spaces s ∧
  (has_double_space s = false → apply_mangle collapse_spaces s = s).
Proof.
  simpl. split; [apply collapse_spaces_no_double|]. split.
  - apply collapse_spaces_fixed, collapse_spaces_no_double.
  - apply collapse_spaces_fixed.
Qed.

(** ** Anchors *)

(** X17: an [anchor] converted with no anchor pending only records its
    id; the next node made by [node] then has the list of pending ids
    as one element at the end of its [ids], after its own id if it has
    one, and no anchor is pending any more. *)
Theorem anchors_attach_to_next_node a parent K dk xml_id st :
  etree.tag a = etree.TagName (_ns st +:+ "anchor") →
  _anchors st = [] →
  (parent < length (the_heap st))%nat →
  let ids := nodes.of_opt (etree.get a (_id_attrib st)) in
  let st1 := set_anchors [ids] st in
  _conv a (Some parent) st = Ok (tt, st1) ∧
  ∃ st2,
    node parent (Some K) dk xml_id None st1 = Ok (length (the_heap st), st2) ∧
    klass_of st2 (length (the_heap st)) = Some K ∧
    attr_of st2 (length (the_heap st)) "ids" =
      Some (nodes.PList ((if nodes.truthy xml_id then [xml_id] else []) ++
                         [nodes.PList [ids]])) ∧
    _anchors st2 = [].
Proof.
  intros Htag Ha Hp ids st1. split.
  - rewrite (conv_dispatch a parent st "anchor" (e_anchor a parent) Htag eq_refl).
    unfold e_anchor. rewrite bind_gets. unfold modify. simpl.
    rewrite Ha. simpl. subst st1 ids.
    destruct st. unfold pop, push, set_stack, set_anchors. simpl.
    by rewrite removelast_last.
  - subst st1. destruct st as [[h rep ar af idr] ? ? ? ? anchors ? ? ? ? ? ns idattr].
    unfold the_heap in *. simpl in *. subst anchors.
    assert (Hne : parent ≠ length h) by lia.
    assert (Hnode : node parent (Some K) dk xml_id None =
                    (n ← create_node parent K xml_id None; iadd parent n;; ret n))
      by (unfold node; by destruct xml_id).
    rewrite Hnode. clear Hnode.
    assert (Hids : ∀ v, nodes.getitem (nodes.new_node K "") "ids" = nodes.PList [] ∧
                        nodes.getitem (nodes.setitem "ids" v (nodes.new_node K "")) "ids" = v).
    { intros v. unfold nodes.getitem, nodes.setitem, nodes.new_node. simpl.
      rewrite lookup_insert_eq. split; [|done].
      destruct (nodes.fixed_text K); [|done]. by rewrite lookup_singleton_ne. }
    unfold create_node, setitem, update, modify_doc, modify, alloc, iadd, gets, ret,
      mbind, M_bind, klass_of, attr_of, the_heap.
    destruct (nodes.truthy xml_id) eqn:Hx; simpl;
      (eexists; split; [reflexivity|]); simpl;
      rewrite !list_lookup_alter_ne by done;
      rewrite !lookup_alter_same;
      rewrite lookup_app_r, Nat.sub_diag by lia; simpl;
      unfold ids_append;
      rewrite ?(proj2 (Hids _)), ?(proj1 (Hids (nodes.PList [])));
      (split; [reflexivity|]); (split; [|reflexivity]);
      unfold nodes.setitem; simpl; by rewrite lookup_insert_eq.
Qed.

Lemma anchors_attach_to_next_node_witness :
  ∃ st2,
    node document_loc (Some nodes.paragraph) nodes.inline nodes.PNone None
      (set_anchors [nodes.PStr "a"] (init false)) = Ok (1%nat, st2) ∧
    attr_of st2 1 "ids" = Some (nodes.PList [nodes.PList [nodes.PStr "a"]]) ∧
    _anchors st2 = [].
Proof.
  destruct (proj2 (anchors_attach_to_next_node (anchor "a") document_loc
                     nodes.paragraph nodes.inline nodes.PNone (init false)
                     eq_refl eq_refl ltac:(unfold document_loc, the_heap; simpl; lia)))
    as (st2 & H & _ & Hids & Ha).
  exists st2. split; [exact H|]. split; [exact Hids|exact Ha].
Defined.

(** ** The buffer of footnotes *)

Lemma flush_children parent save st st' :
  (parent < length (the_heap st))%nat →
  for_each (λ i, iadd parent i) save st = Ok (tt, st') →
  children_of st' parent = children_of st parent ++ save ∧ _save st' = _save st.
Proof.
  revert st. induction save as [|c save IH]; intros st Hp H; simpl in H.
  - unfold ret in H. injection H as <-. by rewrite app_nil_r.
  - apply bind_Ok_inv in H as ([] & st1 & H1 & H).
    pose proof (iadd_children parent c st st1 parent H1) as Hc.
    rewrite decide_True in Hc by done.
    destruct (IH st1) as [Hc' Hs']; [by rewrite (iadd_length _ _ _ _ H1)|exact H|].
    rewrite Hc', Hc, <- app_assoc, Hs'. split; [done|]. by eapply iadd_save.
Qed.

(** X5: when [block] returns under an existing parent, [_save] is
    empty and the nodes it held once the content of the element was
    converted have been appended to the parent, in the order of the
    buffer, after the node of the element. *)
Theorem block_flushes_footnotes el parent k st n st' :
  (parent < length (the_heap st))%nat →
  block _conv el parent k st = Ok (n, st') →
  _save st' = [] ∧
  ∃ st1,
    concat _conv el parent k nodes.compound false st = Ok (n, st1) ∧
    children_of st' parent = children_of st1 parent ++ _save st1.
Proof.
  intros Hp H. unfold block in H.
  apply bind_Ok_inv in H as (n0 & st1 & H1 & H).
  assert (Hp1 : (parent < length (the_heap st1))%nat).
  { pose proof (preserves_concat _conv el parent k nodes.compound false
                  (λ i p _, preserves_conv i p) st n0 st1 H1)
      as [(_ & _ & _ & _ & _ & Hle) _].
    apply heap_le_length in Hle. lia. }
  rewrite bind_gets in H. destruct (_save st1) as [|c save] eqn:Hsave.
  - unfold ret in H. injection H as <- <-. split; [done|].
    exists st1. split; [done|]. by rewrite Hsave, app_nil_r.
  - apply bind_Ok_inv in H as ([] & st2 & H2 & H).
    rewrite bind_modify in H. unfold ret in H. injection H as <- <-.
    split; [done|]. exists st1. split; [done|].
    apply flush_children in H2 as [Hc _]; [|done].
    rewrite Hsave. exact Hc.
Qed.

Lemma block_flushes_footnotes_witness :
  ∃ st',
    e_para _conv para_one_footnote document_loc (init false) = Ok (tt, st') ∧
    _save st' = [] ∧
    children_of st' document_loc = [1; 5]%nat.
Proof.
  assert (H : ∃ n st', block _conv para_one_footnote document_loc (Some nodes.paragraph)
                         (init false) = Ok (n, st'))
    by (do 2 eexists; vm_compute; reflexivity).
  destruct H as (n & st' & H). exists st'.
  split; [unfold e_para; by rewrite (bind_Ok _ _ _ _ _ H)|].
  assert (Hp : (document_loc < length (the_heap (init false)))%nat)
    by (unfold document_loc, the_heap; simpl; lia).
  destruct (block_flushes_footnotes _ _ _ _ _ _ Hp H)
    as (Hs & st1 & H1 & Hc).
  split; [exact Hs|]. rewrite Hc.
  assert (E : Ok (n, st1) = concat _conv para_one_footnote document_loc
                (Some nodes.paragraph) nodes.compound false (init false))
    by (symmetry; exact H1).
  vm_compute in E. injection E as _ ->. reflexivity.
Defined.

(** X6: when [e_footnote] returns under an existing parent, the parent
    has got a [footnote_reference] with the text [#] and, after it, the
    [footnote] node itself, and this footnote is also the last node of
    [_save] and the last auto-numbered footnote of the document. *)
Theorem footnote_appended_and_buffered el parent st st' :
  (parent < length (the_heap st))%nat →
  e_footnote _conv el parent st = Ok (tt, st') →
  let L := length (the_heap st) in
  klass_of st' L = Some nodes.footnote_reference ∧
  children_of st' L !! 0%nat = Some (S L) ∧
  text_of st' (S L) = Some "#" ∧
  klass_of st' (S (S L)) = Some nodes.footnote ∧
  children_of st parent ++ [L; S (S L)] `prefix_of` children_of st' parent ∧
  last (_save st') = Some (S (S L)) ∧
  last (autofootnotes (the_document st')) = Some (S (S L)).
Proof.
  intros Hp H L. unfold e_footnote in H.
  rewrite bind_gets in H.
  rewrite (bind_Ok _ _ _ _ _ (supports_only_tuple _ _ _)) in H.
  set (st1 := add_messages _ st) in H.
  assert (Hh1 : the_heap st1 = the_heap st) by reflexivity.
  destruct (node_new_node parent nodes.footnote_reference nodes.inline nodes.PNone st1)
    as (st2 & attrs & Hn & Hh2 & _); [by rewrite Hh1|].
  rewrite (bind_Ok _ _ _ _ _ Hn) in H. rewrite Hh1 in H, Hh2. fold L in H, Hh2.
  assert (Hlen2 : length (the_heap st2) = S L).
  { rewrite Hh2, length_app, length_alter. simpl. unfold L. lia. }
  unfold DocbookConverter.Text in H.
  rewrite (bind_Ok _ _ _ _ _ (alloc_run _ _)) in H.
  erewrite bind_Ok in H by apply iadd_run.
  rewrite the_heap_with_heap, with_heap_with_heap, Hlen2 in H.
  set (h3 := alter _ L _) in H. set (st3 := with_heap h3 st2) in H.
  assert (Hlen3 : length h3 = S (S L)).
  { unfold h3. rewrite !length_alter, length_app, Hlen2. simpl. lia. }
  apply bind_Ok_inv in H as ([] & st4 & H4 & H).
  assert (Hh4 : the_heap st4 = h3).
  { unfold note_autofootnote_ref, set_id, modify_doc, modify, mbind, M_bind in H4.
    by injection H4 as <-. }
  destruct (create_new_node el parent nodes.footnote nodes.inline st4)
    as (st5 & attrs' & Hc & Hh5 & _); [rewrite Hh4, Hlen3; lia|].
  rewrite (bind_Ok _ _ _ _ _ Hc) in H. rewrite Hh4, Hlen3 in H, Hh5.
  apply bind_Ok_inv in H as ([] & st6 & H6 & H).
  pose proof (keeps_concat_into _conv el (S (S L)) false
                (λ i p _, keeps_conv i p) _ st5 st5 tt st6 (inv_refl st5) H6)
    as (Hle & _).
  unfold note_autofootnote, set_id, modify_doc, modify, mbind, M_bind in H.
  injection H as <-.
  unfold klass_of, text_of, children_of, the_heap in *. simpl.
  rewrite !last_snoc.
  destruct (lookup_lt_is_Some_2 (heap (the_document st)) parent Hp) as [pn Hpn].
  assert (HL : heap (the_document st5) !! L =
               Some (nodes.append (S L)
                       (new_element nodes.footnote_reference attrs [] parent))).
  { rewrite Hh5, lookup_app_l by (rewrite length_alter; lia).
    rewrite list_lookup_alter_ne by (unfold L; lia).
    unfold h3. rewrite list_lookup_alter_eq.
    rewrite list_lookup_alter_ne by lia.
    rewrite lookup_app_l by lia.
    rewrite Hh2, lookup_app_r by (rewrite length_alter; unfold L; lia).
    rewrite length_alter. unfold L. by rewrite Nat.sub_diag. }
  assert (HSL : heap (the_document st5) !! S L =
                Some (nodes.set_parent L (nodes.new_node nodes.Text "#"))).
  { rewrite Hh5, lookup_app_l by (rewrite length_alter; lia).
    rewrite list_lookup_alter_ne by (unfold L; lia).
    unfold h3. rewrite list_lookup_alter_ne by lia.
    rewrite list_lookup_alter_eq.
    rewrite lookup_app_r by lia. by rewrite Hlen2, Nat.sub_diag. }
  assert (HSSL : heap (the_document st5) !! S (S L) =
                 Some (new_element nodes.footnote attrs' [] parent)).
  { rewrite Hh5, lookup_app_r by (rewrite length_alter; lia).
    by rewrite length_alter, Hlen3, Nat.sub_diag. }
  assert (HP : heap (the_document st5) !! parent =
               Some (nodes.append (S (S L)) (nodes.append L pn))).
  { rewrite Hh5, lookup_app_l by (rewrite length_alter; unfold L in *; lia).
    rewrite list_lookup_alter_eq.
    unfold h3. rewrite list_lookup_alter_ne by (unfold L; lia).
    rewrite list_lookup_alter_ne by (unfold L; lia).
    rewrite lookup_app_l by (unfold L in *; lia).
    rewrite Hh2, lookup_app_l by (rewrite length_alter; unfold L; lia).
    by rewrite list_lookup_alter_eq, Hpn. }
  destruct (heap_le_lookup _ _ _ _ Hle HL) as (n1 & E1 & K1 & _ & Hpre1).
  destruct (heap_le_lookup _ _ _ _ Hle HSL) as (n2 & E2 & _ & T2 & _).
  destruct (heap_le_lookup _ _ _ _ Hle HSSL) as (n3 & E3 & K3 & _ & _).
  destruct (heap_le_lookup _ _ _ _ Hle HP) as (n4 & E4 & _ & _ & Hpre4).
  rewrite E1, E2, E3, E4, Hpn. simpl in *.
  split; [by rewrite K1|]. split.
  { eapply prefix_lookup_Some; [|exact Hpre1]. done. }
  split; [by rewrite T2|]. split; [by rewrite K3|].
  split; [|done]. by rewrite <- app_assoc in Hpre4.
Qed.

Lemma footnote_appended_and_buffered_witness :
  ∃ st',
    e_footnote _conv
      (elem "footnote" [] None None [elem "para" [] (Some "A") None []])
      document_loc (init false) = Ok (tt, st') ∧
    klass_of st' 3 = Some nodes.footnote ∧
    [1; 3]%nat `prefix_of` children_of st' document_loc ∧
    last (_save st') = Some 3%nat.
Proof.
  assert (H : ∃ st', e_footnote _conv
      (elem "footnote" [] None None [elem "para" [] (Some "A") None []])
      document_loc (init false) = Ok (tt, st'))
    by (eexists; vm_compute; reflexivity).
  destruct H as [st' H]. exists st'. split; [exact H|].
  assert (Hp : (document_loc < length (the_heap (init false)))%nat)
    by (unfold document_loc, the_heap; simpl; lia).
  destruct (footnote_appended_and_buffered _ _ _ _ Hp H)
    as (_ & _ & _ & Hk & Hc & Hs & _).
  split; [exact Hk|]. split; [exact Hc|exact Hs].
Defined.

(** ** Section levels *)

Lemma current_level_pop st : current_level (pop st) = current_level st.
Proof. reflexivity. Qed.

(** X19: when [_conv] returns from a section element, [current_level]
    is the level of the element, 0 for [chapter], [preface], [appendix],
    [book], [article] and [topic], 1 to 3 for [sect1] to [sect3], and
    for [section] one more than before the element, whatever sections
    the element contains. *)
Theorem section_elements_set_level el parent st st' t lvl :
  etree.tag el = etree.TagName (_ns st +:+ t) →
  section_level t (current_level st) = Some lvl →
  _conv el (Some parent) st = Ok (tt, st') →
  current_level st' = lvl.
Proof.
  intros Htag Hlvl H. unfold section_level in Hlvl.
  assert (Hm : ∃ l, method _conv ("e_" +:+ t) el parent = Some (_section _conv el parent l) ∧
                    (l = lvl ∨ (t = "section" ∧ False))
               ∨ (t = "section" ∧ lvl = (current_level st + 1)%Z)).
  { case_bool_decide as Hin.
    - injection Hlvl as <-. exists 0%Z. left. split; [|by left].
      repeat (apply elem_of_cons in Hin as [->|Hin]; [reflexivity|]).
      by apply elem_of_nil in Hin.
    - destruct (String.eqb_spec t "sect1") as [->|_];
        [injection Hlvl as <-; exists 1%Z; left; split; [reflexivity|by left]|].
      destruct (String.eqb_spec t "sect2") as [->|_];
        [injection Hlvl as <-; exists 2%Z; left; split; [reflexivity|by left]|].
      destruct (String.eqb_spec t "sect3") as [->|_];
        [injection Hlvl as <-; exists 3%Z; left; split; [reflexivity|by left]|].
      destruct (String.eqb_spec t "section") as [->|_]; [|discriminate].
      injection Hlvl as <-. exists 0%Z. by right. }
  destruct Hm as [l [[Hm [->|[_ []]]]|[-> ->]]].
  - rewrite (conv_dispatch el parent st t _ Htag Hm) in H.
    destruct (_section _conv el parent lvl (push t st)) as [[[] st1]|] eqn:E;
      [|discriminate].
    injection H as <-. rewrite current_level_pop.
    by eapply section_sets_level.
  - rewrite (conv_dispatch el parent st "section" (e_section _conv el parent) Htag eq_refl)
      in H.
    destruct (e_section _conv el parent (push "section" st)) as [[[] st1]|] eqn:E;
      [|discriminate].
    injection H as <-. rewrite current_level_pop.
    unfold e_section in E. rewrite bind_gets in E.
    by eapply section_sets_level.
Qed.

Lemma section_elements_set_level_witness :
  ∃ st',
    convert_root
      (elem "section" [] None None [elem "section" [] None None [empty_sect2]])
      (init false) = Ok (tt, st') ∧
    current_level st' = 1%Z.
Proof.
  assert (H : ∃ st', convert_root
      (elem "section" [] None None [elem "section" [] None None [empty_sect2]])
      (init false) = Ok (tt, st'))
    by (eexists; vm_compute; reflexivity).
  destruct H as [st' H]. exists st'. split; [exact H|].
  exact (section_elements_set_level
           (elem "section" [] None None [elem "section" [] None None [empty_sect2]])
           document_loc (init false) st' "section" 1%Z eq_refl eq_refl H).
Defined.

(** * The nesting depth of ordered lists *)

(** ** The counter of ordered lists at every call *)

Lemma same_keeps {A} d (m : M A) : keeps m → same_at d m m.
Proof.
  intros Hk st Hd. split; [done|]. intros a st' H.
  subst d. by destruct (Hk _ st st a st' (inv_refl st) H) as (_ & ? & _).
Qed.

Lemma same_bind {A B} d (m m' : M A) (f f' : A → M B) :
  same_at d m m' → (∀ a, same_at d (f a) (f' a)) →
  same_at d (m ≫= f) (m' ≫= f').
Proof.
  intros Hm Hf st Hd. destruct (Hm st Hd) as [Heq Hd1].
  unfold mbind, M_bind. rewrite <- Heq.
  destruct (m st) as [[a st1]|e] eqn:E; [|done].
  apply (Hf a st1). by eapply Hd1.
Qed.

Lemma same_for_each {A} d (body body' : A → M unit) (l : list A) :
  (∀ x, x ∈ l → same_at d (body x) (body' x)) →
  same_at d (for_each body l) (for_each body' l).
Proof.
  induction l as [|x l IH]; intros Hb; simpl.
  - apply same_keeps, keeps_ret.
  - apply same_bind; [apply Hb; left|intros _].
    apply IH. intros y Hy. apply Hb. by right.
Qed.

Lemma same_with_find {A} d t (k k' : etree.SourceElement → M A) (dflt : M A) el :
  (∀ c, c ∈ etree.getchildren el → same_at d (k c) (k' c)) →
  same_at d dflt dflt →
  same_at d (with_find t k dflt el) (with_find t k' dflt el).
Proof.
  unfold with_find. intros Hk Hd.
  induction (etree.getchildren el) as [|c cs IH]; simpl; [done|].
  destruct (has_tag t c).
  - apply Hk. left.
  - apply IH. intros c' Hc'. apply Hk. by right.
Qed.

Create HintDb same discriminated.

Ltac same_step :=
  lazymatch goal with
  | |- same_at _ ?m ?m' =>
      first
        [ constr_eq m m'; apply same_keeps; solve [keeps_tac; eauto with keeps]
        | lazymatch goal with
          | |- same_at _ (_ ≫= _) (_ ≫= _) => apply same_bind; [|intros ?]
          | |- same_at _ (match ?x with _ => _ end) (match ?x with _ => _ end) =>
              destruct x
          | |- _ => solve [eauto with same]
          end ]
  end.

Ltac same_tac := repeat same_step.

Section same_handlers.
Variables conv conv' : etree.SourceElement → option loc → M unit.
Variable d : Z.

Lemma deep_same_child el i :
  deep_same d conv conv' el → i ∈ etree.getchildren el → deep_same d conv conv' i.
Proof.
  intros H Hi j p Hj. apply H. apply height_child in Hi. lia.
Qed.

Lemma same_concat_children parent cs pending :
  (∀ i p, i ∈ cs → same_at d (conv i p) (conv' i p)) →
  same_at d (concat_children conv parent cs pending)
            (concat_children conv' parent cs pending).
Proof.
  revert pending. induction cs as [|i cs IH]; intros pending H; simpl.
  - apply same_keeps, keeps_ret.
  - same_tac.
    + apply H. left.
    + apply IH. intros j p Hj. apply H. by right.
Qed.

Lemma same_concat_into el parent ns :
  deep_same d conv conv' el →
  same_at d (concat_into conv el parent ns) (concat_into conv' el parent ns).
Proof.
  intros H. unfold concat_into.
  apply same_bind.
  - apply same_concat_children. intros i p Hi. apply H. by apply height_child.
  - intros ?. same_tac.
Qed.
Hint Resolve same_concat_into : same.

Lemma same_concat el parent k dk ns :
  deep_same d conv conv' el →
  same_at d (concat conv el parent k dk ns) (concat conv' el parent k dk ns).
Proof. intros H. unfold concat. same_tac. Qed.
Hint Resolve same_concat : same.

Lemma same_block el parent k :
  deep_same d conv conv' el →
  same_at d (block conv el parent k) (block conv' el parent k).
Proof. intros H. unfold block. same_tac. Qed.
Hint Resolve same_block : same.

Lemma same_inline el parent c ns :
  deep_same d conv conv' el →
  same_at d (inline conv el parent c ns) (inline conv' el parent c ns).
Proof. intros H. unfold inline. same_tac. Qed.
Hint Resolve same_inline : same.

Lemma same_rubric el parent :
  deep_same d conv conv' el →
  same_at d (rubric conv el parent) (rubric conv' el parent).
Proof. intros H. unfold rubric. same_tac. Qed.
Hint Resolve same_rubric : same.

Lemma same__section el parent lvl :
  deep_same d conv conv' el →
  same_at d (_section conv el parent lvl) (_section conv' el parent lvl).
Proof. intros H. unfold _section. same_tac. Qed.
Hint Resolve same__section : same.

Lemma same_paramdefs t parent cs sep :
  (∀ i p, i ∈ cs → same_at d (conv i p) (conv' i p)) →
  same_at d (paramdefs conv t parent cs sep) (paramdefs conv' t parent cs sep).
Proof.
  revert sep. induction cs as [|i cs IH]; intros sep H; simpl.
  - apply same_keeps, keeps_ret.
  - assert (∀ sep', same_at d (paramdefs conv t parent cs sep')
                              (paramdefs conv' t parent cs sep')).
    { intros sep'. apply IH. intros j p Hj. apply H. by right. }
    same_tac. apply H. left.
Qed.

Ltac handler := same_tac; eauto using deep_same_child with same.

Hint Resolve keeps_e_cmdsynopsis keeps_e_xref keeps_e_indexterm keeps_e_refname
  keeps_e_anchor keeps_nop : keeps.

Lemma same_e_chapter el parent :
  deep_same d conv conv' el → same_at d (e_chapter conv el parent) (e_chapter conv' el parent).
Proof. intros H. unfold e_chapter. handler. Qed.
Hint Resolve same_e_chapter : same.

Lemma same_e_sect1 el parent :
  deep_same d conv conv' el → same_at d (e_sect1 conv el parent) (e_sect1 conv' el parent).
Proof. intros H. unfold e_sect1. handler. Qed.
Hint Resolve same_e_sect1 : same.

Lemma same_e_sect2 el parent :
  deep_same d conv conv' el → same_at d (e_sect2 conv el parent) (e_sect2 conv' el parent).
Proof. intros H. unfold e_sect2. handler. Qed.
Hint Resolve same_e_sect2 : same.

Lemma same_e_sect3 el parent :
  deep_same d conv conv' el → same_at d (e_sect3 conv el parent) (e_sect3 conv' el parent).
Proof. intros H. unfold e_sect3. handler. Qed.
Hint Resolve same_e_sect3 : same.

Lemma same_e_section el parent :
  deep_same d conv conv' el → same_at d (e_section conv el parent) (e_section conv' el parent).
Proof. intros H. unfold e_section. handler. Qed.
Hint Resolve same_e_section : same.

Lemma same_e_topic_def el parent :
  deep_same d conv conv' el → same_at d (e_topic_def conv el parent) (e_topic_def conv' el parent).
Proof. intros H. unfold e_topic_def. handler. Qed.
Hint Resolve same_e_topic_def : same.

Lemma same_e_preface el parent :
  deep_same d conv conv' el → same_at d (e_preface conv el parent) (e_preface conv' el parent).
Proof. intros H. unfold e_preface. handler. Qed.
Hint Resolve same_e_preface : same.

Lemma same_e_appendix el parent :
  deep_same d conv conv' el → same_at d (e_appendix conv el parent) (e_appendix conv' el parent).
Proof. intros H. unfold e_appendix. handler. Qed.
Hint Resolve same_e_appendix : same.

Lemma same_e_title el parent :
  deep_same d conv conv' el → same_at d (e_title conv el parent) (e_title conv' el parent).
Proof. intros H. unfold e_title. handler. Qed.
Hint Resolve same_e_title : same.

Lemma same_e_book el parent :
  deep_same d conv conv' el → same_at d (e_book conv el parent) (e_book conv' el parent).
Proof. intros H. unfold e_book. handler. Qed.
Hint Resolve same_e_book : same.

Lemma same_e_article el parent :
  deep_same d conv conv' el → same_at d (e_article conv el parent) (e_article conv' el parent).
Proof. intros H. unfold e_article. handler. Qed.
Hint Resolve same_e_article : same.

Lemma same_e_topic el parent :
  deep_same d conv conv' el → same_at d (e_topic conv el parent) (e_topic conv' el parent).
Proof. intros H. unfold e_topic. handler. Qed.
Hint Resolve same_e_topic : same.

Lemma same_e_blockquote el parent :
  deep_same d conv conv' el → same_at d (e_blockquote conv el parent) (e_blockquote conv' el parent).
Proof. intros H. unfold e_blockquote. handler. Qed.
Hint Resolve same_e_blockquote : same.

Lemma same_e_epigraph el parent :
  deep_same d conv conv' el → same_at d (e_epigraph conv el parent) (e_epigraph conv' el parent).
Proof. intros H. unfold e_epigraph. handler. Qed.
Hint Resolve same_e_epigraph : same.

Lemma same_e_sidebar el parent :
  deep_same d conv conv' el → same_at d (e_sidebar conv el parent) (e_sidebar conv' el parent).
Proof. intros H. unfold e_sidebar. handler. Qed.
Hint Resolve same_e_sidebar : same.

Lemma same_e_para el parent :
  deep_same d conv conv' el → same_at d (e_para conv el parent) (e_para conv' el parent).
Proof. intros H. unfold e_para. handler. Qed.
Hint Resolve same_e_para : same.

Lemma same_e_formalpara el parent :
  deep_same d conv conv' el → same_at d (e_formalpara conv el parent) (e_formalpara conv' el parent).
Proof. intros H. unfold e_formalpara. handler. Qed.
Hint Resolve same_e_formalpara : same.

Lemma same_e_simpara el parent :
  deep_same d conv conv' el → same_at d (e_simpara conv el parent) (e_simpara conv' el parent).
Proof. intros H. unfold e_simpara. handler. Qed.
Hint Resolve same_e_simpara : same.

Lemma same_e_note el parent :
  deep_same d conv conv' el → same_at d (e_note conv el parent) (e_note conv' el parent).
Proof. intros H. unfold e_note. handler. Qed.
Hint Resolve same_e_note : same.

Lemma same_e_caution el parent :
  deep_same d conv conv' el → same_at d (e_caution conv el parent) (e_caution conv' el parent).
Proof. intros H. unfold e_caution. handler. Qed.
Hint Resolve same_e_caution : same.

Lemma same_e_important el parent :
  deep_same d conv conv' el → same_at d (e_important conv el parent) (e_important conv' el parent).
Proof. intros H. unfold e_important. handler. Qed.
Hint Resolve same_e_important : same.

Lemma same_e_tip el parent :
  deep_same d conv conv' el → same_at d (e_tip conv el parent) (e_tip conv' el parent).
Proof. intros H. unfold e_tip. handler. Qed.
Hint Resolve same_e_tip : same.

Lemma same_e_warning el parent :
  deep_same d conv conv' el → same_at d (e_warning conv el parent) (e_warning conv' el parent).
Proof. intros H. unfold e_warning. handler. Qed.
Hint Resolve same_e_warning : same.

Lemma same_concat_method el parent :
  deep_same d conv conv' el → same_at d (concat_method conv el parent) (concat_method conv' el parent).
Proof. intros H. unfold concat_method. handler. Qed.
Hint Resolve same_concat_method : same.

Lemma same_block_method el parent :
  deep_same d conv conv' el → same_at d (block_method conv el parent) (block_method conv' el parent).
Proof. intros H. unfold block_method. handler. Qed.
Hint Resolve same_block_method : same.

Lemma same_e_informalexample el parent :
  deep_same d conv conv' el → same_at d (e_informalexample conv el parent) (e_informalexample conv' el parent).
Proof. intros H. unfold e_informalexample. handler. Qed.
Hint Resolve same_e_informalexample : same.

Lemma same_e_literallayout el parent :
  deep_same d conv conv' el → same_at d (e_literallayout conv el parent) (e_literallayout conv' el parent).
Proof. intros H. unfold e_literallayout. handler. Qed.
Hint Resolve same_e_literallayout : same.

Lemma same_e_screen el parent :
  deep_same d conv conv' el → same_at d (e_screen conv el parent) (e_screen conv' el parent).
Proof. intros H. unfold e_screen. handler. Qed.
Hint Resolve same_e_screen : same.

Lemma same_e_programlisting el parent :
  deep_same d conv conv' el → same_at d (e_programlisting conv el parent) (e_programlisting conv' el parent).
Proof. intros H. unfold e_programlisting. handler. Qed.
Hint Resolve same_e_programlisting : same.

Lemma same_e_glosslist el parent :
  deep_same d conv conv' el → same_at d (e_glosslist conv el parent) (e_glosslist conv' el parent).
Proof. intros H. unfold e_glosslist. handler. Qed.
Hint Resolve same_e_glosslist : same.

Lemma same_e_glossentry el parent :
  deep_same d conv conv' el → same_at d (e_glossentry conv el parent) (e_glossentry conv' el parent).
Proof. intros H. unfold e_glossentry. handler. Qed.
Hint Resolve same_e_glossentry : same.

Lemma same_e_glossterm el parent :
  deep_same d conv conv' el → same_at d (e_glossterm conv el parent) (e_glossterm conv' el parent).
Proof. intros H. unfold e_glossterm. handler. Qed.
Hint Resolve same_e_glossterm : same.

Lemma same_e_glossdef el parent :
  deep_same d conv conv' el → same_at d (e_glossdef conv el parent) (e_glossdef conv' el parent).
Proof. intros H. unfold e_glossdef. handler. Qed.
Hint Resolve same_e_glossdef : same.

Lemma same_e_itemizedlist el parent :
  deep_same d conv conv' el → same_at d (e_itemizedlist conv el parent) (e_itemizedlist conv' el parent).
Proof. intros H. unfold e_itemizedlist. handler. Qed.
Hint Resolve same_e_itemizedlist : same.

Lemma same_e_listitem el parent :
  deep_same d conv conv' el → same_at d (e_listitem conv el parent) (e_listitem conv' el parent).
Proof. intros H. unfold e_listitem. handler. Qed.
Hint Resolve same_e_listitem : same.

Lemma same_e_variablelist el parent :
  deep_same d conv conv' el → same_at d (e_variablelist conv el parent) (e_variablelist conv' el parent).
Proof. intros H. unfold e_variablelist. handler. Qed.
Hint Resolve same_e_variablelist : same.

Lemma same_e_emphasis el parent :
  deep_same d conv conv' el → same_at d (e_emphasis conv el parent) (e_emphasis conv' el parent).
Proof. intros H. unfold e_emphasis. handler. Qed.
Hint Resolve same_e_emphasis : same.

Lemma same_e_phrase el parent :
  deep_same d conv conv' el → same_at d (e_phrase conv el parent) (e_phrase conv' el parent).
Proof. intros H. unfold e_phrase. handler. Qed.
Hint Resolve same_e_phrase : same.

Lemma same_e_citetitle el parent :
  deep_same d conv conv' el → same_at d (e_citetitle conv el parent) (e_citetitle conv' el parent).
Proof. intros H. unfold e_citetitle. handler. Qed.
Hint Resolve same_e_citetitle : same.

Lemma same_e_replaceable el parent :
  deep_same d conv conv' el → same_at d (e_replaceable conv el parent) (e_replaceable conv' el parent).
Proof. intros H. unfold e_replaceable. handler. Qed.
Hint Resolve same_e_replaceable : same.

Lemma same_e_literal el parent :
  deep_same d conv conv' el → same_at d (e_literal conv el parent) (e_literal conv' el parent).
Proof. intros H. unfold e_literal. handler. Qed.
Hint Resolve same_e_literal : same.

Lemma same_e_code el parent :
  deep_same d conv conv' el → same_at d (e_code conv el parent) (e_code conv' el parent).
Proof. intros H. unfold e_code. handler. Qed.
Hint Resolve same_e_code : same.

Lemma same_e_keycap el parent :
  deep_same d conv conv' el → same_at d (e_keycap conv el parent) (e_keycap conv' el parent).
Proof. intros H. unfold e_keycap. handler. Qed.
Hint Resolve same_e_keycap : same.

Lemma same_e_application el parent :
  deep_same d conv conv' el → same_at d (e_application conv el parent) (e_application conv' el parent).
Proof. intros H. unfold e_application. handler. Qed.
Hint Resolve same_e_application : same.

Lemma same_e_systemitem el parent :
  deep_same d conv conv' el → same_at d (e_systemitem conv el parent) (e_systemitem conv' el parent).
Proof. intros H. unfold e_systemitem. handler. Qed.
Hint Resolve same_e_systemitem : same.

Lemma same_e_prompt el parent :
  deep_same d conv conv' el → same_at d (e_prompt conv el parent) (e_prompt conv' el parent).
Proof. intros H. unfold e_prompt. handler. Qed.
Hint Resolve same_e_prompt : same.

Lemma same_e_filename el parent :
  deep_same d conv conv' el → same_at d (e_filename conv el parent) (e_filename conv' el parent).
Proof. intros H. unfold e_filename. handler. Qed.
Hint Resolve same_e_filename : same.

Lemma same_e_command el parent :
  deep_same d conv conv' el → same_at d (e_command conv el parent) (e_command conv' el parent).
Proof. intros H. unfold e_command. handler. Qed.
Hint Resolve same_e_command : same.

Lemma same_e_option el parent :
  deep_same d conv conv' el → same_at d (e_option conv el parent) (e_option conv' el parent).
Proof. intros H. unfold e_option. handler. Qed.
Hint Resolve same_e_option : same.

Lemma same_e_envar el parent :
  deep_same d conv conv' el → same_at d (e_envar conv el parent) (e_envar conv' el parent).
Proof. intros H. unfold e_envar. handler. Qed.
Hint Resolve same_e_envar : same.

Lemma same_e_firstterm el parent :
  deep_same d conv conv' el → same_at d (e_firstterm conv el parent) (e_firstterm conv' el parent).
Proof. intros H. unfold e_firstterm. handler. Qed.
Hint Resolve same_e_firstterm : same.

Lemma same_e_userinput el parent :
  deep_same d conv conv' el → same_at d (e_userinput conv el parent) (e_userinput conv' el parent).
Proof. intros H. unfold e_userinput. handler. Qed.
Hint Resolve same_e_userinput : same.

Lemma same_e_subscript el parent :
  deep_same d conv conv' el → same_at d (e_subscript conv el parent) (e_subscript conv' el parent).
Proof. intros H. unfold e_subscript. handler. Qed.
Hint Resolve same_e_subscript : same.

Lemma same_e_superscript el parent :
  deep_same d conv conv' el → same_at d (e_superscript conv el parent) (e_superscript conv' el parent).
Proof. intros H. unfold e_superscript. handler. Qed.
Hint Resolve same_e_superscript : same.

Lemma same_e_quote el parent :
  deep_same d conv conv' el → same_at d (e_quote conv el parent) (e_quote conv' el parent).
Proof. intros H. unfold e_quote. handler. Qed.
Hint Resolve same_e_quote : same.

Lemma same_e_footnote el parent :
  deep_same d conv conv' el → same_at d (e_footnote conv el parent) (e_footnote conv' el parent).
Proof. intros H. unfold e_footnote. handler. Qed.
Hint Resolve same_e_footnote : same.

Lemma same_e_ulink el parent :
  deep_same d conv conv' el → same_at d (e_ulink conv el parent) (e_ulink conv' el parent).
Proof. intros H. unfold e_ulink. handler. Qed.
Hint Resolve same_e_ulink : same.

Lemma same_e_link el parent :
  deep_same d conv conv' el → same_at d (e_link conv el parent) (e_link conv' el parent).
Proof. intros H. unfold e_link. handler. Qed.
Hint Resolve same_e_link : same.

Lemma same_e_inlineequation el parent :
  deep_same d conv conv' el → same_at d (e_inlineequation conv el parent) (e_inlineequation conv' el parent).
Proof. intros H. unfold e_inlineequation. handler. Qed.
Hint Resolve same_e_inlineequation : same.

Lemma same_e_equation el parent :
  deep_same d conv conv' el → same_at d (e_equation conv el parent) (e_equation conv' el parent).
Proof. intros H. unfold e_equation. handler. Qed.
Hint Resolve same_e_equation : same.

Lemma same_e_mathphrase el parent :
  deep_same d conv conv' el → same_at d (e_mathphrase conv el parent) (e_mathphrase conv' el parent).
Proof. intros H. unfold e_mathphrase. handler. Qed.
Hint Resolve same_e_mathphrase : same.

Lemma same_e_refentry el parent :
  deep_same d conv conv' el → same_at d (e_refentry conv el parent) (e_refentry conv' el parent).
Proof. intros H. unfold e_refentry. handler. Qed.
Hint Resolve same_e_refentry : same.

Lemma same_e_refsect1 el parent :
  deep_same d conv conv' el → same_at d (e_refsect1 conv el parent) (e_refsect1 conv' el parent).
Proof. intros H. unfold e_refsect1. handler. Qed.
Hint Resolve same_e_refsect1 : same.

Lemma same_e_funcparams el parent :
  deep_same d conv conv' el → same_at d (e_funcparams conv el parent) (e_funcparams conv' el parent).
Proof. intros H. unfold e_funcparams. handler. Qed.
Hint Resolve same_e_funcparams : same.

Lemma same_e_parameter el parent :
  deep_same d conv conv' el → same_at d (e_parameter conv el parent) (e_parameter conv' el parent).
Proof. intros H. unfold e_parameter. handler. Qed.
Hint Resolve same_e_parameter : same.

Lemma same_e_varlistentry el parent :
  deep_same d conv conv' el →
  same_at d (e_varlistentry conv el parent) (e_varlistentry conv' el parent).
Proof.
  unfold e_varlistentry. intros H. same_tac.
  - apply same_for_each. intros term Hterm. same_tac.
    eauto using deep_same_child with same.
  - apply same_with_find; [|apply same_keeps, keeps_ret]. intros c Hc.
    same_tac. eauto using deep_same_child with same.
Qed.

Lemma same_e_funcprototype el parent :
  deep_same d conv conv' el →
  same_at d (e_funcprototype conv el parent) (e_funcprototype conv' el parent).
Proof.
  unfold e_funcprototype. intros H. same_tac.
  - apply same_with_find; [|apply same_keeps, keeps_raise]. intros c Hc.
    apply H. by apply height_child.
  - apply same_paramdefs. intros i p Hi. apply H. by apply height_child.
Qed.
Hint Resolve same_e_varlistentry same_e_funcprototype : same.

Lemma same_methods el parent :
  deep_same d conv conv' el →
  Forall2 (λ x y, x.1 = y.1 ∧ (x.1 ≠ "e_orderedlist" → same_at d x.2 y.2))
    (methods conv el parent) (methods conv' el parent).
Proof.
  intros H. unfold methods.
  repeat (constructor;
          [split; [reflexivity|];
           intros Hne; simpl;
           first [ by destruct Hne
                 | solve [auto with same]
                 | apply same_keeps; solve [auto with keeps] ]|]).
  constructor.
Qed.

Lemma same_method name el parent :
  deep_same d conv conv' el → name ≠ "e_orderedlist" →
  match method conv name el parent, method conv' name el parent with
  | Some m, Some m' => same_at d m m'
  | None, None => True
  | _, _ => False
  end.
Proof.
  intros H Hne. unfold method.
  induction (same_methods el parent H) as [|x y l l' [Hxy Hs] _ IH]; simpl; [done|].
  rewrite <- Hxy. destruct (String.eqb_spec x.1 name) as [Hx|_]; simpl; [|exact IH].
  apply Hs. congruence.
Qed.

(** [e_orderedlist] entered with the counter at [d - 1] converts what is
    inside the list with the counter at [d]. *)
Lemma same_e_orderedlist el parent st :
  deep_same d conv conv' el →
  _ordered_list_depth st = (d - 1)%Z →
  e_orderedlist conv el parent st = e_orderedlist conv' el parent st.
Proof.
  intros H Hd. unfold e_orderedlist. rewrite !bind_gets.
  apply bind_ext_run. intros [] st1 H1.
  assert (Hd1 : _ordered_list_depth st1 = (d - 1)%Z).
  { destruct (keeps_supports_only _ _ _ st st _ _ (inv_refl st) H1) as (_ & -> & _).
    exact Hd. }
  rewrite !bind_gets, !bind_modify.
  apply bind_cong; [|done].
  apply same_block; [exact H|]. simpl. lia.
Qed.

Lemma comment_is_no_method n :
  PyStr.drop n (etree.str_tag etree.TagComment) ≠ "orderedlist".
Proof.
  intros H.
  do 30 (destruct n as [|n]; [vm_compute in H; discriminate|]).
  vm_compute in H. discriminate.
Qed.

Lemma resolve_depth el st r st1 :
  resolve el st = Ok (r, st1) → _ordered_list_depth st1 = _ordered_list_depth st.
Proof.
  intros H.
  assert (Hk : keeps (resolve el)) by (unfold resolve; keeps_tac).
  by destruct (Hk _ st st _ _ (inv_refl st) H) as (_ & ? & _).
Qed.

Lemma resolve_comment el st r st1 :
  etree.tag el = etree.TagComment →
  resolve el st = Ok (r, st1) → r.2 ≠ Some "e_orderedlist".
Proof.
  intros Htag H. unfold resolve in H. rewrite bind_gets, Htag in H.
  destruct (PyStr.startswith _ _).
  - unfold ret in H. injection H as <- _. simpl. intros [=E].
    by apply (comment_is_no_method (PyStr.len (_ns st))).
    
  - change (PyStr.startswith (etree.str_tag etree.TagComment) "{") with false in H.
    cbv iota in H. unfold ret in H. by injection H as <- _.
Qed.

(** The body of [_conv] on anything but an ordered list. *)
Lemma same_conv_body el parent st :
  deep_same d conv conv' el →
  _ordered_list_depth st = d →
  is_orderedlist el st = false →
  _conv_body conv el parent st = _conv_body conv' el parent st.
Proof.
  intros H Hd Hol. unfold _conv_body.
  destruct (etree.is_ProcessingInstruction el) eqn:Hpi; [done|].
  apply bind_ext_run. intros nb st0 Hnb.
  assert (st0 = st) as ->.
  { destruct (etree.is_Comment el); [destruct (etree.text el)|];
      unfold ret, raise in Hnb; by simplify_eq. }
  destruct nb; [done|].
  apply bind_ext_run. intros r st1 Hr.
  rewrite !bind_modify. apply bind_cong; [|done].
  assert (Hne : r.2 ≠ Some "e_orderedlist").
  { unfold is_orderedlist in Hol. rewrite Hr in Hol.
    unfold etree.is_ProcessingInstruction in Hpi.
    destruct (etree.tag el) eqn:Htag; [|by eapply resolve_comment|done].
    by apply bool_decide_eq_false in Hol. }
  assert (Hd1 : _ordered_list_depth (set_stack (_stack st1 ++ [r.1]) st1) = d).
  { simpl. rewrite (resolve_depth _ _ _ _ Hr). exact Hd. }
  destruct r.2 as [name|]; simpl.
  - assert (Hn : name ≠ "e_orderedlist") by congruence.
    pose proof (same_method name el (default document_loc parent) H Hn) as Hm.
    destruct (method conv name el _), (method conv' name el _); try done.
    + by apply Hm.
    + assert (Hu : same_at d (unhandled conv el (default document_loc parent))
                             (unhandled conv' el (default document_loc parent))).
      { unfold unhandled, warn_unhandled. same_tac. }
      by apply Hu.
  - assert (Hu : same_at d (unhandled conv el (default document_loc parent))
                           (unhandled conv' el (default document_loc parent))).
    { unfold unhandled, warn_unhandled. same_tac. }
    by apply Hu.
Qed.

(** The body of [_conv] on an ordered list reached with the counter at
    [d - 1]. *)
Lemma same_conv_body_orderedlist el parent st :
  deep_same d conv conv' el →
  _ordered_list_depth st = (d - 1)%Z →
  is_orderedlist el st = true →
  _conv_body conv el parent st = _conv_body conv' el parent st.
Proof.
  intros H Hd Hol. unfold _conv_body.
  destruct (etree.is_ProcessingInstruction el) eqn:Hpi; [done|].
  apply bind_ext_run. intros nb st0 Hnb.
  assert (st0 = st) as ->.
  { destruct (etree.is_Comment el); [destruct (etree.text el)|];
      unfold ret, raise in Hnb; by simplify_eq. }
  destruct nb; [done|].
  apply bind_ext_run. intros r st1 Hr.
  rewrite !bind_modify. apply bind_cong; [|done].
  unfold is_orderedlist in Hol. rewrite Hr in Hol.
  destruct (etree.tag el); [|done..].
  apply bool_decide_eq_true in Hol. rewrite Hol. simpl.
  change (method conv "e_orderedlist" el (default document_loc parent))
    with (Some (e_orderedlist conv el (default document_loc parent))).
  change (method conv' "e_orderedlist" el (default document_loc parent))
    with (Some (e_orderedlist conv' el (default document_loc parent))).
  apply same_e_orderedlist; [exact H|].
  simpl. rewrite (resolve_depth _ _ _ _ Hr). exact Hd.
Qed.

End same_handlers.

Lemma _conv_asserting_unfold k el parent :
  _conv_asserting k el parent = asserting k _conv_asserting el parent.
Proof. by destruct el. Qed.

Lemma create_alloc el parent K dk st n st' :
  create el parent (Some K) dk st = Ok (n, st') → n = length (the_heap st).
Proof.
  unfold create, node. rewrite bind_gets. intros H.
  assert (H' : (n0 ← create_node parent K (id_or_None (etree.get el (_id_attrib st))) None;
                iadd parent n0;; ret n0) st = Ok (n, st')).
  { destruct (id_or_None _); exact H. }
  clear H. apply bind_Ok_inv in H' as (n0 & st1 & H1 & H).
  apply bind_Ok_inv in H as ([] & st2 & H2 & H).
  unfold ret in H. injection H as <- <-.
  by eapply create_node_result.
Qed.

(** [block] with a class makes its node at the next location, whatever
    the parent is. *)
Lemma block_alloc el parent K st n st' :
  block _conv el parent (Some K) st = Ok (n, st') →
  n = length (the_heap st) ∧ klass_of st' n = Some K ∧
  _ordered_list_depth st' = _ordered_list_depth st.
Proof.
  intros H.
  assert (Hd : _ordered_list_depth st' = _ordered_list_depth st).
  { pose proof (keeps_block _conv el parent (Some K) (λ i p _, keeps_conv i p)
                  _ st st n st' (inv_refl st) H) as (_ & ? & _). done. }
  unfold block, concat in H.
  apply bind_Ok_inv in H as (n1 & st3 & H1 & H).
  apply bind_Ok_inv in H1 as (n2 & st1 & Hc & H1).
  apply bind_Ok_inv in H1 as ([] & st2 & H2 & H1).
  unfold ret in H1. injection H1 as <- <-.
  pose proof (create_alloc _ _ _ _ _ _ _ Hc) as Hn.
  pose proof (create_klass _ _ _ _ _ _ _ Hc) as Hk.
  assert (Hle : heap_le (the_heap st1) (the_heap st')).
  { pose proof (keeps_concat_into _conv el n2 false
                  (λ i p _, keeps_conv i p) _ st1 st1 tt st2 (inv_refl st1) H2) as Hi.
    assert (Hk3 : keeps (save ← gets _save;
                         match save with
                         | [] => ret n2
                         | _ :: _ =>
                             for_each (λ i : loc, iadd parent i) save;;
                             modify (set_save []);; ret n2
                         end)) by keeps_tac.
    pose proof (Hk3 _ st1 st2 _ _ Hi H) as Hi3. rewrite bind_gets in H.
    assert (n = n2) as ->.
    { destruct (_save st2).
      - unfold ret in H. by injection H.
      - apply bind_Ok_inv in H as ([] & st4 & _ & H).
        rewrite bind_modify in H. unfold ret in H. by injection H. }
    by eapply inv_heap_le. }
  assert (n = n2) as ->.
  { rewrite bind_gets in H. destruct (_save st2).
    - unfold ret in H. by injection H.
    - apply bind_Ok_inv in H as ([] & st4 & _ & H).
      rewrite bind_modify in H. unfold ret in H. by injection H. }
  split; [done|]. split; [|done].
  by eapply klass_stable.
Qed.

(** What [e_orderedlist] leaves of the list: its node, numbered after the
    counter, and the counter as it was. *)
Lemma e_orderedlist_numbered el parent st st' :
  e_orderedlist _conv el parent st = Ok (tt, st') →
  let n := length (the_heap st) in
  klass_of st' n = Some nodes.enumerated_list ∧
  attr_of st' n "enumtype" =
    Some (nodes.PStr (enumtype_at (_ordered_list_depth st + 1))) ∧
  _ordered_list_depth st' = _ordered_list_depth st.
Proof.
  intros H n. unfold e_orderedlist in H.
  rewrite bind_gets in H.
  apply bind_Ok_inv in H as ([] & st1 & H1 & H).
  apply supports_only_messages in H1 as [ms ->].
  rewrite bind_gets, bind_modify in H.
  apply bind_Ok_inv in H as (n' & st2 & H2 & H).
  apply block_alloc in H2 as (-> & Hk & Hd).
  change (the_heap (set_ordered_list_depth _ _)) with (the_heap st) in *.
  fold n in Hk, H.
  change (_ordered_list_depth (set_ordered_list_depth _ _))
    with (_ordered_list_depth st + 1)%Z in Hd.
  rewrite bind_gets, Hd in H.
  unfold setitem, update, modify_doc, modify, gets, mbind, M_bind in H.
  simpl in H. injection H as <-.
  unfold klass_of, attr_of, the_heap in *. simpl.
  rewrite !klass_after_setitem.
  split; [exact Hk|]. split; [|lia].
  destruct (heap (the_document st2) !! n) as [nd|] eqn:Hn; [|done].
  rewrite !lookup_alter_same, Hn. simpl.
  rewrite lookup_insert_ne by done. rewrite lookup_insert_ne by done.
  by rewrite lookup_insert_eq.
Qed.

Lemma resolve_orderedlist el st :
  is_orderedlist el st = true →
  etree.is_ProcessingInstruction el = false ∧ etree.is_Comment el = false ∧
  ∃ t, resolve el st = Ok ((t, Some "e_orderedlist"), st).
Proof.
  unfold is_orderedlist, etree.is_ProcessingInstruction, etree.is_Comment.
  destruct (etree.tag el) as [s| |] eqn:Htag; [|done..]. intros H.
  split; [done|]. split; [done|].
  unfold resolve in *. rewrite bind_gets in *. rewrite Htag in *. simpl in *.
  destruct (PyStr.startswith s (_ns st)).
  - unfold ret in *. apply bool_decide_eq_true in H. simpl in H. rewrite H. eauto.
  - destruct (PyStr.startswith s "{"); [|done].
    destruct (PyStr.split _ _) as [|? [|? [|? ?]]]; try done.
    unfold _NSMAP in H. rewrite lookup_empty in H. rewrite bind_gets in H.
    unfold mbind, M_bind in H.
    destruct (if bool_decide _ then _ else _) as [[[] ?]|]; [|done].
    simpl in H. done.
Qed.

(** [_conv] on an ordered list is [e_orderedlist] between the push and
    the pop of its tag. *)
Lemma conv_orderedlist el parent st :
  is_orderedlist el st = true →
  ∃ t, _conv el parent st =
         match e_orderedlist _conv el (default document_loc parent) (push t st) with
         | Ok (_, st') => Ok (tt, pop st')
         | Raise e => Raise e
         end.
Proof.
  intros H. apply resolve_orderedlist in H as (Hpi & Hc & t & Hr).
  exists t. rewrite _conv_unfold. unfold _conv_body. rewrite Hpi, Hc.
  rewrite bind_ret. rewrite (bind_Ok _ _ _ _ _ Hr). rewrite bind_modify. simpl.
  change (method _conv "e_orderedlist" el (default document_loc parent))
    with (Some (e_orderedlist _conv el (default document_loc parent))).
  unfold mbind, M_bind, push. by destruct (e_orderedlist _ _ _ _) as [[[] st']|].
Qed.

Lemma conv_orderedlist_numbered el parent st st' :
  is_orderedlist el st = true →
  _conv el parent st = Ok (tt, st') →
  let n := length (the_heap st) in
  klass_of st' n = Some nodes.enumerated_list ∧
  attr_of st' n "enumtype" =
    Some (nodes.PStr (enumtype_at (_ordered_list_depth st + 1))) ∧
  _ordered_list_depth st' = _ordered_list_depth st.
Proof.
  intros Hol H n. destruct (conv_orderedlist el parent st Hol) as [t Hc].
  rewrite Hc in H.
  destruct (e_orderedlist _ _ _ _) as [[[] st2]|] eqn:He; [|done].
  injection H as <-.
  apply e_orderedlist_numbered in He. exact He.
Qed.

(** C6: convert any element with the assertions of [_conv_asserting]
    added, [k] being the number of ordered lists around it and the value
    of the counter: no assertion fails, the outcome is that of [_conv].
    So at every element the conversion reaches the counter is the number
    of ordered lists around the element, and every ordered list, at
    whatever nesting depth it is, comes out as the next node, an
    [enumerated_list] whose [enumtype] is "arabic" at nesting depth 1 and
    "loweralpha" at nesting depth 2 or more, with the counter back at the
    value it had before the list.  For the list itself, at nesting depth
    [k + 1]: its node is appended to the parent if that exists. *)
Theorem orderedlist_numbering k el parent st :
  _ordered_list_depth st = k →
  _conv_asserting k el parent st = _conv el parent st ∧
  (is_orderedlist el st = true →
   ∀ st', _conv el parent st = Ok (tt, st') →
     let n := length (the_heap st) in
     let p := default document_loc parent in
     klass_of st' n = Some nodes.enumerated_list ∧
     ((p < length (the_heap st))%nat → n ∈ children_of st' p) ∧
     (k + 1 = 1 → attr_of st' n "enumtype" = Some (nodes.PStr "arabic"))%Z ∧
     (2 ≤ k + 1 → attr_of st' n "enumtype" = Some (nodes.PStr "loweralpha"))%Z ∧
     _ordered_list_depth st' = k).
Proof.
  intros Hk. split.
  - revert k parent st Hk.
    remember (S (etree.height el)) as h eqn:Hh.
    assert (Hlt : (etree.height el < h)%nat) by lia. clear Hh.
    revert el Hlt. induction h as [|h IH]; intros el Hlt k parent st Hk; [lia|].
    assert (Hdeep : ∀ k', deep_same k' (_conv_asserting k') _conv el).
    { intros k' i p Hi st1 Hd1. split; [apply IH; [lia|done]|].
      intros a st' H. rewrite IH in H by (lia || done).
      by destruct (keeps_conv i p _ st1 st1 a st' (inv_refl st1) H) as (_ & -> & _). }
    rewrite _conv_asserting_unfold. unfold asserting.
    rewrite bool_decide_eq_true_2 by done.
    destruct (is_orderedlist el st) eqn:Hol.
    + rewrite (same_conv_body_orderedlist _ _conv (k + 1) el parent st (Hdeep _))
        by (done || lia).
      rewrite <- _conv_unfold.
      destruct (_conv el parent st) as [[[] st']|e] eqn:Hrun; [|done].
      destruct (conv_orderedlist_numbered el parent st st' Hol Hrun) as (H1 & H2 & H3).
      unfold numbered_for. rewrite H1, H2, H3, Hk.
      rewrite !bool_decide_eq_true_2 by done. by rewrite String.eqb_refl.
    + rewrite (same_conv_body _ _conv k el parent st (Hdeep _)) by done.
      by rewrite <- _conv_unfold.
  - intros Hol st' H n p.
    destruct (conv_orderedlist_numbered el parent st st' Hol H) as (H1 & H2 & H3).
    rewrite Hk in H2, H3. fold n in H1, H2.
    split; [exact H1|]. split; [|split; [|split; [|exact H3]]].
    + intros Hp. destruct (conv_orderedlist el parent st Hol) as [t Hc].
      rewrite Hc in H. fold p in H.
      destruct (e_orderedlist _conv el p (push t st)) as [[[] st2]|] eqn:He; [|done].
      injection H as <-.
      by destruct (e_orderedlist_appended el p (push t st) st2 Hp He) as (_ & ? & _).
    + intros Hd. rewrite H2. unfold enumtype_at. by rewrite Hd.
    + intros Hd. rewrite H2. unfold enumtype_at.
      destruct (Z.eqb_spec (k + 1) 1); [lia|done].
Qed.

Lemma orderedlist_numbering_witness :
  ∃ st',
    _conv_asserting 0 nested_orderedlist (Some document_loc) (init false) = Ok (tt, st') ∧
    attr_of st' 1 "enumtype" = Some (nodes.PStr "arabic") ∧
    attr_of st' 5 "enumtype" = Some (nodes.PStr "loweralpha") ∧
    _ordered_list_depth st' = 0%Z.
Proof.
  assert (H : ∃ st', _conv nested_orderedlist (Some document_loc) (init false)
                     = Ok (tt, st') ∧
                     attr_of st' 5 "enumtype" = Some (nodes.PStr "loweralpha"))
    by (eexists; split; vm_compute; reflexivity).
  destruct H as (st' & H & H5). exists st'.
  destruct (orderedlist_numbering 0 nested_orderedlist (Some document_loc)
              (init false) eq_refl) as [Heq Hlist].
  split; [by rewrite Heq|].
  destruct (Hlist eq_refl st' H) as (_ & _ & Harabic & _ & Hd).
  split; [by apply Harabic|]. split; [exact H5|exact Hd].
Defined.

(** * More of the two modules *)

(** ** The assembly graph *)

Lemma keep_edges_idemp d l : keep_edges d (keep_edges d l) = keep_edges d l.
Proof.
  apply keep_edges_id. apply Forall_forall. intros x Hx.
  by apply keep_edges_spec in Hx as [_ ?].
Qed.

Lemma keep_edges_app d l1 l2 :
  keep_edges d (l1 ++ l2) = keep_edges d l1 ++ keep_edges d l2.
Proof. unfold keep_edges. apply List.filter_app. Qed.

Lemma purge_children self d g :
  DocbookAssemblyInfo.purge self d = Ok g →
  DocbookAssemblyInfo.children g = keep_edges d <$> DocbookAssemblyInfo.children self.
Proof.
  unfold DocbookAssemblyInfo.purge. intros H.
  destruct (DocbookAssemblyInfo.assemblies self !! d) as [top|]; simpl in H.
  - case_bool_decide; simpl in H; [|discriminate]. by injection H as <-.
  - by injection H as <-.
Qed.

(** X20: [add_child] of an edge to a child [c] that no list mentions and
    that has no top resource, followed by [purge] of [c]: the graph is
    as before, but for the empty list the defaultdict has made for a
    parent that had none. *)
Theorem add_child_purge_round_trip self p c d :
  DocbookAssemblyInfo.assemblies self !! c = None →
  (∀ k l, DocbookAssemblyInfo.children self !! k = Some l → Forall (λ x, x.2 ≠ c) l) →
  DocbookAssemblyInfo.purge (DocbookAssemblyInfo.add_child self p c d) c =
    Ok {| DocbookAssemblyInfo.children :=
            <[p := default [] (DocbookAssemblyInfo.children self !! p)]>
              (DocbookAssemblyInfo.children self);
          DocbookAssemblyInfo.assemblies := DocbookAssemblyInfo.assemblies self;
          DocbookAssemblyInfo.roots := DocbookAssemblyInfo.roots self |} ∧
  (is_Some (DocbookAssemblyInfo.children self !! p) →
   DocbookAssemblyInfo.purge (DocbookAssemblyInfo.add_child self p c d) c = Ok self).
Proof.
  intros Ha Hc.
  assert (Hold : Forall (λ x : string * string, x.2 ≠ c)
                   (default [] (DocbookAssemblyInfo.children self !! p))).
  { destruct (DocbookAssemblyInfo.children self !! p) as [l|] eqn:E; simpl; [|constructor].
    by eapply Hc. }
  assert (Heq : DocbookAssemblyInfo.purge (DocbookAssemblyInfo.add_child self p c d) c =
    Ok {| DocbookAssemblyInfo.children :=
            <[p := default [] (DocbookAssemblyInfo.children self !! p)]>
              (DocbookAssemblyInfo.children self);
          DocbookAssemblyInfo.assemblies := DocbookAssemblyInfo.assemblies self;
          DocbookAssemblyInfo.roots := DocbookAssemblyInfo.roots self |}).
  { unfold DocbookAssemblyInfo.purge, DocbookAssemblyInfo.add_child. simpl.
    rewrite Ha. simpl. f_equal. f_equal.
    apply map_eq. intros k. rewrite lookup_fmap.
    destruct (decide (k = p)) as [->|Hne].
    - rewrite !lookup_insert_eq. simpl. f_equal.
      change (keep_edges c (default [] (DocbookAssemblyInfo.children self !! p) ++ [(d, c)])
              = default [] (DocbookAssemblyInfo.children self !! p)).
      rewrite keep_edges_app, (keep_edges_id _ _ Hold).
      unfold keep_edges. simpl. rewrite String.eqb_refl. simpl. by rewrite app_nil_r.
    - rewrite !lookup_insert_ne by done.
      destruct (DocbookAssemblyInfo.children self !! k) as [l|] eqn:E; simpl; [|done].
      f_equal. apply (keep_edges_id c l). by eapply Hc. }
  split; [exact Heq|].
  intros [l Hl]. rewrite Heq. f_equal. destruct self as [ch a r]. simpl in *.
  f_equal. rewrite Hl. simpl. by apply insert_id.
Qed.

Lemma add_child_purge_round_trip_witness :
  DocbookAssemblyInfo.purge
    (DocbookAssemblyInfo.add_child graph_A_B_C "B" "D" "chapter D") "D"
  = Ok graph_A_B_C.
Proof.
  apply (add_child_purge_round_trip graph_A_B_C "B" "D" "chapter D").
  - reflexivity.
  - intros k l Hl. apply Forall_forall. intros x Hx.
    assert (Hk : k = "A" ∨ k = "B").
    { destruct (decide (k = "A")); [by left|]. destruct (decide (k = "B")); [by right|].
      unfold graph_A_B_C, DocbookAssemblyInfo.add_child in Hl. simpl in Hl.
      rewrite !lookup_insert_ne in Hl by done. by rewrite lookup_empty in Hl. }
    destruct Hk as [-> | ->]; vm_compute in Hl; injection Hl as <-;
      apply list_elem_of_singleton in Hx as ->; simpl; discriminate.
  - by eexists.
Defined.

(** X21: [purge] of the same document twice is [purge] once: the second
    call returns, and returns the graph it was given. *)
Theorem purge_idempotent self d g :
  DocbookAssemblyInfo.purge self d = Ok g → DocbookAssemblyInfo.purge g d = Ok g.
Proof.
  intros H. pose proof (purge_children _ _ _ H) as Hc.
  assert (Ha : DocbookAssemblyInfo.assemblies g !! d = None).
  { unfold DocbookAssemblyInfo.purge in H.
    destruct (DocbookAssemblyInfo.assemblies self !! d) as [top|] eqn:E; simpl in H.
    - case_bool_decide; simpl in H; [|discriminate]. injection H as <-. simpl.
      apply lookup_delete_eq.
    - by injection H as <-. }
  unfold DocbookAssemblyInfo.purge. rewrite Ha. simpl. f_equal.
  destruct g as [ch a r]. simpl in *. f_equal.
  rewrite Hc. rewrite <- map_fmap_compose. apply map_fmap_ext.
  intros k l _. apply (keep_edges_idemp d l).
Qed.

Lemma purge_idempotent_witness :
  ∃ g, DocbookAssemblyInfo.purge graph_A_B_C "B" = Ok g ∧
       DocbookAssemblyInfo.purge g "B" = Ok g.
Proof.
  assert (H : ∃ g, DocbookAssemblyInfo.purge graph_A_B_C "B" = Ok g)
    by (eexists; vm_compute; reflexivity).
  destruct H as [g H]. exists g. split; [exact H|].
  exact (purge_idempotent _ _ _ H).
Defined.

(** X22: the set [roots] does not count who registered a resource.  Two
    documents with the same top resource: after [purge] of the first,
    [purge] of the second raises KeyError.  One document registered with
    two resources: [purge] removes the second registration and leaves
    the first resource in [roots]. *)
Theorem registrations_are_not_counted self p1 p2 d d' :
  (p1 ≠ p2 →
   ∃ g, DocbookAssemblyInfo.purge
          (DocbookAssemblyInfo.include_resource_top
             (DocbookAssemblyInfo.include_resource_top self p1 d) p2 d) p1 = Ok g ∧
        DocbookAssemblyInfo.purge g p2 = Raise KeyError) ∧
  (d ≠ d' →
   ∃ g, DocbookAssemblyInfo.purge
          (DocbookAssemblyInfo.include_resource_top
             (DocbookAssemblyInfo.include_resource_top self p1 d) p1 d') p1 = Ok g ∧
        d ∈ DocbookAssemblyInfo.roots g ∧
        DocbookAssemblyInfo.assemblies g !! p1 = None).
Proof.
  split.
  - intros Hne. unfold DocbookAssemblyInfo.purge, DocbookAssemblyInfo.include_resource_top.
    simpl. rewrite lookup_insert_ne by done. rewrite lookup_insert_eq. simpl.
    rewrite bool_decide_eq_true_2
      by (apply elem_of_union; left; by apply elem_of_singleton).
    simpl. eexists. split; [reflexivity|]. simpl.
    rewrite lookup_delete_ne by done. rewrite lookup_insert_eq.
    rewrite bool_decide_eq_false_2; [reflexivity|].
    intros Hd. apply elem_of_difference in Hd as [_ Hd].
    apply Hd. by apply elem_of_singleton.
  - intros Hne. unfold DocbookAssemblyInfo.purge, DocbookAssemblyInfo.include_resource_top.
    simpl. rewrite lookup_insert_eq. simpl.
    rewrite bool_decide_eq_true_2
      by (apply elem_of_union; left; by apply elem_of_singleton).
    simpl. eexists. split; [reflexivity|]. simpl. split; [|apply lookup_delete_eq].
    apply elem_of_difference. split.
    + apply elem_of_union. right. apply elem_of_union. left. by apply elem_of_singleton.
    + intros Hd. apply elem_of_singleton in Hd. done.
Qed.

Lemma registrations_are_not_counted_witness :
  ∃ g, DocbookAssemblyInfo.purge
         (DocbookAssemblyInfo.include_resource_top
            (DocbookAssemblyInfo.include_resource_top DocbookAssemblyInfo.init "A" "T")
            "B" "T") "A" = Ok g ∧
       DocbookAssemblyInfo.purge g "B" = Raise KeyError.
Proof.
  apply (proj1 (registrations_are_not_counted DocbookAssemblyInfo.init "A" "B" "T" "T")).
  discriminate.
Defined.

(** X23: after [purge] of [d], a toctree made by [create_toctree] does
    not include [d]: its entries are the edges of the document without
    those to [d], its [includefiles] the children of the entries. *)
Theorem purged_document_not_in_toctrees self d g k tc :
  DocbookAssemblyInfo.purge self d = Ok g →
  create_toctree g k = Some tc →
  (d ∉ includefiles tc) ∧
  ∃ l, DocbookAssemblyInfo.children self !! k = Some l ∧
       entries tc = keep_edges d l ∧
       includefiles tc = snd <$> entries tc.
Proof.
  intros H Htc. unfold create_toctree in Htc.
  case_bool_decide; [discriminate|].
  rewrite (purge_children _ _ _ H), lookup_fmap in Htc.
  destruct (DocbookAssemblyInfo.children self !! k) as [l|] eqn:E; simpl in Htc;
    [|discriminate].
  injection Htc as <-. simpl. split.
  - intros Hin. apply list_elem_of_fmap in Hin as (x & Hx & Hin).
    apply keep_edges_spec in Hin as [_ Hne]. by subst.
  - by exists l.
Qed.

Lemma purged_document_not_in_toctrees_witness :
  ∃ g tc,
    DocbookAssemblyInfo.purge graph_A_B_C "B" = Ok g ∧
    create_toctree g "A" = Some tc ∧
    "B" ∉ includefiles tc.
Proof.
  assert (H : ∃ g tc, DocbookAssemblyInfo.purge graph_A_B_C "B" = Ok g ∧
                      create_toctree g "A" = Some tc).
  { do 2 eexists. split; vm_compute; reflexivity. }
  destruct H as (g & tc & H & Htc). exists g, tc. split; [exact H|]. split; [exact Htc|].
  exact (proj1 (purged_document_not_in_toctrees _ _ _ _ _ H Htc)).
Defined.

(** ** The class of the node an element becomes *)

























(** ** Text that is skipped *)

(** X25: [has_no_text] returns with at most one warning, and with none
    when the text of the element and the tail of its first child are
    absent or blank, whatever the tails of the other children are: the
    [return] in the loop ends it after the first child. *)
Theorem has_no_text_checks_first_tail_only el parent st :
  (∃ ms, has_no_text el parent st = Ok (tt, add_messages ms st) ∧ (length ms ≤ 1)%nat) ∧
  (∀ i rest,
     etree.getchildren el = i :: rest →
     (etree.text el = None ∨ ∃ t, etree.text el = Some t ∧ PyStr.isspace t = true) →
     (etree.tail i = None ∨ ∃ t, etree.tail i = Some t ∧ PyStr.isspace t = true) →
     has_no_text el parent st = Ok (tt, st)).
Proof.
  split.
  - unfold has_no_text.
    destruct (etree.text el) as [t|]; [destruct (PyStr.isspace t)|].
    all: try (eexists [_]; split; [reflexivity|simpl; lia]).
    all: destruct (etree.getchildren el) as [|i rest];
      try (exists []; rewrite add_messages_nil; split; [reflexivity|simpl; lia]).
    all: destruct (etree.tail i) as [tl|]; [destruct (PyStr.isspace tl)|].
    all: try (exists []; rewrite add_messages_nil; split; [reflexivity|simpl; lia]).
    all: eexists [_]; split; [reflexivity|simpl; lia].
  - intros i rest Hcs Htext Htail. unfold has_no_text. rewrite Hcs.
    destruct Htext as [->|(t & -> & ->)];
      destruct Htail as [->|(tl & -> & ->)]; reflexivity.
Qed.

Lemma has_no_text_checks_first_tail_only_witness :
  has_no_text
    (elem "simplelist" [] None None
       [ elem "member" [] (Some "a") None []; elem "member" [] (Some "b") (Some "lost") [] ])
    document_loc (init false) = Ok (tt, init false).
Proof.
  apply (proj2 (has_no_text_checks_first_tail_only _ document_loc (init false))
           (elem "member" [] (Some "a") None [])
           [elem "member" [] (Some "b") (Some "lost") []]).
  - reflexivity.
  - by left.
  - by left.
Defined.

(** ** Modules and the parser *)

(** X26: [push_module] raises KeyError for an unknown resource; for a
    known one, [pop_module] of the state it returns puts back the parent
    and current documents, the current resource and the depth, and the
    list of modules from before the push with the resource appended to
    it, the file remaining noted as included. *)
Theorem push_pop_module_round_trip path2doc resourceref self :
  (SphinxDocbookConverter.resources self !! resourceref = None →
   SphinxDocbookConverter.push_module path2doc resourceref self = Raise KeyError) ∧
  (∀ filename,
     SphinxDocbookConverter.resources self !! resourceref = Some filename →
     ∃ state self1,
       SphinxDocbookConverter.push_module path2doc resourceref self = Ok (state, self1) ∧
       SphinxDocbookConverter.current_docname self1 = path2doc filename ∧
       SphinxDocbookConverter.parent_docname self1 =
         SphinxDocbookConverter.current_docname self ∧
       SphinxDocbookConverter.modules self1 = Some [] ∧
       SphinxDocbookConverter.pop_module state self1 =
         {| SphinxDocbookConverter.resources := SphinxDocbookConverter.resources self;
            SphinxDocbookConverter.parent_docname :=
              SphinxDocbookConverter.parent_docname self;
            SphinxDocbookConverter.current_docname :=
              SphinxDocbookConverter.current_docname self;
            SphinxDocbookConverter.current_resource :=
              SphinxDocbookConverter.current_resource self;
            SphinxDocbookConverter.current_depth :=
              SphinxDocbookConverter.current_depth self;
            SphinxDocbookConverter.modules :=
              (fun l => l ++ [resourceref]) <$> SphinxDocbookConverter.modules self;
            SphinxDocbookConverter.included :=
              SphinxDocbookConverter.included self ++ [filename] |}).
Proof.
  split.
  - intros H. unfold SphinxDocbookConverter.push_module. by rewrite H.
  - intros filename H. unfold SphinxDocbookConverter.push_module. rewrite H.
    do 2 eexists. split; [reflexivity|]. simpl.
    repeat split. unfold SphinxDocbookConverter.pop_module. simpl.
    f_equal. lia.
Qed.

(** A converter that knows the resource [r], kept in [r.xml], while it
    reads the document [index]. *)
Lemma push_pop_module_round_trip_witness :
  let self :=
    {| SphinxDocbookConverter.resources := <[ Some "r" := "r.xml" ]> ∅;
       SphinxDocbookConverter.parent_docname := None;
       SphinxDocbookConverter.current_docname := Some "index";
       SphinxDocbookConverter.current_resource := None;
       SphinxDocbookConverter.current_depth := 0;
       SphinxDocbookConverter.modules := None;
       SphinxDocbookConverter.included := [] |} in
  ∃ state self1,
    SphinxDocbookConverter.push_module (fun f => Some f) (Some "r") self
      = Ok (state, self1) ∧
    SphinxDocbookConverter.current_docname
      (SphinxDocbookConverter.pop_module state self1) = Some "index" ∧
    SphinxDocbookConverter.current_depth
      (SphinxDocbookConverter.pop_module state self1) = 0%Z.
Proof.
  intros self.
  assert (Hr : SphinxDocbookConverter.resources self !! Some "r" = Some "r.xml")
    by apply lookup_insert_eq.
  destruct (proj2 (push_pop_module_round_trip (fun f => Some f) (Some "r") self)
              "r.xml" Hr)
    as (state & self1 & H & _ & _ & _ & Hpop).
  exists state, self1. split; [exact H|]. rewrite Hpop. by split.
Defined.

Lemma resolve_db4 el st :
  _ns st = "" →
  resolve el st =
    Ok ((etree.str_tag (etree.tag el), Some ("e_" +:+ etree.str_tag (etree.tag el))), st).
Proof.
  intros Hns. unfold resolve. rewrite bind_gets, Hns.
  change (PyStr.len "") with 0%nat. rewrite drop_0.
  unfold PyStr.startswith. simpl.
  by destruct (etree.str_tag (etree.tag el)).
Qed.

(** X27: [parse] converts the root with a converter in DocBook 5 mode
    exactly when the first character of the root tag is an opening
    brace; when [parse] returns, the namespace prefix and the id
    attribute are those of that mode; and in DocBook 4 mode [resolve]
    gives every element the method name made of its whole tag, without
    any diagnostic. *)
Theorem parse_selects_mode_by_first_character root s c :
  etree.tag root = etree.TagName s →
  PyStr.index s 0 = Some c →
  let conv := init (String.eqb c "{") in
  DocbookParser.parse root = convert_root root conv ∧
  (∀ st', DocbookParser.parse root = Ok (tt, st') →
          _ns st' = _ns conv ∧ _id_attrib st' = _id_attrib conv) ∧
  (c ≠ "{" →
   ∀ el st, _ns st = _ns conv →
     resolve el st =
       Ok ((etree.str_tag (etree.tag el),
            Some ("e_" +:+ etree.str_tag (etree.tag el))), st)).
Proof.
  intros Htag Hc conv.
  assert (Hp : DocbookParser.parse root = convert_root root conv).
  { unfold DocbookParser.parse, DocbookParser._get_converter. by rewrite Htag, Hc. }
  split; [exact Hp|]. split.
  - intros st' H. rewrite Hp in H. unfold convert_root in H.
    destruct (keeps_conv root (Some document_loc) _ _ _ tt st' (inv_refl conv) H)
      as (_ & _ & Hn & Hi).
    split; [exact Hn|exact Hi].
  - intros Hne el st Hns. apply resolve_db4. rewrite Hns. unfold conv.
    by destruct (String.eqb_spec c "{").
Qed.

Lemma parse_selects_mode_by_first_character_witness :
  DocbookParser.parse (elem "{urn:x}doc" [] None None []) =
  convert_root (elem "{urn:x}doc" [] None None []) (init true).
Proof.
  exact (proj1 (parse_selects_mode_by_first_character
                  (elem "{urn:x}doc" [] None None []) "{urn:x}doc" "{"
                  eq_refl eq_refl)).
Defined.

(** ** Unknown tags and function prototypes *)

Lemma warn_unhandled_records el st st1 :
  warn_unhandled el st = Ok (tt, st1) →
  etree.tag el ∈ _not_handled_tags st1.
Proof.
  unfold warn_unhandled. rewrite bind_gets.
  destruct (bool_decide (etree.tag el ∈ _not_handled_tags st)) eqn:E.
  - apply bool_decide_eq_true in E. unfold ret. intros H. by simplify_eq.
  - intros H. apply bind_Ok_inv in H as ([] & st2 & _ & H).
    unfold modify in H. simplify_eq. simpl. set_solver.
Qed.

Lemma warn_unhandled_known el st :
  etree.tag el ∈ _not_handled_tags st → warn_unhandled el st = Ok (tt, st).
Proof.
  intros H. unfold warn_unhandled. rewrite bind_gets.
  by rewrite bool_decide_eq_true_2.
Qed.

(** X28: when the fallback of [_conv] for an element without method has
    returned, the tag of the element is among the reported tags, and
    after any further conversion an element with the same tag is not
    reported again. *)
Theorem unhandled_tag_reported_once el parent st st1 :
  unhandled _conv el parent st = Ok (tt, st1) →
  etree.tag el ∈ _not_handled_tags st1 ∧
  ∀ el2 parent2 st2,
    _conv el2 parent2 st1 = Ok (tt, st2) →
    ∀ el', etree.tag el' = etree.tag el →
      warn_unhandled el' st2 = Ok (tt, st2).
Proof.
  intros H. unfold unhandled in H.
  apply bind_Ok_inv in H as ([] & sa & Hw & H).
  apply warn_unhandled_records in Hw.
  assert (Hc : preserves (concat _conv el parent None nodes.inline true;; ret tt)).
  { apply preserves_bind; [|intros ?; apply preserves_ret].
    apply preserves_concat. intros i p _. apply preserves_conv. }
  destruct (Hc sa tt st1 H) as [(_ & _ & _ & Hsub & _) _].
  split; [by apply Hsub|].
  intros el2 parent2 st2 H2 el' Htag.
  destruct (preserves_conv el2 parent2 st1 tt st2 H2) as [(_ & _ & _ & Hsub2 & _) _].
  apply warn_unhandled_known. rewrite Htag. by apply Hsub2, Hsub.
Qed.

Lemma unhandled_tag_reported_once_witness :
  ∃ st1 st2,
    unhandled _conv (elem "blink" [] (Some "a") None []) document_loc (init false)
      = Ok (tt, st1) ∧
    _conv (elem "para" [] (Some "b") None []) None st1 = Ok (tt, st2) ∧
    warn_unhandled (elem "blink" [] (Some "c") None []) st2 = Ok (tt, st2).
Proof.
  assert (H : ∃ st1 st2,
             unhandled _conv (elem "blink" [] (Some "a") None []) document_loc
               (init false) = Ok (tt, st1) ∧
             _conv (elem "para" [] (Some "b") None []) None st1 = Ok (tt, st2)).
  { do 2 eexists. split; [vm_compute; reflexivity|vm_compute; reflexivity]. }
  destruct H as (st1 & st2 & H1 & H2).
  exists st1, st2. split; [exact H1|]. split; [exact H2|].
  by apply (proj2 (unhandled_tag_reported_once _ _ _ _ H1) _ _ _ H2).
Defined.

Lemma paramdefs_none conv t parent cs sep st :
  List.filter (has_tag t) cs = [] → paramdefs conv t parent cs sep st = Ok (tt, st).
Proof.
  induction cs as [|c cs IH]; simpl; [done|].
  destruct (has_tag t c); [done|]. exact IH.
Qed.

(** X29: [e_funcprototype] on an element without [funcdef] child raises
    AttributeError; with a [funcdef] and no [paramdef] child it is, after
    the warnings of [supports_only], the conversion of the [funcdef]
    followed by the text ")", with no opening parenthesis. *)
Theorem funcprototype_without_funcdef_raises conv el parent st :
  (find el (_ns st +:+ "funcdef") = None →
   e_funcprototype conv el parent st = Raise AttributeError) ∧
  (∀ funcdef,
     find el (_ns st +:+ "funcdef") = Some funcdef →
     findall el (_ns st +:+ "paramdef") = [] →
     e_funcprototype conv el parent st =
       (conv funcdef (Some parent);; add_text parent ")")
         (add_messages
            (skipped_warnings el [_ns st +:+ "funcdef"; _ns st +:+ "paramdef"]) st)).
Proof.
  split.
  - intros Hf. unfold e_funcprototype. rewrite bind_gets.
    erewrite bind_Ok by apply supports_only_tuple.
    apply bind_Raise. by rewrite with_find_find, Hf.
  - intros funcdef Hf Hp. unfold e_funcprototype. rewrite bind_gets.
    erewrite bind_Ok by apply supports_only_tuple.
    rewrite with_find_find, Hf. simpl.
    unfold mbind, M_bind.
    destruct (conv funcdef (Some parent) _) as [[[] st1]|e]; [|done].
    by rewrite paramdefs_none.
Qed.

Lemma funcprototype_without_funcdef_raises_witness :
  e_funcprototype _conv
    (elem "funcprototype" [] None None [elem "paramdef" [] (Some "int x") None []])
    document_loc (init false) = Raise AttributeError.
Proof.
  apply (proj1 (funcprototype_without_funcdef_raises _conv
                  (elem "funcprototype" [] None None
                     [elem "paramdef" [] (Some "int x") None []])
                  document_loc (init false))).
  reflexivity.
Defined.
